(** * Request orchestration of the pinia api toolkit (pinia_api_tools.ts)
      and the response interceptors of app/web/src/store/apis.ts

    A shallow embedding of [ApiRequest], [ApiRequestDebouncer], the tracking
    key helpers of [initPiniaApiToolkitPlugin] and the axios response
    interceptors of [sdfApiInstance], with the properties of that code that
    the specification states. *)

From Stdlib Require Import ZArith String List Lia.
From stdpp Require Import base option list gmap strings pretty.

Local Open Scope string_scope.
Local Open Scope Z_scope.

(** ** JavaScript values

    Request parameters and response bodies are opaque to this layer except
    for truthiness and lodash's [_.isEqual].  Scalars are kept as they are; a
    nested array or object is kept by a canonical rendering, so that deep
    equality of two values is equality of their representations. *)

Inductive JValue : Type :=
| JUndefined
| JNull
| JBool (b : bool)
| JNum (n : Z)
| JStr (s : string)
| JNested (canon : string).

#[global] Instance JValue_eq_dec : EqDecision JValue.
Proof. solve_decision. Defined.

(** [!!v] of JavaScript. *)
Definition truthy (v : JValue) : bool :=
  match v with
  | JUndefined | JNull => false
  | JBool b => b
  | JNum n => negb (n =? 0)
  | JStr s => negb (String.eqb s "")
  | JNested _ => true
  end.

(** A params object: [Record<string, unknown>]. *)
Abbreviation Params := (gmap string JValue).

(** [_.isEqual(a, b)] where either side may be [undefined]. *)
Definition isEqual (a b : option Params) : bool := bool_decide (a = b).

(** ** Tracking keys *)

Module TrackingKey.

(** A number that is an integer of size at most 2^53: every such integer is
    a number of JavaScript, and its [String(n)] is its decimal notation
    ([-0] is [0] here: it prints as "0" and is falsy as well). *)
Record SafeInteger := mkSafeInteger {
  integer : Z;
  integer_safe : Is_true (Z.abs integer <=? 9007199254740992);
}.

(** [RawRequestStatusKeyArg = string | number | undefined | null].  A number
    is a safe integer, [NaN], an infinity, or any other number, which is not
    zero and is given by its [String(...)]: a fraction, or an integer beyond
    2^53, which JavaScript prints by its shortest digits and from 1e21 on
    with an exponent. *)
Inductive RawRequestStatusKeyArg : Type :=
| KStr (s : string)
| KInteger (n : SafeInteger)
| KNaN
| KInfinity (negative : bool)
| KNumber (text : string)
| KUndefined
| KNull.

(** The integer [n], for a literal [n] of size at most 2^53. *)
Abbreviation KNum n := (KInteger {| integer := n; integer_safe := I |}) (only parsing).

(** [keyRequestStatusBy?: RawRequestStatusKeyArg | RawRequestStatusKeyArg[]] *)
Inductive KeyRequestStatusBy : Type :=
| KeySingle (a : RawRequestStatusKeyArg)
| KeyArray (l : list RawRequestStatusKeyArg).

Definition TRACKING_KEY_SEPARATOR : string := "%".

Definition key_truthy (a : RawRequestStatusKeyArg) : bool :=
  match a with
  | KStr s => negb (String.eqb s "")
  | KInteger n => negb (integer n =? 0)
  | KInfinity _ | KNumber _ => true
  | KNaN | KUndefined | KNull => false
  end.

(** How [Array.prototype.join] renders one element: [undefined] and [null]
    give the empty string, anything else its [String(...)]. *)
Definition join_elem (a : RawRequestStatusKeyArg) : string :=
  match a with
  | KStr s => s
  | KInteger n => pretty (integer n)
  | KNaN => "NaN"
  | KInfinity negative => if negative then "-Infinity" else "Infinity"
  | KNumber text => text
  | KUndefined | KNull => ""
  end.

(** [arr.join(sep)] *)
Fixpoint join (sep : string) (arr : list RawRequestStatusKeyArg) : string :=
  match arr with
  | [] => ""
  | [a] => join_elem a
  | a :: rest => join_elem a +:+ sep +:+ join sep rest
  end.

(** [_.compact(arr)]: the elements that are truthy. *)
Definition compact (arr : list RawRequestStatusKeyArg) : list RawRequestStatusKeyArg :=
  filter (fun a => key_truthy a = true) arr.

(** [getTrackingKey(actionName, requestSpec)], on the descriptor's
    [keyRequestStatusBy] ([None] when the field is not given). *)
Definition getTrackingKey (actionName : string)
    (keyRequestStatusBy : option KeyRequestStatusBy) : string :=
  let trackingKeyArray := [KStr actionName] in
  let trackingKeyArray :=
    match keyRequestStatusBy with
    | Some (KeyArray l) => (trackingKeyArray ++ l)%list
    | Some (KeySingle a) =>
        if key_truthy a then (trackingKeyArray ++ [a])%list else trackingKeyArray
    | None => trackingKeyArray
    end in
  join TRACKING_KEY_SEPARATOR trackingKeyArray.

(** [getKey(requestKey, ...keyedByArgs)]; [unref] is the identity on the
    raw values taken here. *)
Definition getKey (requestKey : string)
    (keyedByArgs : list RawRequestStatusKeyArg) : string :=
  join TRACKING_KEY_SEPARATOR (KStr requestKey :: compact keyedByArgs).

End TrackingKey.

Import TrackingKey.

(** ** Errors, responses and results *)

(** [Returns a] for a normal return (or a fulfilled promise), [Throws e] for
    an exception (or a rejected promise). *)
Inductive Outcome (E A : Type) : Type :=
| Returns (a : A)
| Throws (e : E).
Arguments Returns {E A} a.
Arguments Throws {E A} e.

Record Headers := mkHeaders {
  force_change_set_id : option string;  (* headers.force_change_set_id *)
  content_type : option string;         (* headers["content-type"] *)
}.

(** An [AxiosResponse]; axios gives every response its headers.  [status] is
    absent only on the object that the failure path builds around the body
    returned by [onFail] when the error had no response. *)
Record AxiosResponse := mkAxiosResponse {
  status : option Z;
  headers : Headers;
  data : JValue;
}.

(** A thrown value: an [Error], or an [AxiosError] with the response it may
    carry. *)
Record JsError := mkJsError {
  message : string;
  isAxiosError : bool;                  (* err instanceof AxiosError *)
  config_url : option string;           (* err.config?.url *)
  response : option AxiosResponse;      (* err.response *)
}.

Definition Error (msg : string) : JsError :=
  {| message := msg; isAxiosError := false; config_url := None; response := None |}.

(** The [TypeError] of reading a property of [undefined]. *)
Definition TypeError (prop : string) : JsError :=
  Error ("Cannot read properties of undefined (reading '" +:+ prop +:+ "')").

Abbreviation Thrown := (Outcome JsError).

(** What [completed] is resolved with: [{ data }] or [{ error }]. *)
Inductive TriggerResult : Type :=
| TRData (d : JValue)
| TRError (e : JsError).

(** ** ApiRequest *)

(** ["get" | "patch" | "post" | "put" | "delete"] *)
Inductive Method := GET | PATCH | POST | PUT | DELETE.

(** One element of a [URLPattern]: a string, or an object given by its own
    entries in the order of [Object.keys]; [None] is a value that is
    [undefined] or [null]. *)
Inductive UrlSegment : Type :=
| SegStr (s : string)
| SegObj (entries : list (string * option string)).

Inductive Url : Type :=
| UrlString (s : string)
| UrlPattern (pattern : list UrlSegment).

(** What a rollback function does when it is called. *)
Abbreviation Rollback := (Thrown unit).

(** The descriptor.  A hook that is awaited ([onSuccess], [onNewChangeSet])
    is given by its presence, and how its promise settles is an input of the
    run; a hook that is called and not awaited ([optimistic], the rollback it
    returns, [onFail]) is given by what it does.  The entries of [options]
    are spread last into what axios is called with.  [api] and [headers] are
    passed through to axios and are left out. *)
Record ApiRequestDescription := mkApiRequestDescription {
  method : option Method;
  url : option Url;
  params : option Params;
  formData : option string;
  keyRequestStatusBy : option KeyRequestStatusBy;
  onSuccess : bool;
  onNewChangeSet : bool;
  onFail : option (JsError -> Thrown JValue);
  options : option Params;
  optimistic : option (Thrown (option Rollback));
  _delay : option nat;
}.

Definition set_params (p : option Params) (s : ApiRequestDescription) : ApiRequestDescription :=
  {| method := method s; url := url s; params := p; formData := formData s;
     keyRequestStatusBy := keyRequestStatusBy s; onSuccess := onSuccess s;
     onNewChangeSet := onNewChangeSet s; onFail := onFail s; options := options s;
     optimistic := optimistic s; _delay := _delay s |}.

Definition set_method (m : option Method) (s : ApiRequestDescription) : ApiRequestDescription :=
  {| method := m; url := url s; params := params s; formData := formData s;
     keyRequestStatusBy := keyRequestStatusBy s; onSuccess := onSuccess s;
     onNewChangeSet := onNewChangeSet s; onFail := onFail s; options := options s;
     optimistic := optimistic s; _delay := _delay s |}.

Record ApiRequest := mkApiRequest {
  requestSpec : ApiRequestDescription;
  rawResponseData : JValue;
  rawResponseError : option JsError;
  rawSuccess : option bool;
}.

(** [new ApiRequest(requestSpec)]: the method defaults to "get". *)
Definition newApiRequest (spec : ApiRequestDescription) : ApiRequest :=
  {| requestSpec := match method spec with
                    | None => set_method (Some GET) spec
                    | Some _ => spec
                    end;
     rawResponseData := JUndefined;
     rawResponseError := None;
     rawSuccess := None |}.

Definition setSuccessfulResult (d : JValue) (r : ApiRequest) : ApiRequest :=
  {| requestSpec := requestSpec r; rawResponseData := d;
     rawResponseError := rawResponseError r; rawSuccess := Some true |}.

Definition setFailedResult (err : JsError) (r : ApiRequest) : ApiRequest :=
  {| requestSpec := requestSpec r; rawResponseData := rawResponseData r;
     rawResponseError := Some err; rawSuccess := Some false |}.

Definition set_requestSpec (s : ApiRequestDescription) (r : ApiRequest) : ApiRequest :=
  {| requestSpec := s; rawResponseData := rawResponseData r;
     rawResponseError := rawResponseError r; rawSuccess := rawSuccess r |}.

(** The value of the [result] getter: [{ success: true, data }] or
    [{ success: false, err }], the latter with the keys [errBody] and
    [statusCode] when [err] is an [AxiosError]. *)
Inductive Result : Type :=
| Success (data : JValue)
| Failure (err : option JsError) (axios : option (JValue * option Z)).

(** [get result()] *)
Definition result (r : ApiRequest) : Thrown Result :=
  match rawSuccess r with
  | None => Throws (Error "You must await the request to access the result")
  | Some true => Returns (Success (rawResponseData r))
  | Some false =>
      Returns (Failure (rawResponseError r)
        (match rawResponseError r with
         | Some err =>
             if isAxiosError err
             then Some (from_option data JUndefined (response err),
                        response err ≫= status)
             else None
         | None => None
         end))
  end.

(** [String(p)] of an element of a pattern.  An object is given by its own
    entries and inherits from [Object.prototype]: it prints as
    "[object Object]", unless it has an entry named [toString], whose value
    is no function, and then the conversion throws its [TypeError]. *)
Definition ConversionError : JsError := Error "Cannot convert object to primitive value".

Definition segment_text (p : UrlSegment) : Thrown string :=
  match p with
  | SegStr s => Returns s
  | SegObj entries =>
      if bool_decide ("toString" ∈ entries.*1) then Throws ConversionError
      else Returns "[object Object]"
  end.

(** [String(pattern)]: the elements, converted in order and joined with
    commas. *)
Fixpoint pattern_texts (pattern : list UrlSegment) : Thrown (list string) :=
  match pattern with
  | [] => Returns []
  | p :: rest =>
      match segment_text p with
      | Returns t =>
          match pattern_texts rest with
          | Returns ts => Returns (t :: ts)
          | Throws e => Throws e
          end
      | Throws e => Throws e
      end
  end.

(** What [throw Error(`Bad URLPattern ${pattern} with: ${p}`)] throws. *)
Definition BadURLPattern (pattern : list UrlSegment) (p : UrlSegment) : JsError :=
  match pattern_texts pattern with
  | Returns ts =>
      match segment_text p with
      | Returns t =>
          Error ("Bad URLPattern " +:+ String.concat "," ts +:+ " with: " +:+ t)
      | Throws e => e
      end
  | Throws e => e
  end.

(** [describePattern(pattern)]: the url and its low-cardinality name.
    [whole] is the pattern, [pattern] what [forEach] has still to visit. *)
Fixpoint describePattern_go (whole pattern : list UrlSegment)
    (_url _urlName : list string) : Thrown (list string * list string) :=
  match pattern with
  | [] => Returns (_url, _urlName)
  | SegStr p :: rest =>
      describePattern_go whole rest (_url ++ [p])%list (_urlName ++ [p])%list
  | SegObj entries as p :: rest =>
      match entries with
      | (key, Some v) :: _ =>
          if String.eqb v "" then Throws (BadURLPattern whole p)
          else describePattern_go whole rest (_url ++ [v])%list
                 (_urlName ++ [":" +:+ key])%list
      | _ => Throws (BadURLPattern whole p)
      end
  end.

Definition describePattern (pattern : list UrlSegment) : Thrown (string * string) :=
  match describePattern_go pattern pattern [] [] with
  | Returns (_url, _urlName) =>
      Returns (String.concat "/" _url, String.concat "/" _urlName)
  | Throws e => Throws e
  end.

(** ** The store: debouncers, promises and suspended calls *)

(** [RawApiRequestStatus["error"]]: the response of the failed request, or
    the fallback [{ data: { error: { message } } }]. *)
Inductive StoredError : Type :=
| ErrorResponse (r : AxiosResponse)
| ErrorMessage (message : string).

(** Dates are readings of a clock that counts them. *)
Record RawApiRequestStatus := mkRawApiRequestStatus {
  requestedAt : nat;
  receivedAt : option nat;
  completedAt : option nat;
  lastSuccessAt : option nat;
  payload : option Params;
  error : option StoredError;
  completed : option nat;               (* the DeferredPromise, by its address *)
}.

Definition set_receivedAt (t : nat) (r : RawApiRequestStatus) : RawApiRequestStatus :=
  {| requestedAt := requestedAt r; receivedAt := Some t;
     completedAt := completedAt r; lastSuccessAt := lastSuccessAt r;
     payload := payload r; error := error r; completed := completed r |}.

Definition set_lastSuccessAt (t : nat) (r : RawApiRequestStatus) : RawApiRequestStatus :=
  {| requestedAt := requestedAt r; receivedAt := receivedAt r;
     completedAt := completedAt r; lastSuccessAt := Some t;
     payload := payload r; error := error r; completed := completed r |}.

Definition set_error (e : StoredError) (r : RawApiRequestStatus) : RawApiRequestStatus :=
  {| requestedAt := requestedAt r; receivedAt := receivedAt r;
     completedAt := completedAt r; lastSuccessAt := lastSuccessAt r;
     payload := payload r; error := Some e; completed := completed r |}.

(** The private field [request] of an [ApiRequestDebouncer]. *)
Record ApiRequestDebouncer := mkApiRequestDebouncer {
  request : option RawApiRequestStatus;
}.

(** The body that axios is called with. *)
Inductive RequestBody : Type :=
| BodyParams (p : option Params)
| BodyFormData (fd : string).

(** What axios is called with: [{ method, url, headers, params, data,
    ...options }].  The entries of [options] come last in the object, so
    that an entry named [method], [url], [headers], [params] or [data]
    replaces what the fields before it give. *)
Record AxiosRequestConfig := mkAxiosRequestConfig {
  cfg_method : option Method;
  cfg_url : string;
  cfg_multipart : bool;                 (* headers["Content-Type"] = "multipart/form-data" *)
  cfg_params : option Params;           (* querystring *)
  cfg_data : option RequestBody;        (* body *)
  cfg_options : Params;                 (* ...options *)
}.

(** A write to the request status of a debouncer: [this.request = {...}],
    or the marking of [this.request] as received, in the [try] block
    ([Received true], with [lastSuccessAt]) or in the [catch] block. *)
Inductive StatusChange : Type :=
| Requested
| Received (success : bool).

(** What a run does that can be seen from outside a debouncer, in the order
    it happens.  A call of [triggerApiRequest] that is not deduplicated is
    named by the number [c] of its [requestUlid]. *)
Inductive Event : Type :=
| EvStatus (this c : nat) (change : StatusChange)
| EvOptimistic (c : nat)                               (* requestSpec.optimistic(requestUlid) *)
| EvSpanStart (c : nat) (name : string)                (* tracer.startActiveSpan(name, ...) *)
| EvApi (c : nat) (config : AxiosRequestConfig)        (* api({...}) *)
| EvApiSettled (c : nat) (r : Thrown AxiosResponse)    (* the promise of api({...}) settles *)
| EvNewChangeSet (c : nat) (newChangeSetId : string) (body : JValue)
| EvOnSuccess (c : nat) (body : JValue)
| EvHookSettled (c : nat) (r : Thrown unit)            (* an awaited hook settles *)
| EvRollback (c : nat) (args : list JValue)            (* optimisticRollbackFn() *)
| EvOnFail (c : nat) (err : JsError)
| EvSpanEnd (c : nat) (status_code : option Z).

(** Where a call of [triggerApiRequest] is suspended. *)
Inductive Phase : Type :=
| Delaying                                    (* await promiseDelay(...) *)
| Calling                                     (* await api({...}) *)
| AwaitingNewChangeSet (request : AxiosResponse)
| AwaitingOnSuccess (request : AxiosResponse)
| AwaitingCompleted                           (* await completed.promise *)
| Settled (r : Thrown TriggerResult).         (* the async function has returned or thrown *)

(** The variables a suspended call of [triggerApiRequest] has closed over. *)
Record Call := mkCall {
  c_this : nat;                               (* the debouncer *)
  c_spec : ApiRequestDescription;             (* the destructured requestSpec *)
  c_completed : nat;
  c_optimisticRollbackFn : option Rollback;
  c_url : string;                             (* _url *)
  c_fire : nat;                               (* the fireActionResult that awaits it *)
  c_phase : Phase;
}.

Definition set_phase (ph : Phase) (c : Call) : Call :=
  {| c_this := c_this c; c_spec := c_spec c; c_completed := c_completed c;
     c_optimisticRollbackFn := c_optimisticRollbackFn c; c_url := c_url c;
     c_fire := c_fire c; c_phase := ph |}.

Definition set_optimisticRollbackFn (rb : option Rollback) (c : Call) : Call :=
  {| c_this := c_this c; c_spec := c_spec c; c_completed := c_completed c;
     c_optimisticRollbackFn := rb; c_url := c_url c;
     c_fire := c_fire c; c_phase := c_phase c |}.

Definition set_url (u : string) (c : Call) : Call :=
  {| c_this := c_this c; c_spec := c_spec c; c_completed := c_completed c;
     c_optimisticRollbackFn := c_optimisticRollbackFn c; c_url := u;
     c_fire := c_fire c; c_phase := c_phase c |}.

(** What a call of [fireActionResult] awaits, and how it ended. *)
Inductive FireState : Type :=
| FirePending
| FireReturned
| FireThrew (e : JsError).

Inductive Awaited : Type :=
| AwaitCall (c : nat)                         (* its own call of triggerApiRequest *)
| AwaitSignal (p : nat).                      (* the [completed.promise] of a pending request *)

Record Fire := mkFire {
  f_request : nat;                            (* the ApiRequest it was given *)
  f_awaits : option Awaited;
  f_state : FireState;
}.

Record World := mkWorld {
  debouncers : list ApiRequestDebouncer;      (* the ApiRequestDebouncer objects *)
  apiRequestDebouncers : gmap string nat;     (* store.apiRequestDebouncers *)
  apiRequests : list ApiRequest;              (* the ApiRequest objects *)
  promises : list (option TriggerResult);     (* the deferred promises *)
  calls : list Call;
  fires : list Fire;
  clock : nat;
  trace : list Event;
  VITE_DELAY_API_REQUESTS : bool;             (* import.meta.env.VITE_DELAY_API_REQUESTS is set *)
}.

Definition set_debouncers v (w : World) : World :=
  {| debouncers := v; apiRequestDebouncers := apiRequestDebouncers w;
     apiRequests := apiRequests w; promises := promises w; calls := calls w;
     fires := fires w; clock := clock w; trace := trace w;
     VITE_DELAY_API_REQUESTS := VITE_DELAY_API_REQUESTS w |}.

Definition set_apiRequestDebouncers v (w : World) : World :=
  {| debouncers := debouncers w; apiRequestDebouncers := v;
     apiRequests := apiRequests w; promises := promises w; calls := calls w;
     fires := fires w; clock := clock w; trace := trace w;
     VITE_DELAY_API_REQUESTS := VITE_DELAY_API_REQUESTS w |}.

Definition set_apiRequests v (w : World) : World :=
  {| debouncers := debouncers w; apiRequestDebouncers := apiRequestDebouncers w;
     apiRequests := v; promises := promises w; calls := calls w;
     fires := fires w; clock := clock w; trace := trace w;
     VITE_DELAY_API_REQUESTS := VITE_DELAY_API_REQUESTS w |}.

Definition set_promises v (w : World) : World :=
  {| debouncers := debouncers w; apiRequestDebouncers := apiRequestDebouncers w;
     apiRequests := apiRequests w; promises := v; calls := calls w;
     fires := fires w; clock := clock w; trace := trace w;
     VITE_DELAY_API_REQUESTS := VITE_DELAY_API_REQUESTS w |}.

Definition set_calls v (w : World) : World :=
  {| debouncers := debouncers w; apiRequestDebouncers := apiRequestDebouncers w;
     apiRequests := apiRequests w; promises := promises w; calls := v;
     fires := fires w; clock := clock w; trace := trace w;
     VITE_DELAY_API_REQUESTS := VITE_DELAY_API_REQUESTS w |}.

Definition set_fires v (w : World) : World :=
  {| debouncers := debouncers w; apiRequestDebouncers := apiRequestDebouncers w;
     apiRequests := apiRequests w; promises := promises w; calls := calls w;
     fires := v; clock := clock w; trace := trace w;
     VITE_DELAY_API_REQUESTS := VITE_DELAY_API_REQUESTS w |}.

Definition set_clock v (w : World) : World :=
  {| debouncers := debouncers w; apiRequestDebouncers := apiRequestDebouncers w;
     apiRequests := apiRequests w; promises := promises w; calls := calls w;
     fires := fires w; clock := v; trace := trace w;
     VITE_DELAY_API_REQUESTS := VITE_DELAY_API_REQUESTS w |}.

Definition set_trace v (w : World) : World :=
  {| debouncers := debouncers w; apiRequestDebouncers := apiRequestDebouncers w;
     apiRequests := apiRequests w; promises := promises w; calls := calls w;
     fires := fires w; clock := clock w; trace := v;
     VITE_DELAY_API_REQUESTS := VITE_DELAY_API_REQUESTS w |}.

(** The store of a freshly installed plugin. *)
Definition init (delayed : bool) : World :=
  {| debouncers := []; apiRequestDebouncers := ∅; apiRequests := [];
     promises := []; calls := []; fires := []; clock := 0%nat; trace := [];
     VITE_DELAY_API_REQUESTS := delayed |}.

(** ** Statements

    A statement runs on the store and returns or throws; what it did to the
    store before it threw stays done. *)

Definition M (A : Type) : Type := World -> Thrown A * World.

#[global] Instance M_ret : MRet M := fun A a w => (Returns a, w).

#[global] Instance M_bind : MBind M := fun A B f m w =>
  match m w with
  | (Returns a, w') => f a w'
  | (Throws e, w') => (Throws e, w')
  end.

Definition throw {A} (e : JsError) : M A := fun w => (Throws e, w).

Definition lift {A} (o : Thrown A) : M A := fun w => (o, w).

Definition gets {A} (f : World -> A) : M A := fun w => (Returns (f w), w).

Definition modify (f : World -> World) : M unit := fun w => (Returns tt, f w).

(** [try { body } catch (err) { handler(err) }] *)
Definition try_catch {A} (body : M A) (handler : JsError -> M A) : M A := fun w =>
  match body w with
  | (Returns a, w') => (Returns a, w')
  | (Throws e, w') => handler e w'
  end.

(** [new Date()] *)
Definition newDate : M nat := fun w => (Returns (clock w), set_clock (S (clock w)) w).

Definition emit (e : Event) : M unit := modify (fun w => set_trace (trace w ++ [e])%list w).

(** [this.request] *)
Definition this_request (this : nat) : M (option RawApiRequestStatus) :=
  gets (fun w => debouncers w !! this ≫= request).

(** [this.request = r] *)
Definition assign_request (this : nat) (r : RawApiRequestStatus) : M unit :=
  modify (fun w => set_debouncers (<[this := mkApiRequestDebouncer (Some r)]> (debouncers w)) w).

(** [(this.request as RawApiRequestStatus).field = value] *)
Definition update_request (this : nat) (field : string)
    (f : RawApiRequestStatus -> RawApiRequestStatus) : M unit :=
  r ← this_request this;
  match r with
  | Some r => assign_request this (f r)
  | None => throw (Error ("Cannot set properties of undefined (setting '" +:+ field +:+ "')"))
  end.

(** [createDeferredPromise()] *)
Definition createDeferredPromise : M nat := fun w =>
  (Returns (length (promises w)), set_promises (promises w ++ [None])%list w).

Definition set_f_state (st : FireState) (f : Fire) : Fire :=
  {| f_request := f_request f; f_awaits := f_awaits f; f_state := st |}.

Definition set_f_awaits (a : Awaited) (f : Fire) : Fire :=
  {| f_request := f_request f; f_awaits := Some a; f_state := f_state f |}.

(** The rest of [fireActionResult] once [await this.triggerApiRequest(...)]
    has settled with [o]. *)
Definition resumeFire (fid : nat) (o : Thrown (option TriggerResult)) (w : World) : World :=
  match fires w !! fid with
  | Some f =>
      match f_state f with
      | FirePending =>
          match o with
          | Throws e =>
              set_fires (<[fid := set_f_state (FireThrew e) f]> (fires w)) w
          | Returns None =>
              set_fires (<[fid := set_f_state (FireThrew (Error "No trigger result")) f]> (fires w)) w
          | Returns (Some (TRError err)) =>
              set_fires (<[fid := set_f_state FireReturned f]> (fires w))
                (set_apiRequests (alter (setFailedResult err) (f_request f) (apiRequests w)) w)
          | Returns (Some (TRData d)) =>
              set_fires (<[fid := set_f_state FireReturned f]> (fires w))
                (set_apiRequests (alter (setSuccessfulResult d) (f_request f) (apiRequests w)) w)
          end
      | _ => w
      end
  | None => w
  end.

Definition awaits_signal (p : nat) (f : Fire) : bool :=
  match f_awaits f, f_state f with
  | Some (AwaitSignal q), FirePending => Nat.eqb p q
  | _, _ => false
  end.

(** The calls of [fireActionResult] that await the promise [p] go on with
    [v], in the order they came. *)
Definition resumeAll (p : nat) (v : TriggerResult) (fids : list nat) (w : World) : World :=
  foldl (fun w fid =>
           match fires w !! fid with
           | Some f => if awaits_signal p f
                       then resumeFire fid (Returns (Some v)) w else w
           | None => w
           end) w fids.

(** [completed.resolve(v)]: the first resolution stays. *)
Definition resolve (p : nat) (v : TriggerResult) : M unit := fun w =>
  match promises w !! p with
  | Some None =>
      (Returns tt,
       resumeAll p v (seq 0 (length (fires w)))
         (set_promises (<[p := Some v]> (promises w)) w))
  | _ => (Returns tt, w)
  end.

(** How a stretch of [triggerApiRequest] between two awaits ends. *)
Inductive Stretch : Type :=
| Suspend (ph : Phase)
| Return (v : TriggerResult).

(** [return await completed.promise] *)
Definition return_await (p : nat) : M Stretch :=
  v ← gets (fun w => promises w !! p);
  match v with
  | Some (Some v) => mret (Return v)
  | _ => mret (Suspend AwaitingCompleted)
  end.

(** ** ApiRequestDebouncer *)

(** The [n]-th identifier that [ulid()] hands out. *)
Definition ulid (n : nat) : string := "ULID" +:+ pretty n.

Definition toUpperCase (m : option Method) : string :=
  match m with
  | Some GET => "GET"
  | Some PATCH => "PATCH"
  | Some POST => "POST"
  | Some PUT => "PUT"
  | Some DELETE => "DELETE"
  | None => "undefined"
  end.

Definition header_truthy (h : option string) : bool :=
  match h with
  | Some v => negb (String.eqb v "")
  | None => false
  end.

Definition is_get (m : option Method) : bool :=
  match m with Some GET => true | _ => false end.

Definition delay_truthy (d : option nat) : bool :=
  match d with Some (S _) => true | _ => false end.

(** The argument of [api({...})], by the branch on [method] and [formData]. *)
Definition axiosConfig (c : Call) : AxiosRequestConfig :=
  let spec := c_spec c in
  if is_get (method spec) then
    {| cfg_method := method spec; cfg_url := c_url c; cfg_multipart := false;
       cfg_params := params spec; cfg_data := None;
       cfg_options := default ∅ (options spec) |}
  else
    match formData spec with
    | Some fd =>
        {| cfg_method := method spec; cfg_url := c_url c; cfg_multipart := true;
           cfg_params := params spec; cfg_data := Some (BodyFormData fd);
       cfg_options := default ∅ (options spec) |}
    | None =>
        {| cfg_method := method spec; cfg_url := c_url c; cfg_multipart := false;
           cfg_params := None; cfg_data := Some (BodyParams (params spec));
       cfg_options := default ∅ (options spec) |}
    end.

Section Call.

(** The call [cid] of [triggerApiRequest], with the variables [c] it has
    closed over. *)
Variable cid : nat.
Variable c : Call.

(** [request = await api({...})] is reached. *)
Definition issue : M Stretch :=
  emit (EvApi cid (axiosConfig c));;
  mret (Suspend Calling).

(** From [completed.resolve({ data: request.data })] to the end of the
    [try] block. *)
Definition succeed (request : AxiosResponse) : M Stretch :=
  resolve (c_completed c) (TRData (data request));;
  emit (EvSpanEnd cid (status request));;
  return_await (c_completed c).

(** From the marking of the request as received to [await onSuccess]. *)
Definition received (request : AxiosResponse) : M Stretch :=
  t ← newDate;
  update_request (c_this c) "lastSuccessAt" (set_lastSuccessAt t);;
  t ← newDate;
  update_request (c_this c) "receivedAt" (set_receivedAt t);;
  emit (EvStatus (c_this c) cid (Received true));;
  if onSuccess (c_spec c) then
    emit (EvOnSuccess cid (data request));;
    mret (Suspend (AwaitingOnSuccess request))
  else succeed request.

(** From the response of axios to [await onNewChangeSet]. *)
Definition responded (request : AxiosResponse) : M Stretch :=
  let force_change_set_id := force_change_set_id (headers request) in
  if header_truthy force_change_set_id && onNewChangeSet (c_spec c) then
    emit (EvNewChangeSet cid (default "" force_change_set_id) (data request));;
    mret (Suspend (AwaitingNewChangeSet request))
  else received request.

(** [if (optimisticRollbackFn) optimisticRollbackFn();] *)
Definition rollBack : M unit :=
  match c_optimisticRollbackFn c with
  | Some optimisticRollbackFn =>
      emit (EvRollback cid []);; lift optimisticRollbackFn
  | None => mret tt
  end.

(** The call of [onFail], if there is one, and the error afterwards: with
    the converted data as the body of its response, if there is some. *)
Definition callOnFail (err : JsError) : M JsError :=
  match onFail (c_spec c) with
  | Some onFail =>
      emit (EvOnFail cid err);;
      convertedData ← lift (onFail err);
      if truthy convertedData then
        mret {| message := message err; isAxiosError := isAxiosError err;
                config_url := config_url err;
                response :=
                  Some {| status := response err ≫= status;
                          headers := from_option headers (mkHeaders None None)
                                       (response err);
                          data := convertedData |} |}
      else mret err
  | None => mret err
  end.

(** The marking of the request as a failure, and the return. *)
Definition storeError (err : JsError) : M Stretch :=
  update_request (c_this c) "error"
    (set_error match response err with
               | Some r => ErrorResponse r
               | None => ErrorMessage (message err)
               end);;
  resolve (c_completed c) (TRError err);;
  status_code ← match response err with
                | Some r => mret (status r)
                | None => throw (TypeError "status")
                end;
  emit (EvSpanEnd cid status_code);;
  return_await (c_completed c).

(** The [catch (err)] block. *)
Definition catchBlock (err : JsError) : M Stretch :=
  t ← newDate;
  update_request (c_this c) "receivedAt" (set_receivedAt t);;
  emit (EvStatus (c_this c) cid (Received false));;
  rollBack;;
  err ← callOnFail err;
  storeError err.

(** A stretch of the [try] block with its [catch]. *)
Definition in_try (body : M Stretch) : M Stretch := try_catch body catchBlock.

End Call.

(** The async function goes on with [body]: it suspends again, returns or
    throws, and in the last two cases the [fireActionResult] that awaits it
    goes on. *)
Definition run_async (cid : nat) (body : M Stretch) (w : World) : World :=
  let '(o, w) := body w in
  match calls w !! cid with
  | Some c =>
      match o with
      | Returns (Suspend ph) => set_calls (<[cid := set_phase ph c]> (calls w)) w
      | Returns (Return v) =>
          resumeFire (c_fire c) (Returns (Some v))
            (set_calls (<[cid := set_phase (Settled (Returns v)) c]> (calls w)) w)
      | Throws e =>
          resumeFire (c_fire c) (Throws e)
            (set_calls (<[cid := set_phase (Settled (Throws e)) c]> (calls w)) w)
      end
  | None => w
  end.

(** What [triggerApiRequest] has done when it first gives the control back:
    it has returned the promise of the pending request, or it is suspended
    as the call [c]. *)
Inductive Triggered : Type :=
| Deduplicated (promise : option nat)
| Started (c : nat).

Definition is_pending_equal (req : option RawApiRequestStatus)
    (requestSpec : ApiRequestDescription) : bool :=
  match req with
  | Some r =>
      negb (bool_decide (is_Some (receivedAt r)))
      && isEqual (payload r) (params requestSpec)
  | None => false
  end.

(** [triggerApiRequest(requestSpec, callbackArg, extraTracingArgs)] up to its
    first await, called by the [fireActionResult] [fid] on the [ApiRequest]
    at [rid] whose [requestSpec] it is. *)
Definition triggerApiRequest (this rid fid : nat) (requestSpec : ApiRequestDescription) : M Triggered :=
  req ← this_request this;
  if is_pending_equal req requestSpec then
    mret (Deduplicated (req ≫= completed))
  else
    cid ← gets (fun w => length (calls w));
    let requestUlid := ulid cid in
    let requestParams := <["requestUlid" := JStr requestUlid]> (default ∅ (params requestSpec)) in
    let requestSpec := set_params (Some requestParams) requestSpec in
    modify (fun w => set_apiRequests (alter (set_requestSpec requestSpec) rid (apiRequests w)) w);;
    completed ← createDeferredPromise;
    t ← newDate;
    assign_request this
      {| requestedAt := t; receivedAt := None; completedAt := None;
         lastSuccessAt := req ≫= lastSuccessAt;
         payload := Some requestParams; error := None;
         completed := Some completed |};;
    emit (EvStatus this cid Requested);;
    let c := {| c_this := this; c_spec := requestSpec; c_completed := completed;
                c_optimisticRollbackFn := None; c_url := ""; c_fire := fid;
                c_phase := Delaying |} in
    modify (fun w => set_calls (calls w ++ [c])%list w);;
    optimisticRollbackFn ←
      match optimistic requestSpec with
      | Some optimistic => emit (EvOptimistic cid);; lift optimistic
      | None => mret None
      end;
    let c := set_optimisticRollbackFn optimisticRollbackFn c in
    modify (fun w => set_calls (<[cid := c]> (calls w)) w);;
    '(_url, urlName) ←
      match url requestSpec with
      | Some (UrlPattern pattern) => lift (describePattern pattern)
      | Some (UrlString u) => mret (u, u)
      | None => throw (Error "URL is required")
      end;
    emit (EvSpanStart cid (toUpperCase (method requestSpec) +:+ " " +:+ urlName));;
    let c := set_url _url c in
    modify (fun w => set_calls (<[cid := c]> (calls w)) w);;
    delayed ← gets VITE_DELAY_API_REQUESTS;
    (if delayed || delay_truthy (_delay requestSpec) then mret tt
     else modify (run_async cid (in_try cid c (issue cid c))));;
    mret (Started cid).

(** [fireActionResult(request, callbackArg, extraTracingArgs)] on the
    debouncer [this], for the [ApiRequest] at [rid], up to its await. *)
Definition fireActionResult (this rid : nat) (w : World) : World :=
  match apiRequests w !! rid with
  | Some request =>
      let fid := length (fires w) in
      let cid := length (calls w) in
      let w := set_fires (fires w ++ [mkFire rid None FirePending])%list w in
      match triggerApiRequest this rid fid (requestSpec request) w with
      | (Returns (Deduplicated None), w) => resumeFire fid (Returns None) w
      | (Returns (Deduplicated (Some p)), w) =>
          let w := set_fires (alter (set_f_awaits (AwaitSignal p)) fid (fires w)) w in
          match promises w !! p with
          | Some (Some v) => resumeFire fid (Returns (Some v)) w
          | _ => w
          end
      | (Returns (Started c), w) =>
          set_fires (alter (set_f_awaits (AwaitCall c)) fid (fires w)) w
      | (Throws e, w) =>
          resumeFire fid (Throws e)
            (set_calls (alter (set_phase (Settled (Throws e))) cid (calls w)) w)
      end
  | None => w
  end.

(** [store.apiRequestDebouncers[key] ??= new ApiRequestDebouncer(config.api)],
    with the address of the debouncer that is there afterwards. *)
Definition ensureDebouncer (key : string) (w : World) : World * nat :=
  match apiRequestDebouncers w !! key with
  | Some this => (w, this)
  | None =>
      let this := length (debouncers w) in
      (set_apiRequestDebouncers (<[key := this]> (apiRequestDebouncers w))
         (set_debouncers (debouncers w ++ [mkApiRequestDebouncer None])%list w),
       this)
  end.

(** [wrappedActionFn], from the point where the action [actionName] has
    returned the [ApiRequest] at [rid]. *)
Definition wrappedActionFn (actionName : string) (rid : nat) (w : World) : World :=
  match apiRequests w !! rid with
  | Some actionResult =>
      let trackingKey :=
        getTrackingKey actionName (keyRequestStatusBy (requestSpec actionResult)) in
      let '(w, this) := ensureDebouncer trackingKey w in
      fireActionResult this rid w
  | None => w
  end.

(** The value of the computed that [getRequestStatus(requestKey,
    ...keyedByArgs)] returns: the debouncer of the key, made if it is not
    there. *)
Definition getRequestStatus (requestKey : string)
    (keyedByArgs : list RawRequestStatusKeyArg) (w : World) : World * nat :=
  ensureDebouncer (getKey requestKey keyedByArgs) w.

(** [clearRequestStatus(requestKey, ...keyedByArgs)] *)
Definition clearRequestStatus (requestKey : string)
    (keyedByArgs : list RawRequestStatusKeyArg) (w : World) : World :=
  set_apiRequestDebouncers
    (base.delete (getKey requestKey keyedByArgs) (apiRequestDebouncers w)) w.

(** *** The status getters of a debouncer *)

Definition isRequested (d : ApiRequestDebouncer) : bool :=
  bool_decide (is_Some (request d)).

Definition isFirstLoad (d : ApiRequestDebouncer) : bool :=
  match request d with
  | Some r => negb (bool_decide (is_Some (receivedAt r)))
              && negb (bool_decide (is_Some (lastSuccessAt r)))
  | None => false
  end.

Definition isPending (d : ApiRequestDebouncer) : bool :=
  match request d with
  | Some r => negb (bool_decide (is_Some (receivedAt r)))
  | None => false
  end.

Definition isError (d : ApiRequestDebouncer) : bool :=
  bool_decide (is_Some (request d ≫= error)).

Definition isSuccess (d : ApiRequestDebouncer) : bool :=
  match request d with
  | Some r => bool_decide (is_Some (receivedAt r))
              && negb (bool_decide (is_Some (error r)))
  | None => false
  end.

(** The debouncer that a status read of the key sees after [w]. *)
Definition statusOf (requestKey : string)
    (keyedByArgs : list RawRequestStatusKeyArg) (w : World) : ApiRequestDebouncer :=
  let '(w, this) := getRequestStatus requestKey keyedByArgs w in
  default (mkApiRequestDebouncer None) (debouncers w !! this).

(** ** Runs

    What happens to the store, one event of the event loop at a time. *)
Inductive Action : Type :=
| NewApiRequest (spec : ApiRequestDescription)      (* an action builds its ApiRequest *)
| Dispatch (actionName : string) (rid : nat)        (* ... and returns it to wrappedActionFn *)
| DelayElapsed (c : nat)
| ApiSettles (c : nat) (r : Thrown AxiosResponse)
| HookSettles (c : nat) (r : Thrown unit)
| ReadStatus (requestKey : string) (keyedByArgs : list RawRequestStatusKeyArg)
| ClearStatus (requestKey : string) (keyedByArgs : list RawRequestStatusKeyArg).

Definition step (a : Action) (w : World) : World :=
  match a with
  | NewApiRequest spec =>
      set_apiRequests (apiRequests w ++ [newApiRequest spec])%list w
  | Dispatch actionName rid => wrappedActionFn actionName rid w
  | DelayElapsed cid =>
      match calls w !! cid with
      | Some c =>
          match c_phase c with
          | Delaying => run_async cid (in_try cid c (issue cid c)) w
          | _ => w
          end
      | None => w
      end
  | ApiSettles cid r =>
      match calls w !! cid with
      | Some c =>
          match c_phase c with
          | Calling =>
              run_async cid
                (emit (EvApiSettled cid r);;
                 in_try cid c (request ← lift r; responded cid c request)) w
          | _ => w
          end
      | None => w
      end
  | HookSettles cid r =>
      match calls w !! cid with
      | Some c =>
          match c_phase c with
          | AwaitingNewChangeSet request =>
              run_async cid
                (emit (EvHookSettled cid r);;
                 in_try cid c (lift r;; received cid c request)) w
          | AwaitingOnSuccess request =>
              run_async cid
                (emit (EvHookSettled cid r);;
                 in_try cid c (lift r;; succeed cid c request)) w
          | _ => w
          end
      | None => w
      end
  | ReadStatus requestKey keyedByArgs =>
      fst (getRequestStatus requestKey keyedByArgs w)
  | ClearStatus requestKey keyedByArgs =>
      clearRequestStatus requestKey keyedByArgs w
  end.

Definition run (actions : list Action) (w : World) : World :=
  foldl (fun w a => step a w) w actions.

(** ** The conflict registry *)

Module ConflictRegistry.

(** [ConflictsForRetry = Record<RequestUlid, [string, ApiRequest]>]; the
    [ApiRequest] is kept by its address. *)
Abbreviation ConflictsForRetry := (gmap string (string * nat)).







Section Registry.

(** Modelled from the spec: the statuses that "the caller's descriptor
    marks as conflict-worthy"; the descriptor type of the sources has no
    field for them. *)
Variable conflictWorthy : ApiRequestDescription -> list Z.





End Registry.

End ConflictRegistry.

(** ** The response interceptors of [sdfApiInstance] (apis.ts) *)

Module Apis.

Inductive ToastComponent : Type :=
| FiveHundredError (requestUrl : option string) (message : option JValue)
| MaintenanceMode
| UnscheduledDowntime.

(** The options of a toast; [timeout: false] is [None]. *)
Record ToastOptions := mkToastOptions {
  timeout : option Z;
  hideProgressBar : option bool;
}.

Inductive Effect : Type :=
| Toast (component : ToastComponent) (options : ToastOptions)
| TrackEvent (name : string)
| SetTimeout (ms : Z) (href : string)   (* setTimeout(() => window.location.href = href, ms) *)
| SetActiveChangeset (changeSetId : string).

(** An interceptor does something and hands on a response or an error. *)
Abbreviation Handled := (list Effect * Thrown AxiosResponse)%type.

Definition handleForcedChangesetRedirection (response : AxiosResponse) : Handled :=
  (let force_change_set_id := force_change_set_id (headers response) in
   if header_truthy force_change_set_id
   then [SetActiveChangeset (default "" force_change_set_id)] else [],
   Returns response).

Definition handleProxyTimeouts (response : AxiosResponse) : Handled :=
  (if bool_decide (status response = Some 404%Z)
      && negb (bool_decide (content_type (headers response) = Some "application/json"))
   then [TrackEvent "api_404_timeout"; SetTimeout 500 "/oops"]
   else [], Returns response).

Definition handle500 (error : JsError) : Handled :=
  (if bool_decide (response error ≫= status = Some 500%Z)
   then [Toast (FiveHundredError (config_url error) (data <$> response error))
               {| timeout := None; hideProgressBar := None |}]
   else [], Throws error).

Definition handleOutageModes (error : JsError) : Handled :=
  (if bool_decide (response error ≫= status = Some 503%Z)
   then [Toast MaintenanceMode
               {| timeout := Some 15000%Z; hideProgressBar := Some false |}]
   else if bool_decide (response error ≫= status = Some 502%Z)
           || bool_decide (response error ≫= status = Some 504%Z)
   then [Toast UnscheduledDowntime
               {| timeout := Some 15000%Z; hideProgressBar := Some false |}]
   else [], Throws error).

(** [interceptors.response.use(fulfilled, rejected)]: one more
    [promise.then(fulfilled, rejected)] on the chain. *)
Definition use (fulfilled : AxiosResponse -> Handled) (rejected : JsError -> Handled)
    (chain : Handled) : Handled :=
  let '(done, o) := chain in
  let '(more, o) := match o with
                    | Returns response => fulfilled response
                    | Throws error => rejected error
                    end in
  ((done ++ more)%list, o).

(** The two registrations on [sdfApiInstance], on what axios has settled
    the request with. *)
Definition sdfApiInstance_response (settled : Thrown AxiosResponse) : Handled :=
  use handleForcedChangesetRedirection handleOutageModes
    (use handleProxyTimeouts handle500 ([], settled)).

(** How axios settles a request that got a response.  [sdfApiInstance] is
    created with headers and a base url only, so "axios throws an error if
    http status >= 400" (triggerApiRequest), and more exactly if the status
    is not 2xx: the response goes to the rejected side of the chain, inside
    an [AxiosError]. *)
Definition validateStatus (st : Z) : bool := (200 <=? st)%Z && (st <? 300)%Z.

Definition settle (requestUrl : string) (response : AxiosResponse) : Thrown AxiosResponse :=
  match status response with
  | Some st =>
      if validateStatus st then Returns response
      else Throws {| message := "Request failed with status code " +:+ pretty st;
                     isAxiosError := true;
                     config_url := Some requestUrl;
                     response := Some response |}
  | None => Returns response
  end.

End Apis.

(** ** Scenarios

    The descriptors, responses and errors that the statements below are
    evaluated on. *)

Module Scenario.

(** [new ApiRequest({ url: "/login", params: { u: "a" } })], with every hook
    given: an optimistic update that returns a rollback, [onNewChangeSet]
    and [onSuccess]. *)
Definition LOGIN : ApiRequestDescription :=
  {| method := None; url := Some (UrlString "/login");
     params := Some {[ "u" := JStr "a" ]}; formData := None;
     keyRequestStatusBy := None; onSuccess := true; onNewChangeSet := true;
     onFail := None; options := None; optimistic := Some (Returns (Some (Returns tt)));
     _delay := None |}.

(** The same request without hooks. *)
Definition PLAIN : ApiRequestDescription :=
  {| method := None; url := Some (UrlString "/login");
     params := Some {[ "u" := JStr "a" ]}; formData := None;
     keyRequestStatusBy := None; onSuccess := false; onNewChangeSet := false;
     onFail := None; options := None; optimistic := None; _delay := None |}.

(** A descriptor whose params are those that the first call of the store
    has put in its request status: its own, with the first [requestUlid]. *)
Definition AGAIN (spec : ApiRequestDescription) : ApiRequestDescription :=
  set_params (Some (<["requestUlid" := JStr (ulid 0)]> (default ∅ (params spec)))) spec.

Definition ok200 : AxiosResponse :=
  {| status := Some 200%Z;
     headers := mkHeaders None (Some "application/json");
     data := JStr "welcome" |}.

(** A response that forces the change set cs-123. *)
Definition forced200 : AxiosResponse :=
  {| status := Some 200%Z;
     headers := mkHeaders (Some "cs-123") (Some "application/json");
     data := JStr "welcome" |}.

(** A transport error: axios got no response. *)
Definition networkError : JsError :=
  {| message := "Network Error"; isAxiosError := true;
     config_url := Some "/login"; response := None |}.

(** The [AxiosError] of a response with the status [st]. *)
Definition httpError (st : Z) : JsError :=
  {| message := "Request failed with status code " +:+ pretty st;
     isAxiosError := true; config_url := Some "/login";
     response := Some {| status := Some st;
                         headers := mkHeaders None (Some "application/json");
                         data := JStr "sorry" |} |}.

(** The [AxiosError] of a response with the status 409 that forces the
    change set cs-123. *)
Definition forced409 : JsError :=
  {| message := "Request failed with status code 409";
     isAxiosError := true; config_url := Some "/login";
     response := Some {| status := Some 409%Z;
                         headers := mkHeaders (Some "cs-123") (Some "application/json");
                         data := JStr "sorry" |} |}.

(** What a hook throws. *)
Definition hookError : JsError := Error "thrown by a hook".

(** The 404 page of a proxy. *)
Definition proxy404 : AxiosResponse :=
  {| status := Some 404%Z;
     headers := mkHeaders None (Some "text/html");
     data := JStr "<html>404 Not Found</html>" |}.

End Scenario.

(** * What the properties speak of *)

Local Close Scope Z_scope.
Local Open Scope list_scope.
Import Scenario.

(** ** The store, seen from a call and from its callers *)

(** The part of the store that a call of [triggerApiRequest] works on. *)
Definition core (w : World) :=
  (debouncers w, apiRequestDebouncers w, calls w, clock w, trace w,
   VITE_DELAY_API_REQUESTS w).

(** The part of the store that the callers of [fireActionResult] live in. *)
Definition callers (w : World) := (apiRequests w, promises w, fires w).

(** The request status of the debouncer at [this]. *)
Definition requestOf (this : nat) (w : World) : option RawApiRequestStatus :=
  debouncers w !! this ≫= request.

Definition requestIn (D : list ApiRequestDebouncer) (this : nat) : option RawApiRequestStatus :=
  D !! this ≫= request.

(** How [return await completed.promise] ends on the promise [p]. *)
Definition resolved (p : nat) (w : World) : Stretch :=
  match promises w !! p with
  | Some (Some v) => Return v
  | _ => Suspend AwaitingCompleted
  end.

(** The phase of a call after a stretch that ended with [o]. *)
Definition phase_after (o : Thrown Stretch) : Phase :=
  match o with
  | Returns (Suspend ph) => ph
  | Returns (Return v) => Settled (Returns v)
  | Throws e => Settled (Throws e)
  end.

(** The call an action is about. *)
Definition action_call (a : Action) : option nat :=
  match a with
  | DelayElapsed c | ApiSettles c _ | HookSettles c _ => Some c
  | _ => None
  end.

(** ** The start of a call *)

(** The descriptor of a call that is started: its params have the
    [requestUlid]. *)
Definition stamped (cid : nat) (spec : ApiRequestDescription) : ApiRequestDescription :=
  set_params (Some (<["requestUlid" := JStr (ulid cid)]> (default ∅ (params spec)))) spec.

(** The request status that a call puts on its debouncer when it starts, in
    the place of [prior]. *)
Definition pending (t : nat) (prior : option RawApiRequestStatus)
    (spec : ApiRequestDescription) (completed : nat) : RawApiRequestStatus :=
  {| requestedAt := t; receivedAt := None; completedAt := None;
     lastSuccessAt := prior ≫= lastSuccessAt; payload := params spec;
     error := None; completed := Some completed |}.

(** The rollback that [requestSpec.optimistic(requestUlid)] returns. *)
Definition rollback_of (spec : ApiRequestDescription) : option Rollback :=
  match optimistic spec with Some (Returns rb) => rb | _ => None end.

(** The events with which a call starts. *)
Definition starting (cid : nat) (e : Event) : bool :=
  match e with
  | EvOptimistic c' | EvSpanStart c' _ | EvApi c' _ => Nat.eqb c' cid
  | _ => false
  end.

(** The call [c'] that the [fireActionResult] [fid] has started on the
    debouncer [this], with the promise [p]. *)
Definition started_call (this fid cid p : nat) (spec : ApiRequestDescription) (c' : Call) : Prop :=
  c_this c' = this /\ c_fire c' = fid /\ c_spec c' = stamped cid spec
  /\ c_completed c' = p
  /\ c_optimisticRollbackFn c' = rollback_of spec
  /\ (c_phase c' = Delaying \/ c_phase c' = Calling
      \/ exists e, c_phase c' = Settled (Throws e)).

(** ** One step of a call *)

(** The response makes the call await [onNewChangeSet]. *)
Definition needs_switch (c : Call) (request : AxiosResponse) : bool :=
  header_truthy (force_change_set_id (headers request)) && onNewChangeSet (c_spec c).

(** The call of [onNewChangeSet] for the response. *)
Definition switch_event (cid : nat) (request : AxiosResponse) : Event :=
  EvNewChangeSet cid (default "" (force_change_set_id (headers request))) (data request).

(** The call of the rollback in the [catch] block, if the call has one. *)
Definition rollback_events (cid : nat) (c : Call) : list Event :=
  match c_optimisticRollbackFn c with
  | Some _ => [EvRollback cid []]
  | None => []
  end.

(** The events with which a [catch] block ends. *)
Definition quiet (cid : nat) (e : Event) : bool :=
  match e with
  | EvOnFail c' _ | EvSpanEnd c' _ => Nat.eqb c' cid
  | _ => false
  end.

(** What the [catch] block stores as the error of the request status. *)
Definition errorOf (err : JsError) : StoredError :=
  match response err with
  | Some r => ErrorResponse r
  | None => ErrorMessage (message err)
  end.

Section Protocol.

Variables (cid : nat) (c : Call).
(** The clock and the request status of the debouncer when the step starts. *)
Variables (t : nat) (r0 : RawApiRequestStatus).

(** The request status, marked as received with success. *)
Definition marked : RawApiRequestStatus := set_receivedAt (S t) (set_lastSuccessAt t r0).

(** The events from the marking of a success on. *)
Definition received_events (request : AxiosResponse) : list Event :=
  EvStatus (c_this c) cid (Received true)
  :: (if onSuccess (c_spec c) then [EvOnSuccess cid (data request)]
      else [EvSpanEnd cid (status request)]).

(** The events of a [catch] block that ends with [evs]. *)
Definition catch_events (evs : list Event) : list Event :=
  EvStatus (c_this c) cid (Received false) :: rollback_events cid c ++ evs.

(** The async function is over, or for ever at [await completed.promise]. *)
Definition over (ph : Phase) : Prop :=
  ph = AwaitingCompleted \/ exists o, ph = Settled o.

Definition returned (ph : Phase) : Prop :=
  ph = AwaitingCompleted \/ exists v, ph = Settled (Returns v).

(** The phase after the marking of a success. *)
Definition after_received (request : AxiosResponse) (ph : Phase) : Prop :=
  if onSuccess (c_spec c) then ph = AwaitingOnSuccess request else returned ph.

(** What a [catch] block leaves: its last events [evs], the request status
    [r1] and the phase [ph]. *)
Definition caught (evs : list Event) (r1 : RawApiRequestStatus) (ph : Phase) : Prop :=
  forallb (quiet cid) evs = true
  /\ lastSuccessAt r1 = lastSuccessAt r0 /\ receivedAt r1 = Some t
  /\ over ph.

(** What an event of the event loop makes of the call [cid], suspended in a
    phase: the events it adds, the request status of the debouncer
    afterwards, and the next phase. *)
Inductive CallStep : Action -> Phase -> list Event -> RawApiRequestStatus -> Phase -> Prop :=
| CS_delay :
    CallStep (DelayElapsed cid) Delaying [EvApi cid (axiosConfig c)] r0 Calling
| CS_switch resp :
    needs_switch c resp = true ->
    CallStep (ApiSettles cid (Returns resp)) Calling
      [EvApiSettled cid (Returns resp);
       EvNewChangeSet cid (default "" (force_change_set_id (headers resp))) (data resp)]
      r0 (AwaitingNewChangeSet resp)
| CS_respond resp ph :
    needs_switch c resp = false -> after_received resp ph ->
    CallStep (ApiSettles cid (Returns resp)) Calling
      (EvApiSettled cid (Returns resp) :: received_events resp) marked ph
| CS_reject err evs r1 ph :
    caught evs r1 ph ->
    CallStep (ApiSettles cid (Throws err)) Calling
      (EvApiSettled cid (Throws err) :: catch_events evs) r1 ph
| CS_switched resp ph :
    after_received resp ph ->
    CallStep (HookSettles cid (Returns tt)) (AwaitingNewChangeSet resp)
      (EvHookSettled cid (Returns tt) :: received_events resp) marked ph
| CS_switch_threw resp err evs r1 ph :
    caught evs r1 ph ->
    CallStep (HookSettles cid (Throws err)) (AwaitingNewChangeSet resp)
      (EvHookSettled cid (Throws err) :: catch_events evs) r1 ph
| CS_succeeded resp ph :
    returned ph ->
    CallStep (HookSettles cid (Returns tt)) (AwaitingOnSuccess resp)
      [EvHookSettled cid (Returns tt); EvSpanEnd cid (status resp)] r0 ph
| CS_success_threw resp err evs r1 ph :
    caught evs r1 ph ->
    CallStep (HookSettles cid (Throws err)) (AwaitingOnSuccess resp)
      (EvHookSettled cid (Throws err) :: catch_events evs) r1 ph.

End Protocol.

(** ** Stores that a run can reach *)

(** The call and the debouncer that an event is about. *)
Definition event_call (e : Event) : nat :=
  match e with
  | EvStatus _ c _ | EvOptimistic c | EvSpanStart c _ | EvApi c _ | EvApiSettled c _
  | EvNewChangeSet c _ _ | EvOnSuccess c _ | EvHookSettled c _ | EvRollback c _
  | EvOnFail c _ | EvSpanEnd c _ => c
  end.

Definition event_this (e : Event) : option nat :=
  match e with
  | EvStatus this _ _ => Some this
  | _ => None
  end.

(** An event of the call [cid] on the debouncer [this]. *)
Definition event_of (cid this : nat) (e : Event) : Prop :=
  event_call e = cid /\ forall this', event_this e = Some this' -> this' = this.

(** The debouncers of the keys exist, the debouncer of a call has a request
    status, and the trace speaks of calls and debouncers that exist. *)
Record WFc (D : list ApiRequestDebouncer) (T : gmap string nat)
    (Cs : list Call) (Tr : list Event) : Prop := {
  wf_table : forall key this, T !! key = Some this -> this < length D;
  wf_calls : forall cid c, Cs !! cid = Some c -> is_Some (requestIn D (c_this c));
  wf_trace : Forall (fun e => event_call e < length Cs) Tr;
  wf_status : Forall (fun e => forall this, event_this e = Some this -> this < length D) Tr;
}.

Definition WF (w : World) : Prop :=
  WFc (debouncers w) (apiRequestDebouncers w) (calls w) (trace w).

(** A property of the debouncers, the table, the calls and the trace, on a
    store. *)
Definition onCore (P : list ApiRequestDebouncer -> gmap string nat -> list Call -> list Event -> Prop)
    (w : World) : Prop :=
  P (debouncers w) (apiRequestDebouncers w) (calls w) (trace w).

(** ** Rollbacks *)

Definition is_rollback (cid : nat) (e : Event) : bool :=
  match e with EvRollback c' _ => Nat.eqb c' cid | _ => false end.

(** How often the rollback of the call [cid] has been called. *)
Definition rollbacks (cid : nat) (tr : list Event) : nat :=
  length (List.filter (is_rollback cid) tr).

(** The promise of [api] or of an awaited hook of the call was rejected. *)
Definition thrown (cid : nat) (e : Event) : bool :=
  match e with
  | EvApiSettled c' (Throws _) | EvHookSettled c' (Throws _) => Nat.eqb c' cid
  | _ => false
  end.

Definition threw (cid : nat) (tr : list Event) : bool := existsb (thrown cid) tr.

Definition is_settle (cid : nat) (e : Event) : bool :=
  match e with EvApiSettled c' _ => Nat.eqb c' cid | _ => false end.

(** How often the promise of [api] of the call [cid] has settled. *)
Definition settles (cid : nat) (tr : list Event) : nat :=
  length (List.filter (is_settle cid) tr).

(** A rollback is called with no arguments. *)
Definition no_arguments (e : Event) : Prop :=
  match e with EvRollback _ args => args = [] | _ => True end.

(** The call waits for the event loop. *)
Definition suspended (ph : Phase) : bool :=
  match ph with
  | Delaying | Calling | AwaitingNewChangeSet _ | AwaitingOnSuccess _ => true
  | _ => false
  end.

Definition before_response (ph : Phase) : bool :=
  match ph with Delaying | Calling => true | _ => false end.

(** The rollback of a call has been called once if one of its promises was
    rejected and not at all otherwise; none was while the call is suspended. *)
Definition rollback_inv (Cs : list Call) (Tr : list Event) : Prop :=
  Forall no_arguments Tr
  /\ forall cid c, Cs !! cid = Some c ->
       rollbacks cid Tr = (if threw cid Tr then length (rollback_events cid c) else 0)
       /\ (suspended (c_phase c) = true -> threw cid Tr = false)
       /\ settles cid Tr <= 1
       /\ (before_response (c_phase c) = true -> settles cid Tr = 0).

(** ** Successes *)





(** ** The order of the hooks *)

(** [e1] and then [e2] are in the trace before the position [i]. *)
Definition in_order (tr : list Event) (e1 e2 : Event) (i : nat) : Prop :=
  exists j k, j < k /\ k < i /\ tr !! j = Some e1 /\ tr !! k = Some e2.

(** What the trace has of the hooks of the call [cid]: [onNewChangeSet] is
    called for a response that asks for it, and it has returned before
    [onSuccess] is called. *)
Record hook_inv (cid : nat) (c : Call) (Tr : list Event) : Prop := {
  hi_invoked : forall request,
    In (EvApiSettled cid (Returns request)) Tr -> needs_switch c request = true ->
    In (switch_event cid request) Tr;
  hi_ordered : forall i body request,
    Tr !! i = Some (EvOnSuccess cid body) ->
    In (EvApiSettled cid (Returns request)) Tr -> needs_switch c request = true ->
    in_order Tr (switch_event cid request) (EvHookSettled cid (Returns tt)) i;
  hi_before : before_response (c_phase c) = true ->
    (forall r, ~ In (EvApiSettled cid r) Tr) /\ (forall body, ~ In (EvOnSuccess cid body) Tr);
  hi_switching : forall request, c_phase c = AwaitingNewChangeSet request ->
    (forall body, ~ In (EvOnSuccess cid body) Tr)
    /\ (forall request', In (EvApiSettled cid (Returns request')) Tr -> request' = request)
    /\ In (switch_event cid request) Tr;
}.

(** An event that is neither a response nor a call of [onSuccess]. *)
Definition hookless (e : Event) : Prop :=
  match e with
  | EvApiSettled _ (Returns _) | EvOnSuccess _ _ => False
  | _ => True
  end.

(** The calls of the api, and those of the hooks of a descriptor. *)
Definition is_api (e : Event) : bool :=
  match e with EvApi _ _ => true | _ => false end.

Definition is_hook (e : Event) : bool :=
  match e with
  | EvOptimistic _ | EvNewChangeSet _ _ _ | EvOnSuccess _ _ | EvOnFail _ _
  | EvRollback _ _ => true
  | _ => false
  end.

(** ** Dispatches of a key *)

(** The action dispatches a request whose tracking key is [key]. *)
Definition dispatches (key : string) (a : Action) (w : World) : bool :=
  match a with
  | Dispatch actionName rid =>
      match apiRequests w !! rid with
      | Some actionResult =>
          String.eqb (getTrackingKey actionName (keyRequestStatusBy (requestSpec actionResult)))
                     key
      | None => false
      end
  | _ => false
  end.

(** No action of the run from [w] dispatches a request whose tracking key
    is [key]. *)
Fixpoint never_dispatched (key : string) (acts : list Action) (w : World) : bool :=
  match acts with
  | [] => true
  | a :: rest => negb (dispatches key a w) && never_dispatched key rest (step a w)
  end.

(** ** Statements, the table of the store and the callers *)

(** A statement that does not look at [store.apiRequestDebouncers]. *)
Definition table_blind {A} (m : M A) : Prop :=
  forall T w, m (set_apiRequestDebouncers T w)
              = ((m w).1, set_apiRequestDebouncers T (m w).2).

(** The statement [m] keeps the property [I] of the requests and of the
    calls of [fireActionResult]. *)
Definition keeps (I : list ApiRequest -> list Fire -> Prop) {A} (m : M A) : Prop :=
  forall w, I (apiRequests w) (fires w) -> I (apiRequests (m w).2) (fires (m w).2).

(** Some [fireActionResult] for the request at [rid] has returned. *)
Definition returned_for (rid : nat) (F : list Fire) : Prop :=
  exists fid f, F !! fid = Some f /\ f_request f = rid /\ f_state f = FireReturned.

(** A request has an outcome when a [fireActionResult] for it has returned,
    and only then; a failed one has its error. *)
Record awaited_inv (A : list ApiRequest) (F : list Fire) : Prop := {
  ai_request : forall fid f, F !! fid = Some f -> f_request f < length A;
  ai_outcome : forall rid req, A !! rid = Some req ->
    (is_Some (rawSuccess req) <-> returned_for rid F);
  ai_error : forall rid req, A !! rid = Some req ->
    rawSuccess req = Some false -> is_Some (rawResponseError req)
}.

(** * What the further properties speak of *)

(** Every request status of the store has the property [Q]. *)
Definition all_requests (Q : RawApiRequestStatus -> Prop) (w : World) : Prop :=
  forall this r, requestOf this w = Some r -> Q r.

(** The statement [m] keeps the property [Q] of the request statuses. *)
Definition keeps_requests (Q : RawApiRequestStatus -> Prop) {A} (m : M A) : Prop :=
  forall w, all_requests Q w -> all_requests Q (m w).2.

(** What every request status has from the start of its call on: its
    payload with the [requestUlid], and its promise. *)
Definition stamped_request (r : RawApiRequestStatus) : Prop :=
  (exists requestUlid, payload r ≫= (.!! "requestUlid") = Some (JStr requestUlid))
  /\ is_Some (completed r).


(** ** The status helpers (pinia_api_tools.ts) *)

(** [ApiRequestStatus]: the flags that a status carries. *)
Module Status.
Record t := mk {
  isRequested : bool;
  isPending : bool;
  isFirstLoad : bool;
  isError : bool;
  isSuccess : bool;
}.
End Status.

(** A debouncer read as an [ApiRequestStatus], through its getters. *)
Definition asStatus (d : ApiRequestDebouncer) : Status.t :=
  {| Status.isRequested := isRequested d; Status.isPending := isPending d;
     Status.isFirstLoad := isFirstLoad d; Status.isError := isError d;
     Status.isSuccess := isSuccess d |}.

(** [UseAsyncStateReturn], as far as the helpers read it: [isLoading.value],
    [error.value] and [isReady.value]. *)
Record UseAsyncStateReturn := mkUseAsyncStateReturn {
  isLoading_value : bool;
  error_value : JValue;
  isReady_value : bool;
}.

Record AnyStatus := mkAnyStatus {
  requestStatus : option Status.t;
  asyncState : option UseAsyncStateReturn;
}.

Inductive LoadStatus : Type :=
| uninitialized
| loading
| load_error          (* "error" *)
| load_success.       (* "success" *)

(** [getLoadStatus({ requestStatus, asyncState })] *)
Definition getLoadStatus (s : AnyStatus) : LoadStatus :=
  if from_option Status.isPending false (requestStatus s)
     || from_option isLoading_value false (asyncState s) then loading
  else if from_option Status.isError false (requestStatus s)
          || from_option (fun a => truthy (error_value a)) false (asyncState s)
  then load_error
  else if from_option Status.isSuccess false (requestStatus s)
          || from_option isReady_value false (asyncState s)
  then load_success
  else uninitialized.

(** An error is stored on requests that were received only. *)
Definition error_inv (D : list ApiRequestDebouncer) : Prop :=
  forall this r, requestIn D this = Some r -> is_Some (error r) -> is_Some (receivedAt r).


(** [apiData(request)], where [request] is the promise that the wrapped
    action of the [fireActionResult] [fid] has returned: it is pending
    while that [fireActionResult] is, rejected with what it throws, and else
    fulfilled with the [ApiRequest], whose [result] is read.  What
    [apiData] throws may be [undefined]: [result.err] is
    [rawResponseError]. *)
Definition apiData (fid : nat) (w : World) : option (Outcome (option JsError) JValue) :=
  f ← fires w !! fid;
  match f_state f with
  | FirePending => None
  | FireThrew e => Some (Throws (Some e))
  | FireReturned =>
      request ← apiRequests w !! f_request f;
      Some match result request with
           | Throws e => Throws (Some e)
           | Returns (Success data) => Returns data
           | Returns (Failure err _) => Throws err
           end
  end.

(** What an element of a [URLPattern] gives to the url and to its name, if
    it is not a bad one. *)
Definition segment_parts (p : UrlSegment) : option (string * string) :=
  match p with
  | SegStr s => Some (s, s)
  | SegObj ((key, Some v) :: _) => if String.eqb v "" then None else Some (v, ":" +:+ key)
  | SegObj _ => None
  end.

(** An object without a first value, or with an empty one. *)
Definition bad_segment (p : UrlSegment) : bool :=
  match segment_parts p with Some _ => false | None => true end.

(** An element whose conversion to a string does not throw, and what it
    gives. *)
Definition printable (p : UrlSegment) : bool :=
  match p with
  | SegStr _ => true
  | SegObj entries => negb (bool_decide ("toString" ∈ entries.*1))
  end.

Definition plain_text (p : UrlSegment) : string :=
  match p with
  | SegStr s => s
  | SegObj _ => "[object Object]"
  end.


(** [{ url: "/thing", keyRequestStatusBy: ["google", 7] }] *)
Definition THING : ApiRequestDescription :=
  {| method := None; url := Some (UrlString "/thing");
     params := None; formData := None;
     keyRequestStatusBy := Some (KeyArray [KStr "google"; KNum 7]);
     onSuccess := false; onNewChangeSet := false;
     onFail := None; options := None; optimistic := None; _delay := None |}.


(** LOGIN without its url. *)
Definition NO_URL : ApiRequestDescription :=
  {| method := None; url := None;
     params := Some {[ "u" := JStr "a" ]}; formData := None;
     keyRequestStatusBy := None; onSuccess := true; onNewChangeSet := true;
     onFail := None; options := None; optimistic := Some (Returns (Some (Returns tt)));
     _delay := None |}.


(** ** The calls of [onSuccess] *)

Definition is_onSuccess (cid : nat) (e : Event) : bool :=
  match e with EvOnSuccess c' _ => Nat.eqb c' cid | _ => false end.

(** How often [onSuccess] has been called for the call [cid]. *)
Definition onSuccessCalls (cid : nat) (tr : list Event) : nat :=
  length (List.filter (is_onSuccess cid) tr).

Definition is_rejection (cid : nat) (e : Event) : bool :=
  match e with EvApiSettled c' (Throws _) => Nat.eqb c' cid | _ => false end.

(** The promise of [api] of the call [cid] was rejected. *)
Definition api_rejected (cid : nat) (tr : list Event) : bool :=
  existsb (is_rejection cid) tr.

(** The call has not marked its request as received. *)
Definition awaits_response (ph : Phase) : bool :=
  match ph with
  | Delaying | Calling | AwaitingNewChangeSet _ => true
  | _ => false
  end.

(** [onSuccess] is called at most once for a call: not while the call
    awaits its response, not without the hook, and not when the promise of
    [api] was rejected, after which the call is over. *)
Definition onSuccess_inv (Cs : list Call) (Tr : list Event) : Prop :=
  forall cid c, Cs !! cid = Some c ->
    onSuccessCalls cid Tr <= 1
    /\ (awaits_response (c_phase c) = true -> onSuccessCalls cid Tr = 0)
    /\ (onSuccess (c_spec c) = false -> onSuccessCalls cid Tr = 0)
    /\ (api_rejected cid Tr = true ->
        onSuccessCalls cid Tr = 0 /\ suspended (c_phase c) = false).


(** ** The bearer token of a request (apis.ts, auth.store.ts) *)

Module AuthStore.

(** What the getters of the auth store read: the [tokens] of its state, an
    object from workspace pk to token that is given by its own entries in
    the order of [_.values], and [selectedWorkspacePk] of the workspaces
    store. *)
Record State := mkState {
  tokens : list (string * string);
  selectedWorkspacePk : option string;
}.

(** [!!s] of a string. *)
Definition nonempty (s : string) : bool := negb (String.eqb s "").

(** What a lookup in [state.tokens] gives, as far as the getters and
    [injectBearerTokenAuth] look at it: whether it is truthy, and its
    conversion to a string. *)
Record TokenValue := mkTokenValue {
  token_truthy : bool;
  token_text : string;
}.

(** A token that is stored. *)
Definition stored (token : string) : TokenValue :=
  {| token_truthy := nonempty token; token_text := token |}.

(** [userIsLoggedIn: (state) => !_.isEmpty(state.tokens)] *)
Definition userIsLoggedIn (state : State) : bool :=
  match tokens state with [] => false | _ :: _ => true end.

Section Tokens.

(** What the object [state.tokens] answers for a name that is none of its
    own keys: the members that it inherits from [Object.prototype], such as
    [toString] and [constructor], and what the reactive proxy of the state
    answers by itself; nothing for any other name. *)
Variable prototype : string -> option TokenValue.

(** [state.tokens[pk]] *)
Definition token_of (pk : string) (state : State) : option TokenValue :=
  match List.find (fun entry => String.eqb (fst entry) pk) (tokens state) with
  | Some entry => Some (stored (snd entry))
  | None => prototype pk
  end.

(** [selectedWorkspaceToken] *)
Definition selectedWorkspaceToken (state : State) : option TokenValue :=
  match selectedWorkspacePk state with
  | Some pk => if nonempty pk then token_of pk state else None
  | None => None
  end.

(** [selectedOrDefaultAuthToken]:
    [this.selectedWorkspaceToken || _.values(this.tokens)[0]] *)
Definition selectedOrDefaultAuthToken (state : State) : option TokenValue :=
  let first := stored <$> (snd <$> head (tokens state)) in
  match selectedWorkspaceToken state with
  | Some token => if token_truthy token then Some token else first
  | None => first
  end.

(** [injectBearerTokenAuth(config)], on the headers of the config. *)
Definition injectBearerTokenAuth (state : State) (headers : option (gmap string string))
    : gmap string string :=
  let headers := default ∅ headers in
  match selectedOrDefaultAuthToken state with
  | Some token =>
      if token_truthy token
      then <["authorization" := "Bearer " +:+ token_text token]> headers
      else headers
  | None => headers
  end.

(** The selected workspace, if there is one, is a key of the tokens, or a
    name for which [state.tokens] answers nothing. *)
Definition selects_no_member (state : State) : Prop :=
  forall pk, selectedWorkspacePk state = Some pk ->
    pk ∈ (tokens state).*1 \/ prototype pk = None.

End Tokens.

End AuthStore.

(** ** The debouncers of the keys *)

(** No two keys of the store have the same debouncer. *)
Definition table_inv (T : gmap string nat) : Prop :=
  forall key key' this, T !! key = Some this -> T !! key' = Some this -> key = key'.


(** ** Failures that are returned *)

(** The error after [onFail] has converted it: [err.response = {
    ...err.response, data: convertedData }]. *)
Definition converted (err : JsError) (convertedData : JValue) : JsError :=
  {| message := message err; isAxiosError := isAxiosError err;
     config_url := config_url err;
     response :=
       Some {| status := response err ≫= status;
               headers := from_option headers (mkHeaders None None) (response err);
               data := convertedData |} |}.

(** The error that the [catch] block goes on with after [onFail]: the error
    it caught when there is no [onFail] or [onFail] returns nothing truthy,
    the converted error otherwise; none when [onFail] throws. *)
Definition afterOnFail (spec : ApiRequestDescription) (err : JsError) : option JsError :=
  match onFail spec with
  | Some onFail =>
      match onFail err with
      | Returns convertedData =>
          Some (if truthy convertedData then converted err convertedData else err)
      | Throws _ => None
      end
  | None => Some err
  end.

(** The [result] of a request that has failed with [err]. *)
Definition failure_of (err : JsError) : Result :=
  Failure (Some err)
    (if isAxiosError err
     then Some (from_option data JUndefined (response err), response err ≫= status)
     else None).


(** PLAIN with an [onFail] that converts every error to the body
    "offline". *)
Definition CONVERTING : ApiRequestDescription :=
  {| method := None; url := Some (UrlString "/login");
     params := Some {[ "u" := JStr "a" ]}; formData := None;
     keyRequestStatusBy := None; onSuccess := false; onNewChangeSet := false;
     onFail := Some (fun _ => Returns (JStr "offline")); options := None; optimistic := None;
     _delay := None |}.

(** ** The calls of the api *)







(** * Properties *)

(** ** Tracking keys *)

Lemma compact_truthy (l : list RawRequestStatusKeyArg) :
  Forall (fun a => key_truthy a = true) l -> compact l = l.
Proof.
  induction 1 as [|a l Ha _ IH]; [reflexivity|].
  unfold compact in *. rewrite filter_cons, IH.
  destruct (decide (key_truthy a = true)); [reflexivity|contradiction].
Qed.

(** A single discriminator gives the same key on both sides, absent or not. *)
Lemma getTrackingKey_single (actionName : string) (a : RawRequestStatusKeyArg) :
  getTrackingKey actionName (Some (KeySingle a)) = getKey actionName [a].
Proof.
  unfold getTrackingKey, getKey, compact. rewrite filter_cons, filter_nil.
  destruct (key_truthy a) eqn:E; destruct (decide _); try congruence; reflexivity.
Qed.

Lemma getTrackingKey_none (actionName : string) :
  getTrackingKey actionName None = getKey actionName [].
Proof. reflexivity. Qed.

(** An array of discriminators gives the same key on both sides when none of
    them is absent, empty or zero. *)
Lemma getTrackingKey_array_truthy (actionName : string) (l : list RawRequestStatusKeyArg) :
  Forall (fun a => key_truthy a = true) l ->
  getTrackingKey actionName (Some (KeyArray l)) = getKey actionName l.
Proof.
  intros H. unfold getTrackingKey, getKey. rewrite (compact_truthy l H). reflexivity.
Qed.

(** C3.  The key of the dispatch side and the key of the read side differ on
    an array of discriminators with an absent one: [getTrackingKey] joins
    the array as it is, so [undefined] leaves an empty field in the key, and
    [getKey] compacts it first.  They differ on the discriminator 0 as well,
    which [_.compact] drops and [join] prints. *)
Theorem C3_keys_differ_on_absent_discriminator :
  getTrackingKey "GET_THING" (Some (KeyArray [KUndefined; KStr "x"])) = "GET_THING%%x"
  /\ getKey "GET_THING" [KUndefined; KStr "x"] = "GET_THING%x"
  /\ getTrackingKey "GET_THING" (Some (KeyArray [KNum 0])) = "GET_THING%0"
  /\ getKey "GET_THING" [KNum 0] = "GET_THING".
Proof. repeat split; vm_compute; reflexivity. Qed.

(** ** The response interceptors *)

Section Interceptors.

Import Apis.

(** What [handleProxyTimeouts] does with a response it is given. *)
Lemma handleProxyTimeouts_404 (response : AxiosResponse) :
  status response = Some 404%Z ->
  content_type (headers response) <> Some "application/json" ->
  handleProxyTimeouts response
  = ([TrackEvent "api_404_timeout"; SetTimeout 500 "/oops"], Returns response).
Proof.
  intros Hs Hc. unfold handleProxyTimeouts.
  rewrite bool_decide_eq_true_2 by exact Hs.
  rewrite bool_decide_eq_false_2 by exact Hc. reflexivity.
Qed.

Lemma settle_rejects (requestUrl : string) (r : AxiosResponse) (st : Z) :
  status r = Some st -> (400 <= st)%Z ->
  exists error, settle requestUrl r = Throws error
    /\ response error = Some r /\ config_url error = Some requestUrl.
Proof.
  intros Hs Hst. unfold settle. rewrite Hs.
  replace (validateStatus st) with false
    by (unfold validateStatus; symmetry; apply andb_false_iff; right; apply Z.ltb_ge; lia).
  eexists; split; [reflexivity|]. split; reflexivity.
Qed.

(** The error statuses of the claim do take the paths it names, through
    axios and both registrations. *)
Lemma error_statuses_classified (requestUrl : string) (response : AxiosResponse) :
  (status response = Some 500%Z ->
   fst (sdfApiInstance_response (settle requestUrl response))
   = [Toast (FiveHundredError (Some requestUrl) (Some (data response)))
            {| timeout := None; hideProgressBar := None |}])
  /\ (status response = Some 503%Z ->
      fst (sdfApiInstance_response (settle requestUrl response))
      = [Toast MaintenanceMode {| timeout := Some 15000%Z; hideProgressBar := Some false |}])
  /\ (status response = Some 502%Z \/ status response = Some 504%Z ->
      fst (sdfApiInstance_response (settle requestUrl response))
      = [Toast UnscheduledDowntime {| timeout := Some 15000%Z; hideProgressBar := Some false |}]).
Proof.
  repeat split; intros H; [| |destruct H as [H|H]];
    unfold settle; rewrite H; cbn; rewrite H; reflexivity.
Qed.

(** A response that axios rejects never reaches [handleProxyTimeouts]. *)
Lemma rejected_404_not_tracked (error : JsError) :
  response error ≫= status = Some 404%Z ->
  sdfApiInstance_response (Throws error) = ([], Throws error).
Proof.
  intros H. unfold sdfApiInstance_response, use, handle500, handleOutageModes.
  rewrite H. reflexivity.
Qed.

(** C9.  The 404 page of a proxy, of content type text/html, is answered to
    a request of [sdfApiInstance]: axios rejects it, the chain is entered on
    its rejected side, where [handle500] and [handleOutageModes] have nothing
    to do for a 404, and [handleProxyTimeouts], which is the fulfilled side
    of the first registration, is passed by: no api_404_timeout event, no
    redirect.  It would classify the same response if it were given it. *)
Theorem C9_proxy_404_is_not_classified :
  fst (sdfApiInstance_response (settle "/api/components" proxy404)) = []
  /\ fst (handleProxyTimeouts proxy404)
     = [TrackEvent "api_404_timeout"; SetTimeout 500 "/oops"].
Proof. split; vm_compute; reflexivity. Qed.

End Interceptors.

(** ** What the statements leave alone *)

Lemma core_inv w' d t cs cl tr v :
  core w' = (d, t, cs, cl, tr, v) ->
  debouncers w' = d /\ apiRequestDebouncers w' = t /\ calls w' = cs
  /\ clock w' = cl /\ trace w' = tr /\ VITE_DELAY_API_REQUESTS w' = v.
Proof. unfold core. intros H. injection H. tauto. Qed.

Lemma resumeFire_core fid o w : core (resumeFire fid o w) = core w.
Proof.
  unfold resumeFire. destruct (fires w !! fid) as [f|]; [|reflexivity].
  destruct (f_state f); try reflexivity.
  destruct o as [[[d|e]|]|e]; reflexivity.
Qed.

Lemma resumeFire_promises fid o w : promises (resumeFire fid o w) = promises w.
Proof.
  unfold resumeFire. destruct (fires w !! fid) as [f|]; [|reflexivity].
  destruct (f_state f); try reflexivity.
  destruct o as [[[d|e]|]|e]; reflexivity.
Qed.

Lemma resumeAll_core p v fids w : core (resumeAll p v fids w) = core w.
Proof.
  revert w. induction fids as [|fid fids IH]; intros w; [reflexivity|].
  cbn. unfold resumeAll in IH. rewrite IH.
  destruct (fires w !! fid) as [f|]; [|reflexivity].
  destruct (awaits_signal p f); [apply resumeFire_core|reflexivity].
Qed.

Lemma resumeAll_promises p v fids w : promises (resumeAll p v fids w) = promises w.
Proof.
  revert w. induction fids as [|fid fids IH]; intros w; [reflexivity|].
  cbn. unfold resumeAll in IH. rewrite IH.
  destruct (fires w !! fid) as [f|]; [|reflexivity].
  destruct (awaits_signal p f); [apply resumeFire_promises|reflexivity].
Qed.

Lemma resolve_spec p v w :
  exists w', resolve p v w = (Returns tt, w') /\ core w' = core w
    /\ promises w' = match promises w !! p with
                     | Some None => <[p := Some v]> (promises w)
                     | _ => promises w
                     end.
Proof.
  unfold resolve. destruct (promises w !! p) as [[?|]|]; eexists; (split; [reflexivity|]);
    rewrite ?resumeAll_core, ?resumeAll_promises; split; reflexivity.
Qed.

Ltac munfold :=
  unfold update_request, this_request, assign_request, createDeferredPromise, newDate,
    emit, modify, gets, lift, throw, try_catch, return_await, mbind, M_bind, mret, M_ret in *.

Ltac resolve_step :=
  match goal with
  | |- context [resolve ?p ?v ?w0] =>
      let w1 := fresh "w" in let Hc := fresh "Hcore" in let Hp := fresh "Hprom" in
      destruct (resolve_spec p v w0) as (w1 & -> & Hc & Hp);
      unfold core at 2 in Hc; apply core_inv in Hc; cbn in Hc, Hp;
      destruct Hc as (? & ? & ? & ? & ? & ?)
  end.

(** *** The stretches of a call *)

Lemma issue_spec cid c w :
  issue cid c w
  = (Returns (Suspend Calling), set_trace (trace w ++ [EvApi cid (axiosConfig c)]) w).
Proof. reflexivity. Qed.

Lemma succeed_spec cid c request w :
  exists w', succeed cid c request w = (Returns (resolved (c_completed c) w'), w')
    /\ core w' = (debouncers w, apiRequestDebouncers w, calls w, clock w,
                  trace w ++ [EvSpanEnd cid (status request)],
                  VITE_DELAY_API_REQUESTS w)
    /\ promises w' = match promises w !! c_completed c with
                     | Some None => <[c_completed c := Some (TRData (data request))]> (promises w)
                     | _ => promises w
                     end.
Proof.
  unfold succeed. munfold. resolve_step. cbn.
  exists (set_trace (trace w0 ++ [EvSpanEnd cid (status request)]) w0). split.
  - unfold resolved. cbn. destruct (promises w0 !! c_completed c) as [[?|]|]; reflexivity.
  - split; [|assumption]. unfold core; cbn. congruence.
Qed.

Lemma received_spec cid c request w r :
  requestOf (c_this c) w = Some r ->
  exists w' st, received cid c request w = (Returns st, w')
    /\ core w' =
       (<[c_this c := mkApiRequestDebouncer
            (Some (set_receivedAt (S (clock w)) (set_lastSuccessAt (clock w) r)))]>
          (debouncers w),
        apiRequestDebouncers w, calls w, S (S (clock w)),
        trace w ++ EvStatus (c_this c) cid (Received true)
          :: (if onSuccess (c_spec c) then [EvOnSuccess cid (data request)]
              else [EvSpanEnd cid (status request)]),
        VITE_DELAY_API_REQUESTS w)
    /\ st = (if onSuccess (c_spec c) then Suspend (AwaitingOnSuccess request)
            else resolved (c_completed c) w').
Proof.
  unfold requestOf. intros Hr.
  destruct (debouncers w !! c_this c) as [[d]|] eqn:Hd; cbn in Hr; [|discriminate]. subst d.
  assert (Hlt : c_this c < length (debouncers w)) by (eapply lookup_lt_Some; eauto).
  unfold received. munfold. cbn. rewrite Hd. cbn.
  rewrite list_lookup_insert_eq by assumption. cbn.
  rewrite list_insert_insert_eq.
  destruct (onSuccess (c_spec c)).
  - cbn. eexists _, _. split; [reflexivity|]. split; [|reflexivity].
    unfold core; cbn. rewrite <- app_assoc. reflexivity.
  - match goal with |- context [succeed cid c request ?w0] =>
      destruct (succeed_spec cid c request w0) as (w' & -> & Hc & Hp) end.
    cbn in Hc. eexists _, _. split; [reflexivity|]. split; [|reflexivity].
    rewrite Hc. rewrite <- app_assoc. reflexivity.
Qed.

Lemma received_throws cid c request w :
  requestOf (c_this c) w = None ->
  exists e, received cid c request w = (Throws e, set_clock (S (clock w)) w).
Proof.
  unfold requestOf. intros Hr. unfold received. munfold. cbn. rewrite Hr.
  eexists; reflexivity.
Qed.

Lemma responded_spec cid c request w :
  responded cid c request w =
  if needs_switch c request
  then (Returns (Suspend (AwaitingNewChangeSet request)),
        set_trace (trace w ++ [EvNewChangeSet cid
                     (default "" (force_change_set_id (headers request)))
                     (data request)]) w)
  else received cid c request w.
Proof.
  unfold responded, needs_switch.
  destruct (header_truthy _ && onNewChangeSet _); reflexivity.
Qed.

Lemma rollBack_spec cid c w :
  exists w', rollBack cid c w
    = (match c_optimisticRollbackFn c with
       | Some (Throws e) => Throws e
       | _ => Returns tt
       end, w')
    /\ core w' = (debouncers w, apiRequestDebouncers w, calls w, clock w,
                  trace w ++ rollback_events cid c, VITE_DELAY_API_REQUESTS w)
    /\ callers w' = callers w.
Proof.
  unfold rollBack, rollback_events. munfold.
  destruct (c_optimisticRollbackFn c) as [[[]|e]|]; cbn;
    (eexists; split; [reflexivity|]); unfold core, callers; cbn;
    rewrite ?app_nil_r; split; reflexivity.
Qed.

Lemma callOnFail_spec cid c err w :
  exists o w' evs, callOnFail cid c err w = (o, w')
    /\ core w' = (debouncers w, apiRequestDebouncers w, calls w, clock w,
                  trace w ++ evs, VITE_DELAY_API_REQUESTS w)
    /\ callers w' = callers w
    /\ forallb (quiet cid) evs = true
    /\ (onFail (c_spec c) = None -> o = Returns err /\ evs = []).
Proof.
  unfold callOnFail. munfold.
  destruct (onFail (c_spec c)) as [f|]; cbn.
  - destruct (f err) as [v|e]; cbn; [destruct (truthy v)|];
      (eexists _, _, [EvOnFail cid err]; split; [reflexivity|]);
      unfold core, callers; cbn; rewrite Nat.eqb_refl; repeat split; discriminate.
  - eexists _, _, []; split; [reflexivity|].
    unfold core, callers; cbn; rewrite app_nil_r. repeat split.
Qed.

Lemma storeError_spec cid c err w r :
  requestOf (c_this c) w = Some r ->
  exists w', storeError cid c err w
    = (match response err with
       | Some _ => Returns (resolved (c_completed c) w')
       | None => Throws (TypeError "status")
       end, w')
    /\ core w' = (<[c_this c := mkApiRequestDebouncer (Some (set_error (errorOf err) r))]>
                    (debouncers w),
                  apiRequestDebouncers w, calls w, clock w,
                  trace w ++ match response err with
                             | Some r => [EvSpanEnd cid (status r)]
                             | None => []
                             end,
                  VITE_DELAY_API_REQUESTS w)
    /\ promises w' = match promises w !! c_completed c with
                     | Some None => <[c_completed c := Some (TRError err)]> (promises w)
                     | _ => promises w
                     end.
Proof.
  unfold requestOf. intros Hr.
  destruct (debouncers w !! c_this c) as [[d]|] eqn:Hd; cbn in Hr; [|discriminate]. subst d.
  unfold storeError. munfold. cbn. rewrite Hd. cbn.
  resolve_step. cbn in *.
  destruct (response err) as [resp|] eqn:Hresp; cbn.
  - exists (set_trace (trace w0 ++ [EvSpanEnd cid (status resp)]) w0). split.
    + unfold resolved. cbn. destruct (promises w0 !! c_completed c) as [[?|]|]; reflexivity.
    + split; [|assumption]. unfold core, errorOf; cbn. rewrite Hresp. congruence.
  - exists w0. split; [reflexivity|]. split; [|assumption].
    unfold core, errorOf; cbn. rewrite Hresp, app_nil_r. congruence.
Qed.

Lemma requestOf_insert this r w :
  this < length (debouncers w) ->
  requestOf this (set_debouncers (<[this := mkApiRequestDebouncer (Some r)]> (debouncers w)) w)
  = Some r.
Proof. intros H. unfold requestOf. cbn. rewrite list_lookup_insert_eq by assumption. reflexivity. Qed.

Lemma requestOf_core this w w' :
  debouncers w' = debouncers w -> requestOf this w' = requestOf this w.
Proof. unfold requestOf. intros ->. reflexivity. Qed.

Lemma requestOf_lt this w r : requestOf this w = Some r -> this < length (debouncers w).
Proof.
  unfold requestOf. destruct (debouncers w !! this) eqn:E; [|discriminate].
  intros _. eapply lookup_lt_Some; eauto.
Qed.

Lemma catchBlock_spec cid c err w r :
  requestOf (c_this c) w = Some r ->
  exists w' o r' evs,
    catchBlock cid c err w = (o, w')
    /\ core w' =
       (<[c_this c := mkApiRequestDebouncer (Some r')]> (debouncers w),
        apiRequestDebouncers w, calls w, S (clock w),
        trace w ++ EvStatus (c_this c) cid (Received false)
          :: rollback_events cid c ++ evs,
        VITE_DELAY_API_REQUESTS w)
    /\ lastSuccessAt r' = lastSuccessAt r
    /\ receivedAt r' = Some (clock w)
    /\ forallb (quiet cid) evs = true
    /\ (forall ph, o = Returns (Suspend ph) -> ph = AwaitingCompleted).
Proof.
  intros Hr. pose proof (requestOf_lt _ _ _ Hr) as Hlt.
  unfold catchBlock.
  unfold mbind at 1 2 3 4 5. unfold M_bind.
  unfold newDate at 1. cbn [fst snd].
  assert (Hup : update_request (c_this c) "receivedAt" (set_receivedAt (clock w))
                  (set_clock (S (clock w)) w)
          = (Returns tt, set_debouncers
               (<[c_this c := mkApiRequestDebouncer (Some (set_receivedAt (clock w) r))]>
                  (debouncers w)) (set_clock (S (clock w)) w))).
  { unfold requestOf in Hr. munfold. cbn. rewrite Hr. reflexivity. }
  rewrite Hup. clear Hup.
  unfold emit at 1, modify. 
  match goal with |- context [rollBack cid c ?w0] =>
    destruct (rollBack_spec cid c w0) as (w1 & -> & Hc1 & _) end.
  cbn in Hc1. apply core_inv in Hc1.
  destruct Hc1 as (Hd1 & Ht1 & Hcs1 & Hcl1 & Htr1 & Hv1).
  destruct (c_optimisticRollbackFn c) as [[[]|e]|] eqn:Hrb.
  2:{ (* the rollback throws *)
      exists w1, (Throws e), (set_receivedAt (clock w) r), []. split; [reflexivity|].
      unfold core. rewrite Hd1, Ht1, Hcs1, Hcl1, Htr1, Hv1, <- app_assoc, app_nil_r.
      repeat split. discriminate. }
  all: destruct (callOnFail_spec cid c err w1) as (o2 & w2 & evs2 & -> & Hc2 & _ & Hq2 & _);
    apply core_inv in Hc2; cbn in Hc2;
    destruct Hc2 as (Hd2 & Ht2 & Hcs2 & Hcl2 & Htr2 & Hv2);
    (destruct o2 as [err2|e2];
     [ assert (Hr2 : requestOf (c_this c) w2 = Some (set_receivedAt (clock w) r))
         by (unfold requestOf; rewrite Hd2, Hd1, list_lookup_insert_eq by assumption;
             reflexivity);
       destruct (storeError_spec cid c err2 w2 _ Hr2) as (w3 & -> & Hc3 & _);
       exists w3, (match response err2 with
                   | Some _ => Returns (resolved (c_completed c) w3)
                   | None => Throws (TypeError "status")
                   end), (set_error (errorOf err2) (set_receivedAt (clock w) r)),
         (evs2 ++ match response err2 with
                  | Some r => [EvSpanEnd cid (status r)]
                  | None => []
                  end);
       split; [reflexivity|];
       rewrite Hc3, Hd2, Ht2, Hcs2, Hcl2, Htr2, Hv2, Hd1, Ht1, Hcs1, Hcl1, Htr1, Hv1;
       rewrite list_insert_insert_eq, <- !app_assoc;
       split; [reflexivity|]; split; [reflexivity|]; split; [reflexivity|]; split;
       [ rewrite forallb_app, Hq2; destruct (response err2); cbn;
         rewrite ?Nat.eqb_refl; reflexivity
       | intros ph; destruct (response err2); [|discriminate];
         unfold resolved; destruct (promises w3 !! c_completed c) as [[?|]|];
         intros [= <-]; reflexivity ]
     | exists w2, (Throws e2), (set_receivedAt (clock w) r), evs2;
       split; [reflexivity|];
       unfold core; rewrite Hd2, Ht2, Hcs2, Hcl2, Htr2, Hv2, Hd1, Ht1, Hcs1, Hcl1, Htr1, Hv1;
       rewrite <- !app_assoc; repeat split; [assumption|discriminate] ]).
Qed.

(** *** The start of a call *)

Lemma insert_last {A} (l : list A) (x y : A) : <[length l := y]> (l ++ [x]) = l ++ [y].
Proof. rewrite insert_app_r_alt by lia. rewrite Nat.sub_diag. reflexivity. Qed.

Lemma lookup_last {A} (l : list A) (x : A) : (l ++ [x]) !! length l = Some x.
Proof. rewrite lookup_app_r by lia. rewrite Nat.sub_diag. reflexivity. Qed.

Lemma alter_last {A} (f : A -> A) (l : list A) (x : A) :
  alter f (length l) (l ++ [x]) = l ++ [f x].
Proof.
  rewrite alter_app_r_alt by lia. rewrite Nat.sub_diag. reflexivity.
Qed.

Lemma triggerApiRequest_deduplicated this rid fid spec w :
  is_pending_equal (requestOf this w) spec = true ->
  triggerApiRequest this rid fid spec w
  = (Returns (Deduplicated (requestOf this w ≫= completed)), w).
Proof.
  intros H. unfold triggerApiRequest, this_request. unfold mbind at 1.
  unfold M_bind at 1, gets. cbv beta iota. fold (requestOf this w). rewrite H. reflexivity.
Qed.

Lemma triggerApiRequest_started this rid fid spec w :
  is_pending_equal (requestOf this w) spec = false ->
  let cid := length (calls w) in
  exists o w' c' evs,
    triggerApiRequest this rid fid spec w = (o, w')
    /\ core w' =
       (<[this := mkApiRequestDebouncer
            (Some (pending (clock w) (requestOf this w) (stamped cid spec)
                     (length (promises w))))]> (debouncers w),
        apiRequestDebouncers w, calls w ++ [c'], S (clock w),
        trace w ++ EvStatus this cid Requested :: evs,
        VITE_DELAY_API_REQUESTS w)
    /\ callers w' = (alter (set_requestSpec (stamped cid spec)) rid (apiRequests w),
                     promises w ++ [None], fires w)
    /\ forallb (starting cid) evs = true
    /\ c_this c' = this /\ c_fire c' = fid /\ c_spec c' = stamped cid spec
    /\ c_completed c' = length (promises w)
    /\ c_optimisticRollbackFn c' = rollback_of spec
    /\ ((o = Returns (Started cid) /\ (c_phase c' = Delaying \/ c_phase c' = Calling))
        \/ (exists e, o = Throws e /\ c_phase c' = Delaying)).
Proof.
  intros H cid. unfold triggerApiRequest, this_request. unfold mbind at 1.
  unfold M_bind at 1, gets. cbv beta iota. fold (requestOf this w). rewrite H.
  munfold. cbn. subst cid.
  unfold run_async, in_try, issue. munfold. cbn.
  destruct (optimistic spec) as [[rb|e]|] eqn:Hopt; cbn;
    [destruct (url spec) as [[u|pattern]|] eqn:Hurl; cbn;
     [|destruct (describePattern pattern) as [[u n]|e] eqn:Hd; cbn|]
    | |destruct (url spec) as [[u|pattern]|] eqn:Hurl; cbn;
     [|destruct (describePattern pattern) as [[u n]|e] eqn:Hd; cbn|]];
    rewrite ?insert_last, ?lookup_last;
    try (destruct (VITE_DELAY_API_REQUESTS w || delay_truthy (_delay spec)) eqn:Hdelay; cbn);
    rewrite ?insert_last, ?lookup_last; cbn; rewrite ?insert_last;
    (eexists _, _, _, _; split; [reflexivity|]);
    unfold core, callers; cbn; rewrite <- ?app_assoc; cbn;
    (split; [reflexivity|]); (split; [reflexivity|]).
  all: try (split; [cbn; rewrite ?Nat.eqb_refl; reflexivity|]).
  all: unfold rollback_of; rewrite Hopt; cbn; repeat split; eauto.
Qed.

(** *** One step of a call *)

Lemma run_async_core cid c body w o w1 :
  body w = (o, w1) -> calls w1 !! cid = Some c ->
  core (run_async cid body w)
  = (debouncers w1, apiRequestDebouncers w1,
     <[cid := set_phase (phase_after o) c]> (calls w1), clock w1, trace w1,
     VITE_DELAY_API_REQUESTS w1).
Proof.
  intros Hb Hc. unfold run_async. rewrite Hb, Hc.
  destruct o as [[ph|v]|e]; cbn; rewrite ?resumeFire_core; reflexivity.
Qed.

Lemma resolved_returned p w : returned (phase_after (Returns (resolved p w))).
Proof.
  unfold resolved, returned. destruct (promises w !! p) as [[v|]|]; cbn; eauto.
Qed.

Lemma requestOf_debouncer this w r :
  requestOf this w = Some r -> debouncers w !! this = Some (mkApiRequestDebouncer (Some r)).
Proof.
  unfold requestOf. destruct (debouncers w !! this) as [[d]|]; cbn; congruence.
Qed.

Lemma call_step_refines a cid c r0 w :
  action_call a = Some cid ->
  calls w !! cid = Some c -> requestOf (c_this c) w = Some r0 ->
  step a w = w \/
  exists evs r1 ph t',
    CallStep cid c (clock w) r0 a (c_phase c) evs r1 ph
    /\ core (step a w)
       = (<[c_this c := mkApiRequestDebouncer (Some r1)]> (debouncers w),
          apiRequestDebouncers w, <[cid := set_phase ph c]> (calls w),
          t', trace w ++ evs, VITE_DELAY_API_REQUESTS w).
Proof.
  intros Ha Hc Hr.
  pose proof (requestOf_debouncer _ _ _ Hr) as Hd.
  pose proof (list_insert_id _ _ _ Hd) as Hid.
  (* what the catch block does, after the event [ev] of the throw *)
  assert (Hcatch : forall ev err,
    exists o w1 evs r1,
      catchBlock cid c err (set_trace (trace w ++ [ev]) w) = (o, w1)
      /\ caught cid (clock w) r0 evs r1 (phase_after o)
      /\ core w1 = (<[c_this c := mkApiRequestDebouncer (Some r1)]> (debouncers w),
            apiRequestDebouncers w, calls w, S (clock w),
            trace w ++ ev :: catch_events cid c evs, VITE_DELAY_API_REQUESTS w)).
  { intros ev err.
    destruct (catchBlock_spec cid c err (set_trace (trace w ++ [ev]) w) r0 Hr)
      as (w1 & o & r1 & evs & E & Hcore & Hl & Hrc & Hq & Hph).
    exists o, w1, evs, r1. split; [exact E|]. split.
    - repeat split; try assumption.
      destruct o as [[ph|v]|e]; cbn; [left; apply Hph; reflexivity|right; eauto..].
    - rewrite Hcore. cbn. rewrite <- app_assoc. reflexivity. }
  (* what the marking as received does, after the event [ev] *)
  assert (Hrecv : forall ev request,
    exists st w1,
      received cid c request (set_trace (trace w ++ [ev]) w) = (Returns st, w1)
      /\ after_received c request (phase_after (Returns st))
      /\ core w1 = (<[c_this c := mkApiRequestDebouncer (Some (marked (clock w) r0))]>
                      (debouncers w),
            apiRequestDebouncers w, calls w, S (S (clock w)),
            trace w ++ ev :: received_events cid c request, VITE_DELAY_API_REQUESTS w)).
  { intros ev request.
    destruct (received_spec cid c request (set_trace (trace w ++ [ev]) w) r0 Hr)
      as (w1 & st & E & Hcore & Hst).
    exists st, w1. split; [exact E|]. split.
    - unfold after_received. subst st. destruct (onSuccess (c_spec c)); [reflexivity|].
      apply resolved_returned.
    - rewrite Hcore. cbn. rewrite <- app_assoc. reflexivity. }
  destruct a as [| |cid'|cid' r|cid' r| |]; try discriminate; injection Ha as ->;
    cbn [step]; rewrite Hc;
    destruct (c_phase c) as [| |request|request| |settled] eqn:Hph;
    try (left; reflexivity); right.
  - (* the delay is over *)
    exists [EvApi cid (axiosConfig c)], r0, Calling, (clock w). split; [constructor|].
    erewrite run_async_core; [|reflexivity|exact Hc]. cbn. rewrite Hid. reflexivity.
  - (* axios settles *)
    destruct r as [request|err].
    + destruct (needs_switch c request) eqn:Hsw.
      * eexists _, r0, _, (clock w). split; [apply CS_switch; exact Hsw|].
        erewrite run_async_core; [|unfold in_try; munfold; cbn; rewrite responded_spec, Hsw; reflexivity|exact Hc].
        cbn. rewrite Hid, <- app_assoc. reflexivity.
      * destruct (Hrecv (EvApiSettled cid (Returns request)) request) as (st & w1 & E & Haft & Hcore).
        eexists _, _, _, _. split; [apply CS_respond; [exact Hsw|exact Haft]|].
        apply core_inv in Hcore. destruct Hcore as (Hd1 & Ht1 & Hcs1 & Hcl1 & Htr1 & Hv1).
        erewrite run_async_core;
          [|unfold in_try; munfold; cbn; rewrite responded_spec, Hsw, E; reflexivity
           |rewrite Hcs1; exact Hc].
        rewrite Hd1, Ht1, Hcs1, Htr1, Hv1. reflexivity.
    + destruct (Hcatch (EvApiSettled cid (Throws err)) err) as (o & w1 & evs & r1 & E & Hcaught & Hcore).
      eexists _, _, _, _. split; [apply CS_reject; exact Hcaught|].
      apply core_inv in Hcore. destruct Hcore as (Hd1 & Ht1 & Hcs1 & Hcl1 & Htr1 & Hv1).
      erewrite run_async_core;
        [|unfold in_try; munfold; cbn; rewrite E; reflexivity|rewrite Hcs1; exact Hc].
      rewrite Hd1, Ht1, Hcs1, Htr1, Hv1. reflexivity.
  - (* onNewChangeSet settles *)
    destruct r as [[]|err].
    + destruct (Hrecv (EvHookSettled cid (Returns tt)) request) as (st & w1 & E & Haft & Hcore).
      eexists _, _, _, _. split; [apply CS_switched; exact Haft|].
      apply core_inv in Hcore. destruct Hcore as (Hd1 & Ht1 & Hcs1 & Hcl1 & Htr1 & Hv1).
      erewrite run_async_core;
        [|unfold in_try; munfold; cbn; rewrite E; reflexivity|rewrite Hcs1; exact Hc].
      rewrite Hd1, Ht1, Hcs1, Htr1, Hv1. reflexivity.
    + destruct (Hcatch (EvHookSettled cid (Throws err)) err) as (o & w1 & evs & r1 & E & Hcaught & Hcore).
      eexists _, _, _, _. split; [apply CS_switch_threw; exact Hcaught|].
      apply core_inv in Hcore. destruct Hcore as (Hd1 & Ht1 & Hcs1 & Hcl1 & Htr1 & Hv1).
      erewrite run_async_core;
        [|unfold in_try; munfold; cbn; rewrite E; reflexivity|rewrite Hcs1; exact Hc].
      rewrite Hd1, Ht1, Hcs1, Htr1, Hv1. reflexivity.
  - (* onSuccess settles *)
    destruct r as [[]|err].
    + destruct (succeed_spec cid c request (set_trace (trace w ++ [EvHookSettled cid (Returns tt)]) w))
        as (w1 & E & Hcore & _).
      eexists _, r0, _, _. split; [apply CS_succeeded; apply resolved_returned|].
      apply core_inv in Hcore. destruct Hcore as (Hd1 & Ht1 & Hcs1 & Hcl1 & Htr1 & Hv1).
      cbn in *.
      erewrite run_async_core;
        [|unfold in_try; munfold; cbn; rewrite E; reflexivity|rewrite Hcs1; exact Hc].
      rewrite Hd1, Ht1, Hcs1, Htr1, Hv1, Hid, <- app_assoc. reflexivity.
    + destruct (Hcatch (EvHookSettled cid (Throws err)) err) as (o & w1 & evs & r1 & E & Hcaught & Hcore).
      eexists _, _, _, _. split; [apply CS_success_threw; exact Hcaught|].
      apply core_inv in Hcore. destruct Hcore as (Hd1 & Ht1 & Hcs1 & Hcl1 & Htr1 & Hv1).
      erewrite run_async_core;
        [|unfold in_try; munfold; cbn; rewrite E; reflexivity|rewrite Hcs1; exact Hc].
      rewrite Hd1, Ht1, Hcs1, Htr1, Hv1. reflexivity.
Qed.

(** *** The start of a call, seen from [fireActionResult] *)

Lemma fireActionResult_core this rid req w :
  apiRequests w !! rid = Some req ->
  if is_pending_equal (requestOf this w) (requestSpec req)
  then core (fireActionResult this rid w) = core w
  else exists c' evs,
    core (fireActionResult this rid w)
    = (<[this := mkApiRequestDebouncer
           (Some (pending (clock w) (requestOf this w)
                    (stamped (length (calls w)) (requestSpec req))
                    (length (promises w))))]> (debouncers w),
       apiRequestDebouncers w, calls w ++ [c'], S (clock w),
       trace w ++ EvStatus this (length (calls w)) Requested :: evs,
       VITE_DELAY_API_REQUESTS w)
    /\ started_call this (length (fires w)) (length (calls w)) (length (promises w))
         (requestSpec req) c'
    /\ forallb (starting (length (calls w))) evs = true.
Proof.
  intros Hreq. unfold fireActionResult. rewrite Hreq.
  set (w0 := set_fires (fires w ++ [mkFire rid None FirePending]) w).
  change (requestOf this w) with (requestOf this w0).
  change (length (calls w)) with (length (calls w0)).
  destruct (is_pending_equal (requestOf this w0) (requestSpec req)) eqn:Hdup.
  - rewrite (triggerApiRequest_deduplicated _ _ _ _ _ Hdup).
    destruct (requestOf this w0 ≫= completed) as [p|];
      [|rewrite resumeFire_core; reflexivity].
    match goal with |- context [promises ?w1 !! p] => destruct (promises w1 !! p) as [[v|]|] end;
      rewrite ?resumeFire_core; reflexivity.
  - destruct (triggerApiRequest_started this rid (length (fires w)) (requestSpec req) w0 Hdup)
      as (o & w' & c' & evs & -> & Hcore & _ & Hst & Hthis & Hfire & Hspec & Hp & Hrb & Hph).
    apply core_inv in Hcore. destruct Hcore as (Hd1 & Ht1 & Hcs1 & Hcl1 & Htr1 & Hv1).
    destruct Hph as [[-> Hph]|(e & -> & Hph)].
    + exists c', evs. split; [|split; [|exact Hst]].
      * unfold core. cbn. rewrite Hd1, Ht1, Hcs1, Hcl1, Htr1, Hv1. reflexivity.
      * unfold started_call. intuition eauto.
    + exists (set_phase (Settled (Throws e)) c'), evs. split; [|split; [|exact Hst]].
      * rewrite resumeFire_core. unfold core. cbn.
        rewrite Hd1, Ht1, Hcs1, Hcl1, Htr1, Hv1. subst w0. cbn. rewrite alter_last. reflexivity.
      * unfold started_call. cbn. intuition eauto.
Qed.

Lemma ensureDebouncer_spec key w :
  (exists this, apiRequestDebouncers w !! key = Some this
     /\ ensureDebouncer key w = (w, this))
  \/ (apiRequestDebouncers w !! key = None
      /\ ensureDebouncer key w
         = (set_apiRequestDebouncers
              (<[key := length (debouncers w)]> (apiRequestDebouncers w))
              (set_debouncers (debouncers w ++ [mkApiRequestDebouncer None]) w),
            length (debouncers w))).
Proof.
  unfold ensureDebouncer. destruct (apiRequestDebouncers w !! key) as [this|];
    [left; eauto|right; eauto].
Qed.

(** *** Worlds that a run can reach *)

Lemma requestOf_requestIn this w : requestOf this w = requestIn (debouncers w) this.
Proof. reflexivity. Qed.

Lemma requestIn_insert_eq D this r :
  this < length D -> requestIn (<[this := mkApiRequestDebouncer (Some r)]> D) this = Some r.
Proof. intros H. unfold requestIn. rewrite list_lookup_insert_eq by assumption. reflexivity. Qed.

Lemma requestIn_insert_ne D this this' d :
  this <> this' -> requestIn (<[this := d]> D) this' = requestIn D this'.
Proof. intros H. unfold requestIn. rewrite list_lookup_insert_ne by assumption. reflexivity. Qed.

Lemma requestIn_insert_is_Some D this this' r :
  is_Some (requestIn D this') ->
  is_Some (requestIn (<[this := mkApiRequestDebouncer (Some r)]> D) this').
Proof.
  intros H. destruct (decide (this = this')) as [->|Hne].
  - rewrite requestIn_insert_eq; [eauto|].
    unfold requestIn in H. destruct (D !! this') eqn:E; [|destruct H; discriminate].
    eapply lookup_lt_Some; eauto.
  - rewrite requestIn_insert_ne by assumption. exact H.
Qed.

Lemma requestIn_app D D' this :
  this < length D -> requestIn (D ++ D') this = requestIn D this.
Proof. intros H. unfold requestIn. rewrite lookup_app_l by assumption. reflexivity. Qed.

Lemma requestIn_lt D this : is_Some (requestIn D this) -> this < length D.
Proof.
  unfold requestIn. destruct (D !! this) eqn:E; [|intros [? ?]; discriminate].
  intros _. eapply lookup_lt_Some; eauto.
Qed.

Lemma WF_core w' D T Cs cl Tr v :
  core w' = (D, T, Cs, cl, Tr, v) -> WFc D T Cs Tr -> WF w'.
Proof.
  intros H. apply core_inv in H. destruct H as (? & ? & ? & ? & ? & ?).
  unfold WF. congruence.
Qed.

Lemma WF_init delayed : WF (init delayed).
Proof.
  split; cbn; intros; try constructor.
  - rewrite lookup_empty in H. discriminate.
  - discriminate.
Qed.

Lemma quiet_event cid e : quiet cid e = true -> event_call e = cid /\ event_this e = None.
Proof. destruct e; cbn; try discriminate; intros H%Nat.eqb_eq; auto. Qed.

Lemma starting_event cid e : starting cid e = true -> event_call e = cid /\ event_this e = None.
Proof. destruct e; cbn; try discriminate; intros H%Nat.eqb_eq; auto. Qed.

Lemma Forall_quiet cid this evs :
  forallb (quiet cid) evs = true -> Forall (event_of cid this) evs.
Proof.
  intros H. apply List.Forall_forall. intros e He.
  rewrite forallb_forall in H. destruct (quiet_event cid e (H e He)) as [? Hn].
  split; [assumption|]. rewrite Hn. discriminate.
Qed.

Lemma Forall_starting cid this evs :
  forallb (starting cid) evs = true -> Forall (event_of cid this) evs.
Proof.
  intros H. apply List.Forall_forall. intros e He.
  rewrite forallb_forall in H. destruct (starting_event cid e (H e He)) as [? Hn].
  split; [assumption|]. rewrite Hn. discriminate.
Qed.

Lemma Forall_rollback_events cid c : Forall (event_of cid (c_this c)) (rollback_events cid c).
Proof.
  unfold rollback_events. destruct (c_optimisticRollbackFn c); repeat constructor.
  discriminate.
Qed.

Lemma Forall_received_events cid c request :
  Forall (event_of cid (c_this c)) (received_events cid c request).
Proof.
  unfold received_events. destruct (onSuccess (c_spec c));
    repeat constructor; cbn; congruence.
Qed.

Lemma Forall_catch_events cid c evs :
  forallb (quiet cid) evs = true -> Forall (event_of cid (c_this c)) (catch_events cid c evs).
Proof.
  intros H. unfold catch_events. constructor; [split; cbn; congruence|].
  apply Forall_app. split; [apply Forall_rollback_events|apply Forall_quiet; exact H].
Qed.

Lemma CallStep_events cid c t r0 a ph evs r1 ph' :
  CallStep cid c t r0 a ph evs r1 ph' -> Forall (event_of cid (c_this c)) evs.
Proof.
  assert (Hev : forall e evs', event_this e = None -> event_call e = cid ->
            Forall (event_of cid (c_this c)) evs' ->
            Forall (event_of cid (c_this c)) (e :: evs')).
  { intros e evs' Hn Hc H. constructor; [|exact H]. split; [exact Hc|].
    rewrite Hn. discriminate. }
  intros H. destruct H;
    repeat match goal with
           | H : caught _ _ _ _ _ _ |- _ => destruct H as (H & _)
           end;
    repeat (apply Hev; [reflexivity|reflexivity|]).
  all: first [ apply List.Forall_nil | apply Forall_received_events
             | apply Forall_catch_events; assumption ].
Qed.

Lemma WFc_ensure D T Cs Tr key :
  WFc D T Cs Tr ->
  WFc (D ++ [mkApiRequestDebouncer None]) (<[key := length D]> T) Cs Tr.
Proof.
  intros [Ht Hc Htr Hst]. split.
  - intros k this. rewrite length_app. cbn. rewrite lookup_insert.
    destruct (decide (key = k)); [intros [= <-]; lia|]. intros H%Ht. lia.
  - intros cid c H. specialize (Hc cid c H).
    rewrite requestIn_app; [exact Hc|]. apply requestIn_lt; exact Hc.
  - exact Htr.
  - eapply Forall_impl; [exact Hst|]. cbn. intros e H this Hth.
    rewrite length_app. specialize (H this Hth). lia.
Qed.

Lemma WFc_clear D T Cs Tr key : WFc D T Cs Tr -> WFc D (base.delete key T) Cs Tr.
Proof.
  intros [Ht Hc Htr Hst]. split; try assumption.
  intros k this. rewrite lookup_delete. destruct (decide (key = k)); [discriminate|]. apply Ht.
Qed.

Lemma WFc_events (D : list ApiRequestDebouncer) (Cs : list Call) (Tr : list Event) cid this evs :
  cid < length Cs -> this < length D ->
  Forall (fun e => event_call e < length Cs) Tr ->
  Forall (fun e => forall this, event_this e = Some this -> this < length D) Tr ->
  Forall (event_of cid this) evs ->
  Forall (fun e => event_call e < length Cs) (Tr ++ evs)
  /\ Forall (fun e => forall this, event_this e = Some this -> this < length D) (Tr ++ evs).
Proof.
  intros Hcid Hthis Htr Hst Hev. split; apply Forall_app; split; try assumption.
  - eapply Forall_impl; [exact Hev|]. cbn. intros e [-> _]. exact Hcid.
  - eapply Forall_impl; [exact Hev|]. cbn. intros e [_ H] this' Hth.
    rewrite (H _ Hth). exact Hthis.
Qed.

Lemma WFc_start D T Cs Tr this c' r evs :
  WFc D T Cs Tr -> this < length D -> c_this c' = this ->
  Forall (event_of (length Cs) this) evs ->
  WFc (<[this := mkApiRequestDebouncer (Some r)]> D) T (Cs ++ [c'])
      (Tr ++ EvStatus this (length Cs) Requested :: evs).
Proof.
  intros [Ht Hc Htr Hst] Hthis Hc' Hev.
  assert (Hev' : Forall (event_of (length Cs) this) (EvStatus this (length Cs) Requested :: evs)).
  { constructor; [split; cbn; congruence|exact Hev]. }
  destruct (WFc_events (<[this := mkApiRequestDebouncer (Some r)]> D) (Cs ++ [c']) Tr
              (length Cs) this (EvStatus this (length Cs) Requested :: evs)) as [H1 H2].
  - rewrite length_app. cbn. lia.
  - rewrite length_insert. exact Hthis.
  - eapply Forall_impl; [exact Htr|]. cbn. intros e H. rewrite length_app. lia.
  - rewrite length_insert. exact Hst.
  - exact Hev'.
  - split; try assumption.
    + intros k th H. rewrite length_insert. eapply Ht; eauto.
    + intros cid c H. apply lookup_app_Some in H. destruct H as [H|[_ H]].
      * apply requestIn_insert_is_Some. eapply Hc; eauto.
      * destruct (cid - length Cs); [|discriminate]. injection H as <-.
        rewrite Hc', requestIn_insert_eq by assumption. eauto.
Qed.

Lemma WFc_call_step D T Cs Tr cid c r1 ph evs :
  WFc D T Cs Tr -> Cs !! cid = Some c ->
  Forall (event_of cid (c_this c)) evs ->
  WFc (<[c_this c := mkApiRequestDebouncer (Some r1)]> D) T
      (<[cid := set_phase ph c]> Cs) (Tr ++ evs).
Proof.
  intros [Ht Hc Htr Hst] Hcid Hev.
  assert (Hlt : cid < length Cs) by (eapply lookup_lt_Some; eauto).
  assert (Hthis : c_this c < length D) by (apply requestIn_lt; eapply Hc; eauto).
  destruct (WFc_events (<[c_this c := mkApiRequestDebouncer (Some r1)]> D)
              (<[cid := set_phase ph c]> Cs) Tr cid (c_this c) evs) as [H1 H2];
    rewrite ?length_insert; try assumption.
  split; try assumption.
  - intros k th H. rewrite length_insert. eapply Ht; eauto.
  - intros cid' c' H. apply requestIn_insert_is_Some.
    destruct (decide (cid = cid')) as [<-|Hne].
    + rewrite list_lookup_insert_eq in H by assumption. injection H as <-. cbn. eapply Hc; eauto.
    + rewrite list_lookup_insert_ne in H by assumption. eapply Hc; eauto.
Qed.

Lemma step_no_call a cid w :
  action_call a = Some cid -> calls w !! cid = None -> step a w = w.
Proof.
  intros Ha Hc. destruct a; try discriminate; injection Ha as ->; cbn; rewrite Hc; reflexivity.
Qed.

Lemma WF_ensureDebouncer key w : WF w -> WF (ensureDebouncer key w).1.
Proof.
  intros H. destruct (ensureDebouncer_spec key w) as [(this & _ & ->)|[_ ->]]; [exact H|].
  unfold WF. cbn. apply WFc_ensure. exact H.
Qed.

Lemma ensureDebouncer_lt key w :
  WF w -> (ensureDebouncer key w).2 < length (debouncers (ensureDebouncer key w).1).
Proof.
  intros H. destruct (ensureDebouncer_spec key w) as [(this & Hk & ->)|[_ ->]]; cbn.
  - eapply wf_table; eauto.
  - rewrite length_app. cbn. lia.
Qed.

Lemma WF_fireActionResult this rid w :
  WF w -> this < length (debouncers w) -> WF (fireActionResult this rid w).
Proof.
  intros H Hthis. destruct (apiRequests w !! rid) as [req|] eqn:Hreq.
  - pose proof (fireActionResult_core this rid req w Hreq) as Hf.
    destruct (is_pending_equal _ _).
    + eapply WF_core; [exact Hf|]. exact H.
    + destruct Hf as (c' & evs & Hcore & Hst & Hev).
      eapply WF_core; [exact Hcore|]. apply WFc_start; try assumption.
      * apply Hst.
      * apply Forall_starting. exact Hev.
  - unfold fireActionResult. rewrite Hreq. exact H.
Qed.

Lemma WF_step a w : WF w -> WF (step a w).
Proof.
  intros H.
  destruct (action_call a) as [cid|] eqn:Ha.
  - destruct (calls w !! cid) as [c|] eqn:Hc; [|rewrite (step_no_call a cid); assumption].
    destruct (wf_calls _ _ _ _ H cid c Hc) as [r0 Hr].
    destruct (call_step_refines a cid c r0 w Ha Hc Hr) as [->|(evs & r1 & ph & t' & Hs & Hcore)];
      [exact H|].
    eapply WF_core; [exact Hcore|]. apply WFc_call_step; try assumption.
    eapply CallStep_events; eauto.
  - destruct a; try discriminate; cbn [step].
    + exact H.
    + unfold wrappedActionFn. destruct (apiRequests w !! rid); [|exact H].
      pose proof (WF_ensureDebouncer (getTrackingKey actionName (keyRequestStatusBy (requestSpec a))) w H).
      pose proof (ensureDebouncer_lt (getTrackingKey actionName (keyRequestStatusBy (requestSpec a))) w H).
      destruct (ensureDebouncer _ w) as [w1 this]. apply WF_fireActionResult; assumption.
    + apply WF_ensureDebouncer. exact H.
    + unfold WF. cbn. apply WFc_clear. exact H.
Qed.

Lemma run_snoc acts a w : run (acts ++ [a]) w = step a (run acts w).
Proof. unfold run. rewrite foldl_snoc. reflexivity. Qed.

Lemma WF_run delayed acts : WF (run acts (init delayed)).
Proof.
  induction acts as [|a acts IH] using rev_ind; [apply WF_init|].
  rewrite run_snoc. apply WF_step. exact IH.
Qed.

(** ** Rollbacks *)

Lemma rollbacks_app cid tr evs : rollbacks cid (tr ++ evs) = rollbacks cid tr + rollbacks cid evs.
Proof. unfold rollbacks. rewrite List.filter_app, length_app. reflexivity. Qed.

Lemma settles_app cid tr evs : settles cid (tr ++ evs) = settles cid tr + settles cid evs.
Proof. unfold settles. rewrite List.filter_app, length_app. reflexivity. Qed.

Lemma threw_app cid tr evs : threw cid (tr ++ evs) = threw cid tr || threw cid evs.
Proof. apply existsb_app. Qed.

(** Events of another call count for nothing. *)
Lemma other_call cid cid' tr :
  Forall (fun e => event_call e = cid') tr -> cid' <> cid ->
  rollbacks cid tr = 0 /\ threw cid tr = false /\ settles cid tr = 0.
Proof.
  intros H Hne. induction H as [|e tr He _ IH]; [repeat split|].
  destruct IH as (IH1 & IH2 & IH3).
  assert (Hneq : Nat.eqb cid' cid = false) by (apply Nat.eqb_neq; exact Hne).
  unfold rollbacks, threw, settles in *. cbn.
  destruct e as [| | | |? [|]| | |? [|]| | |]; cbn in *; subst; rewrite ?Hneq; cbn; auto.
Qed.

Lemma unborn_call cid (Cs : list Call) tr :
  Forall (fun e => event_call e < length Cs) tr -> length Cs <= cid ->
  rollbacks cid tr = 0 /\ threw cid tr = false /\ settles cid tr = 0.
Proof.
  intros H Hle. induction H as [|e tr He _ IH]; [repeat split|].
  destruct IH as (IH1 & IH2 & IH3).
  assert (Hneq : Nat.eqb (event_call e) cid = false) by (apply Nat.eqb_neq; lia).
  unfold rollbacks, threw, settles in *. cbn.
  destruct e as [| | | |? [|]| | |? [|]| | |]; cbn in *; rewrite ?Hneq; cbn; auto.
Qed.

Lemma quiet_counts cid evs :
  forallb (quiet cid) evs = true ->
  rollbacks cid evs = 0 /\ threw cid evs = false /\ settles cid evs = 0
  /\ Forall no_arguments evs.
Proof.
  induction evs as [|e evs IH]; [repeat split; constructor|].
  cbn. intros [He H]%andb_prop. destruct (IH H) as (IH1 & IH2 & IH3 & IH4).
  unfold rollbacks, threw, settles in *.
  destruct e; cbn in *; try discriminate; repeat split; auto; constructor; cbn; auto.
Qed.

Lemma starting_counts cid evs :
  forallb (starting cid) evs = true ->
  rollbacks cid evs = 0 /\ threw cid evs = false /\ settles cid evs = 0
  /\ Forall no_arguments evs.
Proof.
  induction evs as [|e evs IH]; [repeat split; constructor|].
  cbn. intros [He H]%andb_prop. destruct (IH H) as (IH1 & IH2 & IH3 & IH4).
  unfold rollbacks, threw, settles in *.
  destruct e; cbn in *; try discriminate; repeat split; auto; constructor; cbn; auto.
Qed.

Lemma rollback_events_counts cid c :
  rollbacks cid (rollback_events cid c) = length (rollback_events cid c)
  /\ threw cid (rollback_events cid c) = false
  /\ settles cid (rollback_events cid c) = 0
  /\ Forall no_arguments (rollback_events cid c).
Proof.
  unfold rollback_events, rollbacks, threw, settles.
  destruct (c_optimisticRollbackFn c); cbn; rewrite ?Nat.eqb_refl; cbn;
    repeat split; repeat constructor.
Qed.

Lemma catch_events_counts cid c evs :
  forallb (quiet cid) evs = true ->
  rollbacks cid (catch_events cid c evs) = length (rollback_events cid c)
  /\ threw cid (catch_events cid c evs) = false
  /\ settles cid (catch_events cid c evs) = 0
  /\ Forall no_arguments (catch_events cid c evs).
Proof.
  intros H. destruct (quiet_counts cid evs H) as (Q1 & Q2 & Q3 & Q4).
  destruct (rollback_events_counts cid c) as (R1 & R2 & R3 & R4).
  unfold catch_events.
  change (EvStatus (c_this c) cid (Received false) :: rollback_events cid c ++ evs)
    with ([EvStatus (c_this c) cid (Received false)] ++ rollback_events cid c ++ evs).
  rewrite !rollbacks_app, !threw_app, !settles_app, Q1, Q2, Q3, R1, R2, R3.
  repeat split; try (cbn; lia).
  constructor; [exact I|]. apply Forall_app. split; assumption.
Qed.

Lemma received_events_counts cid c request :
  rollbacks cid (received_events cid c request) = 0
  /\ threw cid (received_events cid c request) = false
  /\ settles cid (received_events cid c request) = 0
  /\ Forall no_arguments (received_events cid c request).
Proof.
  unfold received_events, rollbacks, threw, settles.
  destruct (onSuccess (c_spec c)); cbn; repeat split; repeat constructor.
Qed.

(** What a step of a call adds to these counts: nothing, or, when a promise
    was rejected, the rollback if there is one, and then the call is over. *)
Lemma CallStep_counts cid c t r0 a ph evs r1 ph' :
  CallStep cid c t r0 a ph evs r1 ph' ->
  suspended ph = true
  /\ Forall no_arguments evs
  /\ ((threw cid evs = false /\ rollbacks cid evs = 0)
      \/ (threw cid evs = true /\ rollbacks cid evs = length (rollback_events cid c)
          /\ suspended ph' = false))
  /\ ((before_response ph = true /\ settles cid evs <= 1 /\ 
       (before_response ph' = true -> settles cid evs = 0))
      \/ (before_response ph = false /\ before_response ph' = false /\ settles cid evs = 0)).
Proof.
  intros H. destruct H;
    repeat match goal with
           | H : caught _ _ _ _ _ _ |- _ => destruct H as (Hq & _ & _ & Hover)
           end.
  all: try (pose proof (catch_events_counts cid c evs Hq) as (K1 & K2 & K3 & K4)).
  all: try (pose proof (received_events_counts cid c resp) as (K1 & K2 & K3 & K4)).
  all: match goal with
       | |- context [?e :: catch_events _ _ _] =>
           change (e :: catch_events cid c evs) with ([e] ++ catch_events cid c evs)
       | |- context [?e :: received_events _ _ _] =>
           change (e :: received_events cid c resp) with ([e] ++ received_events cid c resp)
       | _ => idtac
       end.
  all: rewrite ?rollbacks_app, ?threw_app, ?settles_app, ?K1, ?K2, ?K3.
  all: unfold rollbacks, threw, settles; cbn; rewrite ?Nat.eqb_refl; cbn.
  all: (split; [reflexivity|]).
  all: (split;
        [repeat first [ assumption | apply List.Forall_nil
                      | apply List.Forall_cons; [exact I|] ]|]).
  all: try (assert (Hs : suspended ph = false /\ before_response ph = false)
              by (destruct Hover as [->|[o ->]]; split; reflexivity);
            destruct Hs as [Hs1 Hs2]).
  all: try match goal with
           | H : after_received _ _ ?ph |- _ =>
               assert (Hb : before_response ph = false)
                 by (unfold after_received, returned in H;
                     destruct (onSuccess (c_spec c));
                     [subst; reflexivity|destruct H as [->|[v ->]]; reflexivity])
           | H : returned ?ph |- _ =>
               assert (Hb : before_response ph = false)
                 by (destruct H as [->|[v ->]]; reflexivity)
           end.
  all: (split; [first [left; split; reflexivity | right; repeat split; auto]|]).
  all: first [ solve [left; repeat split; first [lia | intros; congruence | reflexivity]]
             | solve [right; repeat split; auto] ].
Qed.

(** *** An induction principle for the runs

    What a run makes of the debouncers, the keys, the calls and the trace
    comes from four moves: a debouncer is made for a key, a key is cleared,
    a call starts, a call takes a step. *)

Lemma onCore_core P w' D T Cs cl Tr v :
  core w' = (D, T, Cs, cl, Tr, v) -> P D T Cs Tr -> onCore P w'.
Proof.
  intros H. apply core_inv in H. destruct H as (? & ? & ? & ? & ? & ?).
  unfold onCore. congruence.
Qed.

Section RunInduction.

Variable P : list ApiRequestDebouncer -> gmap string nat -> list Call -> list Event -> Prop.

Hypothesis P_init : P [] ∅ [] [].

Hypothesis P_ensure : forall D T Cs Tr key,
  WFc D T Cs Tr -> P D T Cs Tr -> T !! key = None ->
  P (D ++ [mkApiRequestDebouncer None]) (<[key := length D]> T) Cs Tr.

Hypothesis P_clear : forall D T Cs Tr key,
  WFc D T Cs Tr -> P D T Cs Tr -> P D (base.delete key T) Cs Tr.

Hypothesis P_start : forall D T Cs Tr this fid p spec c' evs t,
  WFc D T Cs Tr -> P D T Cs Tr -> this < length D ->
  started_call this fid (length Cs) p spec c' ->
  forallb (starting (length Cs)) evs = true ->
  P (<[this := mkApiRequestDebouncer
         (Some (pending t (requestIn D this) (stamped (length Cs) spec) p))]> D)
    T (Cs ++ [c']) (Tr ++ EvStatus this (length Cs) Requested :: evs).

Hypothesis P_call : forall D T Cs Tr cid c r0 t a evs r1 ph,
  WFc D T Cs Tr -> P D T Cs Tr -> Cs !! cid = Some c ->
  requestIn D (c_this c) = Some r0 ->
  CallStep cid c t r0 a (c_phase c) evs r1 ph ->
  P (<[c_this c := mkApiRequestDebouncer (Some r1)]> D) T
    (<[cid := set_phase ph c]> Cs) (Tr ++ evs).

Lemma onCore_ensureDebouncer key w :
  WF w -> onCore P w -> onCore P (ensureDebouncer key w).1.
Proof.
  intros Hwf H. destruct (ensureDebouncer_spec key w) as [(this & _ & ->)|[Hk ->]]; [exact H|].
  unfold onCore. cbn. apply P_ensure; assumption.
Qed.

Lemma onCore_fireActionResult this rid w :
  WF w -> onCore P w -> this < length (debouncers w) ->
  onCore P (fireActionResult this rid w).
Proof.
  intros Hwf H Hthis. destruct (apiRequests w !! rid) as [req|] eqn:Hreq.
  - pose proof (fireActionResult_core this rid req w Hreq) as Hf.
    destruct (is_pending_equal _ _).
    + eapply onCore_core; [exact Hf|]. exact H.
    + destruct Hf as (c' & evs & Hcore & Hst & Hev).
      eapply onCore_core; [exact Hcore|]. eapply P_start; eassumption.
  - unfold fireActionResult. rewrite Hreq. exact H.
Qed.

Lemma onCore_step a w : WF w -> onCore P w -> onCore P (step a w).
Proof.
  intros Hwf H.
  destruct (action_call a) as [cid|] eqn:Ha.
  - destruct (calls w !! cid) as [c|] eqn:Hc; [|rewrite (step_no_call a cid); assumption].
    destruct (wf_calls _ _ _ _ Hwf cid c Hc) as [r0 Hr].
    destruct (call_step_refines a cid c r0 w Ha Hc Hr) as [->|(evs & r1 & ph & t' & Hs & Hcore)];
      [exact H|].
    eapply onCore_core; [exact Hcore|]. eapply P_call; eassumption.
  - destruct a; try discriminate; cbn [step].
    + exact H.
    + unfold wrappedActionFn. destruct (apiRequests w !! rid); [|exact H].
      pose proof (WF_ensureDebouncer (getTrackingKey actionName (keyRequestStatusBy (requestSpec a))) w Hwf).
      pose proof (onCore_ensureDebouncer (getTrackingKey actionName (keyRequestStatusBy (requestSpec a))) w Hwf H).
      pose proof (ensureDebouncer_lt (getTrackingKey actionName (keyRequestStatusBy (requestSpec a))) w Hwf).
      destruct (ensureDebouncer _ w) as [w1 this]. apply onCore_fireActionResult; assumption.
    + apply onCore_ensureDebouncer; assumption.
    + unfold onCore. cbn. apply P_clear; assumption.
Qed.

Theorem run_ind delayed acts : onCore P (run acts (init delayed)).
Proof.
  induction acts as [|a acts IH] using rev_ind; [exact P_init|].
  rewrite run_snoc. apply onCore_step; [apply WF_run|exact IH].
Qed.

End RunInduction.

Lemma rollback_inv_run delayed acts :
  rollback_inv (calls (run acts (init delayed))) (trace (run acts (init delayed))).
Proof.
  apply (run_ind (fun _ _ Cs Tr => rollback_inv Cs Tr)).
  - split; [constructor|]. intros cid c H. rewrite lookup_nil in H. discriminate.
  - intros; assumption.
  - intros; assumption.
  - (* a call starts *)
    intros D T Cs Tr this fid p spec c' evs t Hwf [Hna Hinv] Hthis Hst Hev.
    destruct (starting_counts _ _ Hev) as (S1 & S2 & S3 & S4).
    split.
    + apply Forall_app. split; [exact Hna|]. constructor; [exact I|exact S4].
    + intros cid c Hc.
      change (EvStatus this (length Cs) Requested :: evs)
        with ([EvStatus this (length Cs) Requested] ++ evs).
      rewrite !rollbacks_app, !threw_app, !settles_app.
      apply lookup_app_Some in Hc. destruct Hc as [Hc|[Hle Hc]].
      * assert (Hne : length Cs <> cid) by (apply lookup_lt_Some in Hc; lia).
        destruct (other_call cid (length Cs) evs) as (O1 & O2 & O3);
          [eapply Forall_impl; [apply (Forall_starting (length Cs) this); exact Hev|];
           intros e [He _]; exact He|exact Hne|].
        rewrite O1, O2, O3. cbn. rewrite !Nat.add_0_r, !orb_false_r.
        apply Hinv. exact Hc.
      * destruct (cid - length Cs) eqn:E; [|discriminate]. injection Hc as <-.
        assert (cid = length Cs) by lia. subst cid.
        destruct (unborn_call (length Cs) Cs Tr (wf_trace _ _ _ _ Hwf)) as (U1 & U2 & U3); [lia|].
        rewrite U1, U2, U3, S1, S2, S3. cbn. repeat split; auto.
  - (* a call takes a step *)
    intros D T Cs Tr cid c r0 t a evs r1 ph Hwf [Hna Hinv] Hc Hr Hs.
    destruct (CallStep_counts _ _ _ _ _ _ _ _ _ Hs) as (Hsusp & Hna' & Hthrow & Hset).
    pose proof (CallStep_events _ _ _ _ _ _ _ _ _ Hs) as Hevs.
    assert (Hlt : cid < length Cs) by (eapply lookup_lt_Some; eauto).
    split; [apply Forall_app; split; assumption|].
    intros cid' c' Hc'. rewrite !rollbacks_app, !threw_app, !settles_app.
    destruct (decide (cid = cid')) as [<-|Hne].
    + rewrite list_lookup_insert_eq in Hc' by assumption. injection Hc' as <-.
      destruct (Hinv cid c Hc) as (I1 & I2 & I3 & I4).
      rewrite (I2 Hsusp) in *. cbn.
      change (rollback_events cid (set_phase ph c)) with (rollback_events cid c).
      rewrite I1. cbn.
      split; [destruct Hthrow as [[-> ->]|(-> & -> & _)]; reflexivity|].
      split; [destruct Hthrow as [[-> _]|(_ & _ & ->)]; [reflexivity|discriminate]|].
      destruct Hset as [(Hb & Hle & Hz)|(Hb & Hb' & Hz)].
      * rewrite (I4 Hb). cbn. split; [exact Hle|exact Hz].
      * rewrite Hz, Nat.add_0_r. split; [exact I3|]. rewrite Hb'. discriminate.
    + rewrite list_lookup_insert_ne in Hc' by assumption.
      destruct (other_call cid' cid evs) as (O1 & O2 & O3);
        [eapply Forall_impl; [exact Hevs|]; intros e [He _]; exact He|exact Hne|].
      rewrite O1, O2, O3, !Nat.add_0_r, !orb_false_r. apply Hinv. exact Hc'.
Qed.

(** ** First load *)


Lemma requestIn_app_None D this :
  requestIn (D ++ [mkApiRequestDebouncer None]) this = requestIn D this.
Proof.
  unfold requestIn. destruct (decide (this < length D)) as [H|H].
  - rewrite lookup_app_l by assumption. reflexivity.
  - rewrite (lookup_ge_None_2 D) by lia. rewrite lookup_app_r by lia.
    destruct (this - length D) as [|n]; [reflexivity|]. destruct n; reflexivity.
Qed.







(** ** The context switch comes first *)

Lemma in_order_app tr evs e1 e2 i : in_order tr e1 e2 i -> in_order (tr ++ evs) e1 e2 i.
Proof.
  intros (j & k & Hjk & Hki & Hj & Hk). exists j, k.
  repeat split; try assumption; apply lookup_app_l_Some; assumption.
Qed.

Lemma lookup_In (tr : list Event) i e : tr !! i = Some e -> In e tr.
Proof. intros H. apply list_elem_of_In. eapply list_elem_of_lookup_2; eauto. Qed.

Lemma In_lookup (tr : list Event) e : In e tr -> exists i, tr !! i = Some e.
Proof. intros H. apply list_elem_of_In in H. apply list_elem_of_lookup_1 in H. exact H. Qed.

(** The events of other calls change nothing for the call [cid]. *)
Lemma hook_inv_frame cid c Tr evs :
  hook_inv cid c Tr -> Forall (fun e => event_call e <> cid) evs ->
  hook_inv cid c (Tr ++ evs).
Proof.
  intros [H1 H2 H3 H4] Hev.
  assert (Hin : forall e, event_call e = cid -> In e (Tr ++ evs) -> In e Tr).
  { intros e He Hi. apply in_app_or in Hi. destruct Hi as [Hi|Hi]; [exact Hi|].
    rewrite List.Forall_forall in Hev. destruct (Hev e Hi He). }
  split.
  - intros request Hi Hsw. apply in_or_app. left. apply H1; [|exact Hsw].
    apply Hin; [reflexivity|exact Hi].
  - intros i body request Hi Hs Hsw. apply in_order_app.
    apply lookup_app_Some in Hi. destruct Hi as [Hi|[_ Hi]].
    + eapply H2; [exact Hi| |exact Hsw]. apply Hin; [reflexivity|exact Hs].
    + apply lookup_In in Hi. rewrite List.Forall_forall in Hev. destruct (Hev _ Hi). reflexivity.
  - intros Hb. destruct (H3 Hb) as [Ha Ho]. split.
    + intros r Hi. apply (Ha r). apply Hin; [reflexivity|exact Hi].
    + intros body Hi. apply (Ho body). apply Hin; [reflexivity|exact Hi].
  - intros request Hph. destruct (H4 request Hph) as (Ho & Hu & Hs). repeat split.
    + intros body Hi. apply (Ho body). apply Hin; [reflexivity|exact Hi].
    + intros request' Hi. apply Hu. apply Hin; [reflexivity|exact Hi].
    + apply in_or_app. left. exact Hs.
Qed.

(** A trace without the response and without [onSuccess] of a call that is
    not awaiting [onNewChangeSet]. *)
Lemma hook_inv_absent cid c Tr :
  (forall r, ~ In (EvApiSettled cid r) Tr) -> (forall body, ~ In (EvOnSuccess cid body) Tr) ->
  (forall request, c_phase c <> AwaitingNewChangeSet request) ->
  hook_inv cid c Tr.
Proof.
  intros Ha Ho Hph. split.
  - intros request Hi. destruct (Ha _ Hi).
  - intros i body request Hi. apply lookup_In in Hi. destruct (Ho _ Hi).
  - intros _. split; assumption.
  - intros request H. destruct (Hph _ H).
Qed.

Lemma hookless_In evs e : Forall hookless evs -> In e evs -> hookless e.
Proof. intros H Hi. rewrite List.Forall_forall in H. apply H. exact Hi. Qed.

Lemma quiet_hookless cid evs : forallb (quiet cid) evs = true -> Forall hookless evs.
Proof.
  intros H. apply List.Forall_forall. intros e He. rewrite forallb_forall in H.
  specialize (H e He). destruct e; cbn in *; try discriminate; exact I.
Qed.

Lemma starting_hookless cid evs : forallb (starting cid) evs = true -> Forall hookless evs.
Proof.
  intros H. apply List.Forall_forall. intros e He. rewrite forallb_forall in H.
  specialize (H e He). destruct e; cbn in *; try discriminate; exact I.
Qed.

Lemma catch_events_hookless cid c evs :
  forallb (quiet cid) evs = true -> Forall hookless (catch_events cid c evs).
Proof.
  intros H. unfold catch_events. constructor; [exact I|]. apply Forall_app. split.
  - unfold rollback_events. destruct (c_optimisticRollbackFn c); repeat constructor.
  - eapply quiet_hookless; eauto.
Qed.

(** Events that are neither a response nor a call of [onSuccess] keep the
    order, if the call does not go back to before its response or to
    awaiting [onNewChangeSet]. *)
Lemma hook_inv_hookless cid c ph Tr evs :
  hook_inv cid c Tr -> Forall hookless evs ->
  (before_response ph = true ->
   before_response (c_phase c) = true /\ forall r, ~ In (EvApiSettled cid r) evs) ->
  (forall request, ph <> AwaitingNewChangeSet request) ->
  hook_inv cid (set_phase ph c) (Tr ++ evs).
Proof.
  intros [H1 H2 H3 H4] Hev Hb Hph.
  assert (Hin : forall e, ~ hookless e -> In e (Tr ++ evs) -> In e Tr).
  { intros e He Hi. apply in_app_or in Hi. destruct Hi as [Hi|Hi]; [exact Hi|].
    destruct (He (hookless_In _ _ Hev Hi)). }
  split.
  - intros request Hi Hsw. apply in_or_app. left. apply H1; [|exact Hsw].
    apply Hin; [intros []|exact Hi].
  - intros i body request Hi Hs Hsw. apply in_order_app.
    apply lookup_app_Some in Hi. destruct Hi as [Hi|[_ Hi]].
    + eapply H2; [exact Hi| |exact Hsw]. apply Hin; [intros []|exact Hs].
    + apply lookup_In in Hi. destruct (hookless_In _ _ Hev Hi).
  - cbn. intros Hb'. destruct (Hb Hb') as [Hbc Hno]. destruct (H3 Hbc) as [Ha Ho]. split.
    + intros r Hi. apply in_app_or in Hi. destruct Hi as [Hi|Hi];
        [exact (Ha r Hi)|exact (Hno r Hi)].
    + intros body Hi. apply (Ho body). apply Hin; [intros []|exact Hi].
  - cbn. intros request H. destruct (Hph _ H).
Qed.

Lemma after_received_phase c request ph :
  after_received c request ph ->
  before_response ph = false /\ forall request', ph <> AwaitingNewChangeSet request'.
Proof.
  unfold after_received, returned. destruct (onSuccess (c_spec c)).
  - intros ->. split; [reflexivity|discriminate].
  - intros [->|[v ->]]; split; try reflexivity; discriminate.
Qed.

Lemma over_phase ph :
  over ph -> before_response ph = false /\ forall request', ph <> AwaitingNewChangeSet request'.
Proof. intros [->|[o ->]]; split; try reflexivity; discriminate. Qed.

Lemma returned_over ph : returned ph -> over ph.
Proof. intros [->|[v ->]]; [left; reflexivity|right; eauto]. Qed.

Lemma received_events_In cid c request e :
  In e (received_events cid c request) ->
  e = EvStatus (c_this c) cid (Received true)
  \/ e = EvOnSuccess cid (data request) \/ e = EvSpanEnd cid (status request).
Proof.
  unfold received_events. destruct (onSuccess (c_spec c)); cbn; intuition (subst; auto).
Qed.

Lemma hook_inv_step cid c t r0 a evs r1 ph Tr :
  hook_inv cid c Tr -> CallStep cid c t r0 a (c_phase c) evs r1 ph ->
  hook_inv cid (set_phase ph c) (Tr ++ evs).
Proof.
  intros Hinv Hs. remember (c_phase c) as ph0 eqn:Hph0.
  destruct Hs.
  - (* the delay is over *)
    apply hook_inv_hookless; [exact Hinv|repeat constructor| |discriminate].
    intros _. rewrite <- Hph0. split; [reflexivity|]. intros r [H|[]]. discriminate.
  - (* a response that switches *)
    destruct (hi_before _ _ _ Hinv) as [Ha Ho]; [rewrite <- Hph0; reflexivity|].
    assert (Hin : forall e, In e (Tr ++ [EvApiSettled cid (Returns resp); switch_event cid resp]) ->
              In e Tr \/ e = EvApiSettled cid (Returns resp) \/ e = switch_event cid resp).
    { intros e Hi. apply in_app_or in Hi. cbn in Hi. intuition (subst; auto). }
    fold (switch_event cid resp). split.
    + intros request' Hi _. apply Hin in Hi. destruct Hi as [Hi|[Hi|Hi]];
        [destruct (Ha _ Hi)| |discriminate].
      injection Hi as <-. apply in_or_app. right. right. left. reflexivity.
    + intros i body request' Hi. apply lookup_In, Hin in Hi.
      destruct Hi as [Hi|[Hi|Hi]]; [destruct (Ho _ Hi)|discriminate|discriminate].
    + discriminate.
    + cbn. intros request' [= <-]. repeat split.
      * intros body Hi. apply Hin in Hi.
        destruct Hi as [Hi|[Hi|Hi]]; [destruct (Ho _ Hi)|discriminate|discriminate].
      * intros request' Hi. apply Hin in Hi.
        destruct Hi as [Hi|[Hi|Hi]]; [destruct (Ha _ Hi)| |discriminate].
        injection Hi as <-. reflexivity.
      * apply in_or_app. right. right. left. reflexivity.
  - (* a response that does not *)
    destruct (hi_before _ _ _ Hinv) as [Ha Ho]; [rewrite <- Hph0; reflexivity|].
    destruct (after_received_phase _ _ _ H0) as [Hb Hn].
    assert (Hone : forall request', In (EvApiSettled cid (Returns request'))
                     (Tr ++ EvApiSettled cid (Returns resp) :: received_events cid c resp) ->
                   request' = resp).
    { intros request' Hi. apply in_app_or in Hi. destruct Hi as [Hi|[Hi|Hi]].
      - destruct (Ha _ Hi).
      - injection Hi as <-. reflexivity.
      - apply received_events_In in Hi. destruct Hi as [Hi|[Hi|Hi]]; discriminate. }
    split.
    + intros request' Hi Hsw. rewrite (Hone _ Hi) in Hsw.
      unfold needs_switch in *. cbn in Hsw. congruence.
    + intros i body request' _ Hi Hsw. rewrite (Hone _ Hi) in Hsw.
      unfold needs_switch in *. cbn in Hsw. congruence.
    + cbn. rewrite Hb. discriminate.
    + cbn. intros request' Hph. destruct (Hn _ Hph).
  - (* axios rejects *)
    destruct H as (Hq & _ & _ & Hover). destruct (over_phase _ Hover) as [Hb Hn].
    apply hook_inv_hookless; [exact Hinv| | |exact Hn].
    + constructor; [exact I|]. apply catch_events_hookless. exact Hq.
    + rewrite Hb. discriminate.
  - (* onNewChangeSet has returned *)
    destruct (hi_switching _ _ _ Hinv resp) as (Ho & Hu & Hsw); [symmetry; exact Hph0|].
    destruct (after_received_phase _ _ _ H) as [Hb Hn].
    assert (Hset : forall request', In (EvApiSettled cid (Returns request'))
                     (Tr ++ EvHookSettled cid (Returns tt) :: received_events cid c resp) ->
                   In (EvApiSettled cid (Returns request')) Tr).
    { intros request' Hi. apply in_app_or in Hi. destruct Hi as [Hi|[Hi|Hi]];
        [exact Hi|discriminate|].
      apply received_events_In in Hi. destruct Hi as [Hi|[Hi|Hi]]; discriminate. }
    split.
    + intros request' Hi Hneeds. apply in_or_app. left.
      apply (hi_invoked _ _ _ Hinv); [apply Hset; exact Hi|exact Hneeds].
    + intros i body request' Hi Hs Hneeds. apply Hset in Hs. rewrite (Hu _ Hs).
      apply lookup_app_Some in Hi. destruct Hi as [Hi|[Hle Hi]].
      * apply lookup_In in Hi. destruct (Ho _ Hi).
      * destruct (In_lookup _ _ Hsw) as [j Hj].
        exists j, (length Tr). repeat split.
        -- eapply lookup_lt_Some; eauto.
        -- destruct (i - length Tr) as [|n] eqn:E; [discriminate|]. lia.
        -- apply lookup_app_l_Some. exact Hj.
        -- rewrite lookup_app_r by lia. rewrite Nat.sub_diag. reflexivity.
    + cbn. rewrite Hb. discriminate.
    + cbn. intros request' Hph. destruct (Hn _ Hph).
  - (* onNewChangeSet has thrown *)
    destruct H as (Hq & _ & _ & Hover). destruct (over_phase _ Hover) as [Hb Hn].
    apply hook_inv_hookless; [exact Hinv| | |exact Hn].
    + constructor; [exact I|]. apply catch_events_hookless. exact Hq.
    + rewrite Hb. discriminate.
  - (* onSuccess has returned *)
    destruct (over_phase _ (returned_over _ H)) as [Hb Hn].
    apply hook_inv_hookless; [exact Hinv|repeat constructor| |exact Hn].
    rewrite Hb. discriminate.
  - (* onSuccess has thrown *)
    destruct H as (Hq & _ & _ & Hover). destruct (over_phase _ Hover) as [Hb Hn].
    apply hook_inv_hookless; [exact Hinv| | |exact Hn].
    + constructor; [exact I|]. apply catch_events_hookless. exact Hq.
    + rewrite Hb. discriminate.
Qed.

Lemma hook_inv_run delayed acts cid c :
  calls (run acts (init delayed)) !! cid = Some c ->
  hook_inv cid c (trace (run acts (init delayed))).
Proof.
  revert cid c.
  apply (run_ind (fun _ _ Cs Tr => forall cid c, Cs !! cid = Some c -> hook_inv cid c Tr)).
  - intros cid c H. rewrite lookup_nil in H. discriminate.
  - intros; auto.
  - intros; auto.
  - (* a call starts *)
    intros D T Cs Tr this fid p spec c' evs t Hwf H Hthis Hst Hev cid c Hc.
    assert (Hevs : Forall (event_of (length Cs) this) (EvStatus this (length Cs) Requested :: evs)).
    { constructor; [split; cbn; congruence|]. apply Forall_starting. exact Hev. }
    apply lookup_app_Some in Hc. destruct Hc as [Hc|[Hle Hc]].
    + apply hook_inv_frame; [apply H; exact Hc|].
      eapply Forall_impl; [exact Hevs|]. cbn. intros e [-> _].
      apply lookup_lt_Some in Hc. lia.
    + destruct (cid - length Cs) eqn:E; [|discriminate]. injection Hc as <-.
      assert (cid = length Cs) by lia. subst cid.
      assert (Hno : forall e, In e (Tr ++ EvStatus this (length Cs) Requested :: evs) ->
                event_call e = length Cs -> hookless e).
      { intros e Hi He. apply in_app_or in Hi. destruct Hi as [Hi|[<-|Hi]].
        - pose proof (wf_trace _ _ _ _ Hwf) as Htr. rewrite List.Forall_forall in Htr.
          specialize (Htr e Hi). lia.
        - exact I.
        - eapply hookless_In; [eapply starting_hookless; eauto|exact Hi]. }
      apply hook_inv_absent.
      * intros [request|err] Hi; [destruct (Hno _ Hi eq_refl)|].
        apply in_app_or in Hi. destruct Hi as [Hi|[Hi|Hi]]; [|discriminate|].
        -- pose proof (wf_trace _ _ _ _ Hwf) as Htr. rewrite List.Forall_forall in Htr.
           specialize (Htr _ Hi). cbn in Htr. lia.
        -- rewrite forallb_forall in Hev. specialize (Hev _ Hi). discriminate.
      * intros body Hi. destruct (Hno _ Hi eq_refl).
      * destruct Hst as (_ & _ & _ & _ & _ & [->|[->|[e ->]]]); discriminate.
  - (* a call takes a step *)
    intros D T Cs Tr cid c r0 t a evs r1 ph Hwf H Hc Hr Hs cid' c' Hc'.
    assert (Hlt : cid < length Cs) by (eapply lookup_lt_Some; eauto).
    destruct (decide (cid = cid')) as [<-|Hne].
    + rewrite list_lookup_insert_eq in Hc' by assumption. injection Hc' as <-.
      eapply hook_inv_step; [apply H; exact Hc|exact Hs].
    + rewrite list_lookup_insert_ne in Hc' by assumption.
      apply hook_inv_frame; [apply H; exact Hc'|].
      eapply Forall_impl; [eapply CallStep_events; eauto|]. cbn. intros e [-> _]. exact Hne.
Qed.

(** ** A success is the success of an api call *)





(** ** Clearing a status *)

Lemma tb_ret {A} (a : A) : table_blind (mret a).
Proof. intros T w. reflexivity. Qed.

Lemma tb_throw {A} e : table_blind (@throw A e).
Proof. intros T w. reflexivity. Qed.

Lemma tb_lift {A} (o : Thrown A) : table_blind (lift o).
Proof. intros T w. reflexivity. Qed.

Lemma tb_bind {A B} (m : M A) (f : A -> M B) :
  table_blind m -> (forall a, table_blind (f a)) -> table_blind (m ≫= f).
Proof.
  intros Hm Hf T w. unfold mbind, M_bind. rewrite Hm.
  destruct (m w) as [[a|e] w1]; cbn; [apply Hf|reflexivity].
Qed.

Lemma tb_try_catch {A} (m : M A) (h : JsError -> M A) :
  table_blind m -> (forall e, table_blind (h e)) -> table_blind (try_catch m h).
Proof.
  intros Hm Hh T w. unfold try_catch. rewrite Hm.
  destruct (m w) as [[a|e] w1]; cbn; [reflexivity|apply Hh].
Qed.

Lemma tb_emit e : table_blind (emit e).
Proof. intros T w. reflexivity. Qed.

Lemma tb_newDate : table_blind newDate.
Proof. intros T w. reflexivity. Qed.

Lemma tb_update_request this field f : table_blind (update_request this field f).
Proof.
  intros T w. unfold update_request. munfold. cbn.
  destruct (debouncers w !! this) as [[[r|]]|]; reflexivity.
Qed.

Lemma tb_resumeFire fid o T w :
  resumeFire fid o (set_apiRequestDebouncers T w)
  = set_apiRequestDebouncers T (resumeFire fid o w).
Proof.
  unfold resumeFire. cbn. destruct (fires w !! fid) as [f|]; [|reflexivity].
  destruct (f_state f); try reflexivity.
  destruct o as [[[d|e]|]|e]; reflexivity.
Qed.

Lemma tb_resumeAll p v fids T w :
  resumeAll p v fids (set_apiRequestDebouncers T w)
  = set_apiRequestDebouncers T (resumeAll p v fids w).
Proof.
  revert w. induction fids as [|fid fids IH]; intros w; [reflexivity|].
  cbn. unfold resumeAll in IH. destruct (fires w !! fid) as [f|]; [|apply IH].
  destruct (awaits_signal p f); [|apply IH]. rewrite tb_resumeFire. apply IH.
Qed.

Lemma tb_resolve p v : table_blind (resolve p v).
Proof.
  intros T w. unfold resolve. cbn. destruct (promises w !! p) as [[?|]|]; try reflexivity.
  cbn. f_equal. apply (tb_resumeAll p v _ T (set_promises _ w)).
Qed.

Lemma tb_return_await p : table_blind (return_await p).
Proof.
  intros T w. unfold return_await. munfold. cbn.
  destruct (promises w !! p) as [[?|]|]; reflexivity.
Qed.

Ltac tb :=
  repeat match goal with
    | |- table_blind (mbind _ _) => apply tb_bind; [|intros ?]
    | |- table_blind (mret _) => apply tb_ret
    | |- table_blind (throw _) => apply tb_throw
    | |- table_blind (lift _) => apply tb_lift
    | |- table_blind (emit _) => apply tb_emit
    | |- table_blind newDate => apply tb_newDate
    | |- table_blind (update_request _ _ _) => apply tb_update_request
    | |- table_blind (resolve _ _) => apply tb_resolve
    | |- table_blind (return_await _) => apply tb_return_await
    | |- table_blind (try_catch _ _) => apply tb_try_catch; [|intros ?]
    | |- table_blind (match ?x with _ => _ end) => destruct x
    | |- table_blind (if ?x then _ else _) => destruct x
    end.

Lemma tb_succeed cid c request : table_blind (succeed cid c request).
Proof. unfold succeed. tb. Qed.

Lemma tb_received cid c request : table_blind (received cid c request).
Proof. unfold received. tb. apply tb_succeed. Qed.

Lemma tb_responded cid c request : table_blind (responded cid c request).
Proof. unfold responded. tb. apply tb_received. Qed.

Lemma tb_catchBlock cid c err : table_blind (catchBlock cid c err).
Proof. unfold catchBlock, rollBack, callOnFail, storeError. tb. Qed.

Lemma tb_run_async cid body T w :
  table_blind body ->
  run_async cid body (set_apiRequestDebouncers T w)
  = set_apiRequestDebouncers T (run_async cid body w).
Proof.
  intros Hb. unfold run_async. rewrite Hb. destruct (body w) as [o w1]. cbn.
  destruct (calls w1 !! cid) as [c|]; [|reflexivity].
  destruct o as [[ph|v]|e]; [reflexivity| |];
    match goal with |- resumeFire ?f ?o ?w0 = _ =>
      apply (tb_resumeFire f o T (set_calls _ w1)) end.
Qed.

(** The steps of a call go the same way whatever [store.apiRequestDebouncers]
    is, and leave it as it is. *)
Lemma step_call_table a cid T w :
  action_call a = Some cid ->
  step a (set_apiRequestDebouncers T w) = set_apiRequestDebouncers T (step a w).
Proof.
  intros Ha. destruct a; try discriminate; cbn [step]; cbn [calls set_apiRequestDebouncers];
    destruct (calls w !! _) as [c0|]; try reflexivity;
    destruct (c_phase c0); try reflexivity;
    apply tb_run_async; unfold in_try, issue; tb;
    first [apply tb_responded | apply tb_received | apply tb_succeed | apply tb_catchBlock].
Qed.

(** ** The callers *)

Section Callers.

(** A property of the requests and of the calls of [fireActionResult] that
    the rest of a [fireActionResult] keeps. *)
Variable I : list ApiRequest -> list Fire -> Prop.

Hypothesis I_resumeFire : forall fid o w,
  I (apiRequests w) (fires w) ->
  I (apiRequests (resumeFire fid o w)) (fires (resumeFire fid o w)).

Lemma keeps_ret {A} (a : A) : keeps I (mret a).
Proof. intros w H. exact H. Qed.

Lemma keeps_throw {A} e : keeps I (@throw A e).
Proof. intros w H. exact H. Qed.

Lemma keeps_lift {A} (o : Thrown A) : keeps I (lift o).
Proof. intros w H. exact H. Qed.

Lemma keeps_bind {A B} (m : M A) (f : A -> M B) :
  keeps I m -> (forall a, keeps I (f a)) -> keeps I (m ≫= f).
Proof.
  intros Hm Hf w H. unfold mbind, M_bind. specialize (Hm w H).
  destruct (m w) as [[a|e] w1]; cbn in *; [apply Hf; exact Hm|exact Hm].
Qed.

Lemma keeps_try_catch {A} (m : M A) (h : JsError -> M A) :
  keeps I m -> (forall e, keeps I (h e)) -> keeps I (try_catch m h).
Proof.
  intros Hm Hh w H. unfold try_catch. specialize (Hm w H).
  destruct (m w) as [[a|e] w1]; cbn in *; [exact Hm|apply Hh; exact Hm].
Qed.

Lemma keeps_emit e : keeps I (emit e).
Proof. intros w H. exact H. Qed.

Lemma keeps_newDate : keeps I newDate.
Proof. intros w H. exact H. Qed.

Lemma keeps_update_request this field f : keeps I (update_request this field f).
Proof.
  intros w H. unfold update_request. munfold. cbn.
  destruct (debouncers w !! this) as [[[r|]]|]; exact H.
Qed.

Lemma keeps_resumeAll p v fids w :
  I (apiRequests w) (fires w) ->
  I (apiRequests (resumeAll p v fids w)) (fires (resumeAll p v fids w)).
Proof.
  revert w. induction fids as [|fid fids IH]; intros w H; [exact H|].
  cbn. unfold resumeAll in IH. apply IH. destruct (fires w !! fid) as [f|]; [|exact H].
  destruct (awaits_signal p f); [apply I_resumeFire; exact H|exact H].
Qed.

Lemma keeps_resolve p v : keeps I (resolve p v).
Proof.
  intros w H. unfold resolve. destruct (promises w !! p) as [[?|]|]; try exact H.
  cbn. apply keeps_resumeAll. exact H.
Qed.

Lemma keeps_return_await p : keeps I (return_await p).
Proof.
  intros w H. unfold return_await. munfold. cbn.
  destruct (promises w !! p) as [[?|]|]; exact H.
Qed.

Ltac keeping :=
  repeat match goal with
    | |- keeps I (mbind _ _) => apply keeps_bind; [|intros ?]
    | |- keeps I (mret _) => apply keeps_ret
    | |- keeps I (throw _) => apply keeps_throw
    | |- keeps I (lift _) => apply keeps_lift
    | |- keeps I (emit _) => apply keeps_emit
    | |- keeps I newDate => apply keeps_newDate
    | |- keeps I (update_request _ _ _) => apply keeps_update_request
    | |- keeps I (resolve _ _) => apply keeps_resolve
    | |- keeps I (return_await _) => apply keeps_return_await
    | |- keeps I (try_catch _ _) => apply keeps_try_catch; [|intros ?]
    | |- keeps I (match ?x with _ => _ end) => destruct x
    | |- keeps I (if ?x then _ else _) => destruct x
    end.

Lemma keeps_succeed cid c request : keeps I (succeed cid c request).
Proof. unfold succeed. keeping. Qed.

Lemma keeps_received cid c request : keeps I (received cid c request).
Proof. unfold received. keeping. apply keeps_succeed. Qed.

Lemma keeps_responded cid c request : keeps I (responded cid c request).
Proof. unfold responded. keeping. apply keeps_received. Qed.

Lemma keeps_catchBlock cid c err : keeps I (catchBlock cid c err).
Proof. unfold catchBlock, rollBack, callOnFail, storeError. keeping. Qed.

Lemma keeps_run_async cid body w :
  keeps I body -> I (apiRequests w) (fires w) ->
  I (apiRequests (run_async cid body w)) (fires (run_async cid body w)).
Proof.
  intros Hb H. unfold run_async. specialize (Hb w H). destruct (body w) as [o w1]. cbn in Hb.
  destruct (calls w1 !! cid) as [c|]; [|exact Hb].
  destruct o as [[ph|v]|e]; [exact Hb| |];
    match goal with |- context [resumeFire ?f ?o ?w0] =>
      apply (I_resumeFire f o w0); exact Hb end.
Qed.

Lemma keeps_step_call a cid w :
  action_call a = Some cid -> I (apiRequests w) (fires w) ->
  I (apiRequests (step a w)) (fires (step a w)).
Proof.
  intros Ha H. destruct a; try discriminate; cbn [step];
    destruct (calls w !! _) as [c0|]; try exact H;
    destruct (c_phase c0); try exact H;
    (apply keeps_run_async; [|exact H]); unfold in_try, issue; keeping;
    first [apply keeps_responded | apply keeps_received | apply keeps_succeed
          | apply keeps_catchBlock].
Qed.

(** The other ways in which the requests and the fires change. *)
Hypothesis I_new : forall A F spec, I A F -> I (A ++ [newApiRequest spec]) F.
Hypothesis I_fire : forall A F rid, I A F -> rid < length A ->
  I A (F ++ [mkFire rid None FirePending]).
Hypothesis I_spec : forall A F rid spec, I A F -> I (alter (set_requestSpec spec) rid A) F.
Hypothesis I_awaits : forall A F fid a, I A F -> I A (alter (set_f_awaits a) fid F).

Lemma keeps_triggerApiRequest this rid fid spec : keeps I (triggerApiRequest this rid fid spec).
Proof.
  intros w H. destruct (is_pending_equal (requestOf this w) spec) eqn:Hd.
  - rewrite (triggerApiRequest_deduplicated _ _ _ _ _ Hd). exact H.
  - destruct (triggerApiRequest_started this rid fid spec w Hd)
      as (o & w' & c' & evs & -> & _ & Hc & _).
    unfold callers in Hc. cbn. injection Hc as -> _ ->. apply I_spec. exact H.
Qed.

Lemma keeps_fireActionResult this rid w :
  I (apiRequests w) (fires w) ->
  I (apiRequests (fireActionResult this rid w)) (fires (fireActionResult this rid w)).
Proof.
  intros H. unfold fireActionResult. destruct (apiRequests w !! rid) as [req|] eqn:Hreq; [|exact H].
  set (w0 := set_fires (fires w ++ [mkFire rid None FirePending]) w).
  assert (H0 : I (apiRequests w0) (fires w0)).
  { cbn. apply I_fire; [exact H|]. eapply lookup_lt_Some; eauto. }
  pose proof (keeps_triggerApiRequest this rid (length (fires w)) (requestSpec req) w0 H0) as Ht.
  destruct (triggerApiRequest this rid (length (fires w)) (requestSpec req) w0) as [[[p|c]|e] w1];
    cbn in Ht.
  - destruct p as [p|]; [|apply I_resumeFire; exact Ht].
    match goal with |- context [promises ?w2 !! p] =>
      destruct (promises w2 !! p) as [[v|]|] end;
      try apply I_resumeFire; cbn; apply I_awaits; exact Ht.
  - cbn. apply I_awaits. exact Ht.
  - apply I_resumeFire. cbn. exact Ht.
Qed.

Lemma keeps_step a w :
  I (apiRequests w) (fires w) -> I (apiRequests (step a w)) (fires (step a w)).
Proof.
  intros H. destruct (action_call a) as [cid|] eqn:Ha; [eapply keeps_step_call; eauto|].
  destruct a; try discriminate; cbn [step].
  - cbn. apply I_new. exact H.
  - unfold wrappedActionFn. destruct (apiRequests w !! rid); [|exact H].
    destruct (ensureDebouncer_spec (getTrackingKey actionName (keyRequestStatusBy (requestSpec a))) w)
      as [(this & _ & ->)|[_ ->]]; apply keeps_fireActionResult; exact H.
  - destruct (ensureDebouncer_spec (getKey requestKey keyedByArgs) w)
      as [(this & _ & E)|[_ E]]; unfold getRequestStatus; rewrite E; exact H.
  - exact H.
Qed.

Hypothesis I_init : I [] [].

Theorem callers_ind delayed acts :
  I (apiRequests (run acts (init delayed))) (fires (run acts (init delayed))).
Proof.
  induction acts as [|a acts IH] using rev_ind; [exact I_init|].
  rewrite run_snoc. apply keeps_step. exact IH.
Qed.

End Callers.

(** ** Awaited requests *)

Lemma returned_for_insert rid fid f st (F : list Fire) :
  F !! fid = Some f -> f_state f = FirePending -> st <> FireReturned ->
  returned_for rid (<[fid := set_f_state st f]> F) <-> returned_for rid F.
Proof.
  intros Hf Hp Hst. split; intros (i & g & Hg & Hr & Hs).
  - destruct (decide (i = fid)) as [->|Hne].
    + rewrite list_lookup_insert_eq in Hg by (eapply lookup_lt_Some; eauto).
      injection Hg as <-. cbn in Hs. contradiction.
    + rewrite list_lookup_insert_ne in Hg by congruence. exists i, g. auto.
  - destruct (decide (i = fid)) as [->|Hne]; [congruence|].
    exists i, g. rewrite list_lookup_insert_ne by congruence. auto.
Qed.

Lemma awaited_inv_threw A F fid f e :
  awaited_inv A F -> F !! fid = Some f -> f_state f = FirePending ->
  awaited_inv A (<[fid := set_f_state (FireThrew e) f]> F).
Proof.
  intros [H1 H2 H3] Hf Hp. split.
  - intros i g Hg. destruct (decide (i = fid)) as [->|Hne].
    + rewrite list_lookup_insert_eq in Hg by (eapply lookup_lt_Some; eauto).
      injection Hg as <-. cbn. eauto.
    + rewrite list_lookup_insert_ne in Hg by congruence. eauto.
  - intros rid req Hreq. rewrite returned_for_insert by (auto; discriminate). auto.
  - exact H3.
Qed.

Lemma awaited_inv_returned A F fid f (g : ApiRequest -> ApiRequest) :
  (forall r, is_Some (rawSuccess (g r))) ->
  (forall r, rawSuccess (g r) = Some false -> is_Some (rawResponseError (g r))) ->
  awaited_inv A F -> F !! fid = Some f -> f_state f = FirePending ->
  awaited_inv (alter g (f_request f) A) (<[fid := set_f_state FireReturned f]> F).
Proof.
  intros Hg1 Hg2 [H1 H2 H3] Hf Hp.
  assert (Hlt : fid < length F) by (eapply lookup_lt_Some; eauto).
  split.
  - intros i h Hh. rewrite length_alter. destruct (decide (i = fid)) as [->|Hne].
    + rewrite list_lookup_insert_eq in Hh by exact Hlt. injection Hh as <-. cbn. eauto.
    + rewrite list_lookup_insert_ne in Hh by congruence. eauto.
  - intros rid req Hreq. destruct (decide (rid = f_request f)) as [->|Hne].
    + rewrite list_lookup_alter_eq in Hreq. destruct (A !! f_request f) as [r|]; [|discriminate].
      injection Hreq as <-. split; [|intros _; apply Hg1].
      intros _. exists fid, (set_f_state FireReturned f).
      rewrite list_lookup_insert_eq by exact Hlt. auto.
    + rewrite list_lookup_alter_ne in Hreq by congruence. rewrite (H2 _ _ Hreq).
      split; intros (i & h & Hh & Hr & Hs).
      * destruct (decide (i = fid)) as [->|Hi]; [congruence|].
        exists i, h. rewrite list_lookup_insert_ne by congruence. auto.
      * destruct (decide (i = fid)) as [->|Hi].
        -- rewrite list_lookup_insert_eq in Hh by exact Hlt. injection Hh as <-.
           cbn in Hr. congruence.
        -- rewrite list_lookup_insert_ne in Hh by congruence. exists i, h. auto.
  - intros rid req Hreq. destruct (decide (rid = f_request f)) as [->|Hne].
    + rewrite list_lookup_alter_eq in Hreq. destruct (A !! f_request f) as [r|]; [|discriminate].
      injection Hreq as <-. apply Hg2.
    + rewrite list_lookup_alter_ne in Hreq by congruence. eauto.
Qed.

Lemma awaited_inv_resumeFire fid o w :
  awaited_inv (apiRequests w) (fires w) ->
  awaited_inv (apiRequests (resumeFire fid o w)) (fires (resumeFire fid o w)).
Proof.
  intros H. unfold resumeFire. destruct (fires w !! fid) as [f|] eqn:Hf; [|exact H].
  destruct (f_state f) eqn:Hp; try exact H.
  destruct o as [[[d|err]|]|e]; cbn.
  - apply awaited_inv_returned; auto; intros r; cbn; try discriminate; eauto.
  - apply awaited_inv_returned; auto; intros r; cbn; eauto.
  - apply awaited_inv_threw; auto.
  - apply awaited_inv_threw; auto.
Qed.

Lemma returned_for_app rid (F : list Fire) r a :
  returned_for rid (F ++ [mkFire r a FirePending]) <-> returned_for rid F.
Proof.
  split; intros (i & g & Hg & Hr & Hs).
  - apply lookup_app_Some in Hg as [Hg|[_ Hg]]; [exists i, g; auto|].
    destruct (i - length F) as [|n]; [|destruct n; discriminate].
    injection Hg as <-. discriminate.
  - exists i, g. split; [apply lookup_app_l_Some; exact Hg|auto].
Qed.

Lemma returned_for_alter rid (F : list Fire) fid a :
  returned_for rid (alter (set_f_awaits a) fid F) <-> returned_for rid F.
Proof.
  split; intros (i & g & Hg & Hr & Hs).
  - destruct (decide (i = fid)) as [->|Hne].
    + rewrite list_lookup_alter_eq in Hg. destruct (F !! fid) as [h|] eqn:Hh; [|discriminate].
      injection Hg as <-. exists fid, h. auto.
    + rewrite list_lookup_alter_ne in Hg by congruence. exists i, g. auto.
  - destruct (decide (i = fid)) as [->|Hne].
    + exists fid, (set_f_awaits a g). rewrite list_lookup_alter_eq, Hg. auto.
    + exists i, g. rewrite list_lookup_alter_ne by congruence. auto.
Qed.

Theorem awaited_inv_run delayed acts :
  awaited_inv (apiRequests (run acts (init delayed))) (fires (run acts (init delayed))).
Proof.
  apply callers_ind.
  - apply awaited_inv_resumeFire.
  - intros A F spec [H1 H2 H3]. split.
    + intros fid f Hf. rewrite length_app. specialize (H1 _ _ Hf). lia.
    + intros rid req Hreq. apply lookup_app_Some in Hreq as [Hreq|[Hge Hreq]]; [eauto|].
      destruct (rid - length A) as [|n] eqn:Hn; [|destruct n; discriminate].
      injection Hreq as <-. split.
      * intros [b Hb]. destruct (method spec); discriminate.
      * intros (i & g & Hg & Hr & _). specialize (H1 _ _ Hg). lia.
    + intros rid req Hreq. apply lookup_app_Some in Hreq as [Hreq|[Hge Hreq]]; [eauto|].
      destruct (rid - length A) as [|n] eqn:Hn; [|destruct n; discriminate].
      injection Hreq as <-. discriminate.
  - intros A F rid [H1 H2 H3] Hlt. split; [|intros r req Hreq; rewrite returned_for_app; eauto|exact H3].
    intros fid f Hf. apply lookup_app_Some in Hf as [Hf|[_ Hf]]; [eauto|].
    destruct (fid - length F) as [|n]; [|destruct n; discriminate].
    injection Hf as <-. exact Hlt.
  - intros A F rid spec [H1 H2 H3]. split.
    + intros fid f Hf. rewrite length_alter. eauto.
    + intros r req Hreq. destruct (decide (r = rid)) as [->|Hne].
      * rewrite list_lookup_alter_eq in Hreq. destruct (A !! rid) as [q|] eqn:Hq; [|discriminate].
        injection Hreq as <-. cbn. apply (H2 _ _ Hq).
      * rewrite list_lookup_alter_ne in Hreq by congruence. eauto.
    + intros r req Hreq. destruct (decide (r = rid)) as [->|Hne].
      * rewrite list_lookup_alter_eq in Hreq. destruct (A !! rid) as [q|] eqn:Hq; [|discriminate].
        injection Hreq as <-. cbn. apply (H3 _ _ Hq).
      * rewrite list_lookup_alter_ne in Hreq by congruence. eauto.
  - intros A F fid a [H1 H2 H3]. split; [|intros r req Hreq; rewrite returned_for_alter; eauto|exact H3].
    intros i f Hf. destruct (decide (i = fid)) as [->|Hne].
    + rewrite list_lookup_alter_eq in Hf. destruct (F !! fid) as [h|] eqn:Hh; [|discriminate].
      injection Hf as <-. cbn. eauto.
    + rewrite list_lookup_alter_ne in Hf by congruence. eauto.
  - split; intros ? ? Hl; rewrite lookup_nil in Hl; discriminate.
Qed.

(** ** A failure without a response *)

Lemma resumeFire_other fid fid' o w :
  fid <> fid' -> fires (resumeFire fid' o w) !! fid = fires w !! fid.
Proof.
  intros Hne. unfold resumeFire. destruct (fires w !! fid') as [f|]; [|reflexivity].
  destruct (f_state f); try reflexivity.
  destruct o as [[[d|err]|]|e]; cbn; apply list_lookup_insert_ne; congruence.
Qed.

(** A [fireActionResult] that does not await the promise is not resumed by
    its resolution. *)
Lemma resumeAll_keeps p v fids w fid f :
  fires w !! fid = Some f -> awaits_signal p f = false ->
  fires (resumeAll p v fids w) !! fid = Some f.
Proof.
  revert w. induction fids as [|fid' fids IH]; intros w Hf Ha; [exact Hf|].
  cbn. unfold resumeAll in IH. apply IH; [|exact Ha].
  destruct (fires w !! fid') as [f'|] eqn:Hf'; [|exact Hf].
  destruct (awaits_signal p f') eqn:Ha'; [|exact Hf].
  rewrite resumeFire_other; [exact Hf|]. intros ->. congruence.
Qed.

Lemma resolve_keeps p v w fid f :
  fires w !! fid = Some f -> awaits_signal p f = false ->
  fires (resolve p v w).2 !! fid = Some f.
Proof.
  intros Hf Ha. unfold resolve. destruct (promises w !! p) as [[?|]|]; try exact Hf.
  cbn. apply resumeAll_keeps; assumption.
Qed.

(** The [catch] block on an error without a response, when there is no
    [onFail] and the rollback returns: the error is stored, the promise is
    resolved, and then the block throws. *)
Lemma catchBlock_no_response cid c err w r :
  requestOf (c_this c) w = Some r ->
  response err = None -> onFail (c_spec c) = None ->
  (forall e, c_optimisticRollbackFn c <> Some (Throws e)) ->
  exists w', catchBlock cid c err w = (Throws (TypeError "status"), w')
    /\ requestOf (c_this c) w'
       = Some (set_error (ErrorMessage (message err)) (set_receivedAt (clock w) r))
    /\ promises w' = match promises w !! c_completed c with
                     | Some None => <[c_completed c := Some (TRError err)]> (promises w)
                     | _ => promises w
                     end
    /\ calls w' = calls w
    /\ (forall fid f, fires w !! fid = Some f -> awaits_signal (c_completed c) f = false ->
        fires w' !! fid = Some f).
Proof.
  intros Hr Hresp Hfail Hrb. pose proof (requestOf_lt _ _ _ Hr) as Hlt.
  unfold requestOf in Hr.
  unfold catchBlock, rollBack, callOnFail, storeError. rewrite Hfail.
  munfold. cbn. rewrite Hr. cbn. rewrite Hresp.
  destruct (c_optimisticRollbackFn c) as [[[]|e]|]; cbn;
    [|exfalso; eapply Hrb; reflexivity|];
    (rewrite list_lookup_insert_eq by assumption; cbn; rewrite list_insert_insert_eq;
     match goal with |- context [resolve ?p ?v ?w1] =>
       pose proof (resolve_keeps p v w1) as Hk;
       destruct (resolve_spec p v w1) as (w2 & E & Hcore & Hprom) end;
     rewrite E in *; cbn in Hk, Hprom; exists w2; (split; [reflexivity|]);
     unfold core at 2 in Hcore; cbn in Hcore; apply core_inv in Hcore;
     destruct Hcore as (Hd2 & _ & Hc2 & _);
     split; [|split; [|split]];
     [unfold requestOf; rewrite Hd2, list_lookup_insert_eq by assumption; reflexivity
     |exact Hprom|exact Hc2|exact Hk]).
Qed.

(** The rollback a call holds is the one its optimistic update returned. *)
Lemma rollback_held_run delayed acts cid c :
  calls (run acts (init delayed)) !! cid = Some c ->
  c_optimisticRollbackFn c = rollback_of (c_spec c).
Proof.
  revert cid c.
  apply (run_ind (fun _ _ Cs _ => forall cid c, Cs !! cid = Some c ->
                    c_optimisticRollbackFn c = rollback_of (c_spec c))).
  - intros cid c H. rewrite lookup_nil in H. discriminate.
  - intros D T Cs Tr key _ H _ cid c Hc. eauto.
  - intros D T Cs Tr key _ H cid c Hc. eauto.
  - intros D T Cs Tr this fid p spec c' evs t _ H _ Hst _ cid c Hc.
    apply lookup_app_Some in Hc as [Hc|[_ Hc]]; [eauto|].
    destruct (cid - length Cs) as [|n]; [|destruct n; discriminate].
    injection Hc as <-. destruct Hst as (_ & _ & -> & _ & -> & _). reflexivity.
  - intros D T Cs Tr cid c r0 t a evs r1 ph _ H Hc _ _ cid' c' Hc'.
    destruct (decide (cid' = cid)) as [->|Hne].
    + rewrite list_lookup_insert_eq in Hc' by (eapply lookup_lt_Some; eauto).
      injection Hc' as <-. cbn. eauto.
    + rewrite list_lookup_insert_ne in Hc' by congruence. eauto.
Qed.

Lemma step_call_keeps_table a cid w :
  action_call a = Some cid -> apiRequestDebouncers (step a w) = apiRequestDebouncers w.
Proof.
  intros Ha.
  pose proof (step_call_table a cid (apiRequestDebouncers w) w Ha) as H.
  replace (set_apiRequestDebouncers (apiRequestDebouncers w) w) with w in H
    by (destruct w; reflexivity).
  rewrite H. reflexivity.
Qed.

Lemma run_calls_table acts T w :
  Forall (fun a => is_Some (action_call a)) acts ->
  run acts (set_apiRequestDebouncers T w) = set_apiRequestDebouncers T (run acts w).
Proof.
  intros H. revert w. induction H as [|a acts [cid Ha] _ IH]; intros w; [reflexivity|].
  change (run (a :: acts) (set_apiRequestDebouncers T w))
    with (run acts (step a (set_apiRequestDebouncers T w))).
  rewrite (step_call_table a cid T w Ha). apply IH.
Qed.

Lemma run_calls_keep_table acts w :
  Forall (fun a => is_Some (action_call a)) acts ->
  apiRequestDebouncers (run acts w) = apiRequestDebouncers w.
Proof.
  intros H. revert w. induction H as [|a acts [cid Ha] _ IH]; intros w; [reflexivity|].
  change (run (a :: acts) w) with (run acts (step a w)).
  rewrite IH. eapply step_call_keeps_table; eauto.
Qed.

(** A key without a debouncer reads as not requested. *)
Lemma statusOf_absent requestKey keyedByArgs w :
  apiRequestDebouncers w !! getKey requestKey keyedByArgs = None ->
  statusOf requestKey keyedByArgs w = mkApiRequestDebouncer None.
Proof.
  intros H. unfold statusOf, getRequestStatus, ensureDebouncer. rewrite H. cbn.
  rewrite lookup_app_r by lia. rewrite Nat.sub_diag. reflexivity.
Qed.

(** ** The statuses of the keys *)

Lemma ensureDebouncer_lookup key w :
  apiRequestDebouncers (ensureDebouncer key w).1 !! key = Some (ensureDebouncer key w).2.
Proof.
  destruct (ensureDebouncer_spec key w) as [(this & Hk & ->)|[_ ->]]; cbn;
    [exact Hk|apply lookup_insert_eq].
Qed.

Lemma table_inv_run delayed acts :
  table_inv (apiRequestDebouncers (run acts (init delayed))).
Proof.
  apply (run_ind (fun _ T _ _ => table_inv T)).
  - intros key key' this Hk. rewrite lookup_empty in Hk. discriminate.
  - intros D T Cs Tr key Hwf Hinv Hnone key1 key2 this H1 H2.
    destruct (decide (key1 = key)) as [->|Hne1]; destruct (decide (key2 = key)) as [->|Hne2];
      [reflexivity| | |].
    + rewrite lookup_insert_eq in H1. injection H1 as <-.
      rewrite lookup_insert_ne in H2 by congruence.
      pose proof (wf_table _ _ _ _ Hwf _ _ H2). lia.
    + rewrite lookup_insert_eq in H2. injection H2 as <-.
      rewrite lookup_insert_ne in H1 by congruence.
      pose proof (wf_table _ _ _ _ Hwf _ _ H1). lia.
    + rewrite lookup_insert_ne in H1, H2 by congruence. eapply Hinv; eauto.
  - intros D T Cs Tr key _ Hinv key1 key2 this H1 H2.
    apply lookup_delete_Some in H1 as [_ H1]. apply lookup_delete_Some in H2 as [_ H2].
    eapply Hinv; eauto.
  - intros D T Cs Tr this fid p spec c' evs t _ Hinv _ _ _. exact Hinv.
  - intros D T Cs Tr cid c r0 t a evs r1 ph _ Hinv _ _ _. exact Hinv.
Qed.

(** What a read returns depends on the table of the store and on the
    debouncer of the key only. *)
Lemma statusOf_same requestKey keyedByArgs w w' :
  apiRequestDebouncers w' !! getKey requestKey keyedByArgs
  = apiRequestDebouncers w !! getKey requestKey keyedByArgs ->
  (forall this, apiRequestDebouncers w !! getKey requestKey keyedByArgs = Some this ->
                debouncers w' !! this = debouncers w !! this) ->
  statusOf requestKey keyedByArgs w' = statusOf requestKey keyedByArgs w.
Proof.
  intros Ht Hd. unfold statusOf, getRequestStatus, ensureDebouncer. rewrite Ht.
  destruct (apiRequestDebouncers w !! getKey requestKey keyedByArgs) as [this|] eqn:Hk.
  - rewrite (Hd this eq_refl). reflexivity.
  - cbn [apiRequestDebouncers set_apiRequestDebouncers set_debouncers debouncers].
    rewrite !lookup_last. reflexivity.
Qed.

(** A read, which makes the debouncer of a key that has none, changes the
    status of no key. *)
Lemma read_keeps_status requestKey keyedByArgs requestKey' keyedByArgs' w :
  WF w ->
  statusOf requestKey' keyedByArgs' (getRequestStatus requestKey keyedByArgs w).1
  = statusOf requestKey' keyedByArgs' w.
Proof.
  intros Hwf. unfold getRequestStatus at 1.
  destruct (ensureDebouncer_spec (getKey requestKey keyedByArgs) w)
    as [(this & _ & ->)|[Hnone ->]]; [reflexivity|]. cbn [fst].
  destruct (decide (getKey requestKey' keyedByArgs' = getKey requestKey keyedByArgs))
    as [Heq|Hne].
  - assert (Hnone' : apiRequestDebouncers w !! getKey requestKey' keyedByArgs' = None)
      by (rewrite Heq; exact Hnone).
    rewrite (statusOf_absent requestKey' keyedByArgs' w Hnone').
    unfold statusOf, getRequestStatus, ensureDebouncer. rewrite Heq.
    cbn [apiRequestDebouncers set_apiRequestDebouncers set_debouncers debouncers].
    rewrite lookup_insert_eq.
    cbn [apiRequestDebouncers set_apiRequestDebouncers set_debouncers debouncers].
    rewrite lookup_app_r by lia. rewrite Nat.sub_diag. reflexivity.
  - unfold statusOf, getRequestStatus, ensureDebouncer.
    cbn [apiRequestDebouncers set_apiRequestDebouncers set_debouncers debouncers].
    rewrite lookup_insert_ne by congruence.
    destruct (apiRequestDebouncers w !! getKey requestKey' keyedByArgs') as [this'|] eqn:Hk;
      cbn [apiRequestDebouncers set_apiRequestDebouncers set_debouncers debouncers].
    + rewrite lookup_app_l by (eapply wf_table; eauto). reflexivity.
    + rewrite (lookup_app_r (debouncers w)) by lia. rewrite Nat.sub_diag.
      rewrite (lookup_app_r (debouncers w ++ _)) by lia. rewrite Nat.sub_diag.
      reflexivity.
Qed.

(** The dispatch of an action changes the status of no key but its own. *)
Lemma dispatch_keeps_other_status actionName rid req requestKey keyedByArgs w :
  WF w -> table_inv (apiRequestDebouncers w) ->
  apiRequests w !! rid = Some req ->
  getTrackingKey actionName (keyRequestStatusBy (requestSpec req))
  <> getKey requestKey keyedByArgs ->
  statusOf requestKey keyedByArgs (step (Dispatch actionName rid) w)
  = statusOf requestKey keyedByArgs w.
Proof.
  intros Hwf Hinj Hreq Hne. cbn [step]. unfold wrappedActionFn. rewrite Hreq.
  set (key := getTrackingKey actionName (keyRequestStatusBy (requestSpec req))) in *.
  pose proof (ensureDebouncer_lt key w Hwf) as Hlt.
  pose proof (ensureDebouncer_lookup key w) as Hk.
  assert (Hreq1 : apiRequests (ensureDebouncer key w).1 !! rid = Some req).
  { destruct (ensureDebouncer_spec key w) as [(this & _ & ->)|[_ ->]]; exact Hreq. }
  assert (Htab : forall key', key' <> key ->
            apiRequestDebouncers (ensureDebouncer key w).1 !! key'
            = apiRequestDebouncers w !! key').
  { intros key' Hk'. destruct (ensureDebouncer_spec key w) as [(this & _ & ->)|[_ ->]];
      [reflexivity|]. cbn. apply lookup_insert_ne. congruence. }
  assert (Hdeb : forall this', this' < length (debouncers w) ->
            debouncers (ensureDebouncer key w).1 !! this' = debouncers w !! this').
  { intros this' Hlt'. destruct (ensureDebouncer_spec key w) as [(this & _ & ->)|[_ ->]];
      [reflexivity|]. cbn. apply lookup_app_l. exact Hlt'. }
  assert (Hother : forall this', apiRequestDebouncers w !! getKey requestKey keyedByArgs
                                 = Some this' -> this' <> (ensureDebouncer key w).2).
  { intros this' Hk' ->. destruct (ensureDebouncer_spec key w) as [(this & Hk0 & E)|[_ E]];
      rewrite E in *; cbn in *.
    - apply Hne. symmetry. eapply Hinj; eauto.
    - pose proof (wf_table _ _ _ _ Hwf _ _ Hk'). lia. }
  destruct (ensureDebouncer key w) as [w1 this]. cbn [fst snd] in *.
  pose proof (fireActionResult_core this rid req w1 Hreq1) as Hf.
  apply statusOf_same.
  - rewrite <- (Htab (getKey requestKey keyedByArgs)) by congruence.
    destruct (is_pending_equal (requestOf this w1) (requestSpec req)).
    + apply core_inv in Hf. destruct Hf as (_ & -> & _). reflexivity.
    + destruct Hf as (c' & evs & Hcore & _). apply core_inv in Hcore.
      destruct Hcore as (_ & -> & _). reflexivity.
  - intros this' Hk'. rewrite <- (Hdeb this') by (eapply wf_table; eauto).
    destruct (is_pending_equal (requestOf this w1) (requestSpec req)).
    + apply core_inv in Hf. destruct Hf as (-> & _). reflexivity.
    + destruct Hf as (c' & evs & Hcore & _). apply core_inv in Hcore.
      destruct Hcore as (-> & _). apply list_lookup_insert_ne.
      intros ->. eapply Hother; eauto.
Qed.

(** The clearing of a status changes the status of no key but its own. *)
Lemma clear_keeps_other_status requestKey keyedByArgs requestKey' keyedByArgs' w :
  getKey requestKey' keyedByArgs' <> getKey requestKey keyedByArgs ->
  statusOf requestKey keyedByArgs (step (ClearStatus requestKey' keyedByArgs') w)
  = statusOf requestKey keyedByArgs w.
Proof.
  intros Hne. cbn [step]. unfold clearRequestStatus.
  apply statusOf_same; cbn; [apply lookup_delete_ne; exact Hne|reflexivity].
Qed.

(** An event of a call changes the status of no key that is not requested:
    the debouncer that the call writes to has a request. *)
Lemma call_step_keeps_idle a cid requestKey keyedByArgs w :
  WF w -> action_call a = Some cid ->
  isRequested (statusOf requestKey keyedByArgs w) = false ->
  statusOf requestKey keyedByArgs (step a w) = statusOf requestKey keyedByArgs w.
Proof.
  intros Hwf Ha Hidle.
  destruct (calls w !! cid) as [c|] eqn:Hc; [|rewrite (step_no_call a cid); auto].
  destruct (wf_calls _ _ _ _ Hwf cid c Hc) as [r0 Hr].
  destruct (call_step_refines a cid c r0 w Ha Hc Hr) as [->|(evs & r1 & ph & t' & Hs & Hcore)];
    [reflexivity|].
  apply core_inv in Hcore. destruct Hcore as (Hd & Ht & _).
  apply statusOf_same; [rewrite Ht; reflexivity|].
  intros this Hk. rewrite Hd. apply list_lookup_insert_ne. intros Heq.
  unfold statusOf, getRequestStatus, ensureDebouncer in Hidle. rewrite Hk in Hidle.
  unfold requestIn in Hr. rewrite Heq in Hr.
  destruct (debouncers w !! this) as [d|]; [|discriminate].
  cbn in Hr, Hidle. unfold isRequested in Hidle. rewrite Hr in Hidle.
  rewrite bool_decide_eq_true_2 in Hidle by eauto. discriminate.
Qed.

(** A key that is not requested stays so through every action but a
    dispatch of the key. *)
Lemma idle_step a requestKey keyedByArgs w :
  WF w -> table_inv (apiRequestDebouncers w) ->
  dispatches (getKey requestKey keyedByArgs) a w = false ->
  isRequested (statusOf requestKey keyedByArgs w) = false ->
  isRequested (statusOf requestKey keyedByArgs (step a w)) = false.
Proof.
  intros Hwf Hinj Hno Hidle.
  destruct (action_call a) as [cid|] eqn:Ha;
    [rewrite (call_step_keeps_idle a cid) by assumption; exact Hidle|].
  destruct a as [spec|actionName rid| | | |requestKey' keyedByArgs'|requestKey' keyedByArgs'];
    try discriminate.
  - cbn [step]. erewrite statusOf_same; [exact Hidle|reflexivity|intros; reflexivity].
  - cbn [dispatches] in Hno. destruct (apiRequests w !! rid) as [req|] eqn:Hreq.
    + rewrite (dispatch_keeps_other_status actionName rid req); try assumption.
      intros Heq. rewrite Heq, String.eqb_refl in Hno. discriminate.
    + cbn [step]. unfold wrappedActionFn. rewrite Hreq. exact Hidle.
  - cbn [step]. rewrite read_keeps_status by exact Hwf. exact Hidle.
  - destruct (decide (getKey requestKey' keyedByArgs' = getKey requestKey keyedByArgs))
      as [Heq|Hne].
    + cbn [step]. rewrite statusOf_absent; [reflexivity|].
      rewrite <- Heq. unfold clearRequestStatus.
      cbn [apiRequestDebouncers set_apiRequestDebouncers]. apply lookup_delete_eq.
    + rewrite clear_keeps_other_status by exact Hne. exact Hidle.
Qed.

Lemma idle_run delayed requestKey keyedByArgs acts : forall before,
  isRequested (statusOf requestKey keyedByArgs (run before (init delayed))) = false ->
  never_dispatched (getKey requestKey keyedByArgs) acts (run before (init delayed)) = true ->
  isRequested (statusOf requestKey keyedByArgs (run acts (run before (init delayed)))) = false.
Proof.
  induction acts as [|a acts IH]; intros before Hidle Hnever; [exact Hidle|].
  cbn [never_dispatched] in Hnever. apply andb_prop in Hnever. destruct Hnever as [Hno Hnever].
  apply negb_true_iff in Hno.
  change (run (a :: acts) (run before (init delayed)))
    with (run acts (step a (run before (init delayed)))).
  rewrite <- run_snoc in *. apply IH; [|exact Hnever].
  rewrite run_snoc. apply idle_step; [apply WF_run|apply table_inv_run|exact Hno|exact Hidle].
Qed.

(** ** Deduplication *)

(** A deduplicated dispatch starts no call, calls no hook and leaves the
    request status as it is. *)
Lemma deduplicated_dispatch_is_silent this rid req w :
  apiRequests w !! rid = Some req ->
  is_pending_equal (requestOf this w) (requestSpec req) = true ->
  core (fireActionResult this rid w) = core w.
Proof.
  intros Hreq Hd. pose proof (fireActionResult_core this rid req w Hreq) as H.
  rewrite Hd in H. exact H.
Qed.

(** Two callers of one pending request that fails with a response: both
    calls of [fireActionResult] return, with the same failure. *)
Lemma deduplicated_callers_agree_on_a_response :
  let w := run [NewApiRequest LOGIN; Dispatch "LOGIN" 0;
                NewApiRequest (AGAIN LOGIN); Dispatch "LOGIN" 1;
                ApiSettles 0 (Throws (httpError 500))] (init false) in
  length (List.filter is_api (trace w)) = 1
  /\ f_state <$> fires w = [FireReturned; FireReturned]
  /\ result <$> apiRequests w
     = [Returns (Failure (Some (httpError 500)) (Some (JStr "sorry", Some 500%Z)));
        Returns (Failure (Some (httpError 500)) (Some (JStr "sorry", Some 500%Z)))].
Proof. vm_compute. repeat split. Qed.

(** C1: a dispatch whose params are deep-equal to the payload of the pending
    request of its key starts no call of the api and calls no hook: the
    request status, the calls and the trace stay as they are.  But the two
    callers do not always observe the same outcome.  LOGIN is dispatched
    twice while the first request is pending, the second time with params
    deep-equal to the stored payload, and the call fails without a response:
    the api is called once, no hook is called twice and the second caller
    awaits the promise of the pending request; the [fireActionResult] of
    the first caller throws a TypeError and leaves its request without a
    result, that of the second returns and sets the failure. *)
Theorem C1_deduplicated_callers_disagree_without_response :
  (forall this rid req w,
     apiRequests w !! rid = Some req ->
     is_pending_equal (requestOf this w) (requestSpec req) = true ->
     core (fireActionResult this rid w) = core w)
  /\ let w := run [NewApiRequest LOGIN; Dispatch "LOGIN" 0;
                   NewApiRequest (AGAIN LOGIN); Dispatch "LOGIN" 1;
                   ApiSettles 0 (Throws networkError)] (init false) in
     length (List.filter is_api (trace w)) = 1
     /\ List.filter is_hook (trace w) = [EvOptimistic 0; EvRollback 0 []]
     /\ f_awaits <$> fires w = [Some (AwaitCall 0); Some (AwaitSignal 0)]
     /\ promises w = [Some (TRError networkError)]
     /\ f_state <$> fires w = [FireThrew (TypeError "status"); FireReturned]
     /\ result <$> apiRequests w
        = [Throws (Error "You must await the request to access the result");
           Returns (Failure (Some networkError) (Some (JUndefined, None)))].
Proof.
  split.
  - intros this rid req w Hreq Hdup.
    eapply deduplicated_dispatch_is_silent; eassumption.
  - vm_compute. repeat split.
Qed.

(** ** Failures without a response *)

(** C2: the call of a pending request fails with an error that has no
    response, there is no [onFail] and the rollback, if any, returns.  The
    request status gets the synthesized error and the promise of the
    request is resolved with the error, but the [fireActionResult] that
    awaits the call does not return: it throws the TypeError of
    [err.response.status]. *)
Theorem C2_no_response_rejects_fireActionResult cid c r f err w :
  calls w !! cid = Some c -> c_phase c = Calling ->
  requestOf (c_this c) w = Some r ->
  fires w !! c_fire c = Some f -> f_state f = FirePending ->
  f_awaits f = Some (AwaitCall cid) ->
  promises w !! c_completed c = Some None ->
  response err = None -> onFail (c_spec c) = None ->
  (forall e, c_optimisticRollbackFn c <> Some (Throws e)) ->
  let w' := step (ApiSettles cid (Throws err)) w in
  requestOf (c_this c) w' ≫= error = Some (ErrorMessage (message err))
  /\ promises w' !! c_completed c = Some (Some (TRError err))
  /\ f_state <$> fires w' !! c_fire c = Some (FireThrew (TypeError "status")).
Proof.
  intros Hc Hph Hr Hf Hst Haw Hp Hresp Hfail Hrb w'.
  assert (E : exists w1,
    w' = resumeFire (c_fire c) (Throws (TypeError "status"))
           (set_calls (<[cid := set_phase (Settled (Throws (TypeError "status"))) c]> (calls w1)) w1)
    /\ requestOf (c_this c) w1 ≫= error = Some (ErrorMessage (message err))
    /\ promises w1 = <[c_completed c := Some (TRError err)]> (promises w)
    /\ fires w1 !! c_fire c = Some f).
  { subst w'. unfold step. rewrite Hc, Hph. unfold run_async, in_try.
    unfold mbind at 1, M_bind at 1, emit at 1, modify at 1. cbv beta iota.
    unfold try_catch, mbind, M_bind, lift. cbv beta iota.
    match goal with |- context [catchBlock cid c err ?w0] =>
      destruct (catchBlock_no_response cid c err w0 r Hr Hresp Hfail Hrb)
        as (w1 & -> & Hr1 & Hp1 & Hc1 & Hf1) end.
    cbn in Hp1, Hc1, Hf1. rewrite Hc1, Hc. exists w1. rewrite Hc1.
    split; [reflexivity|]. split; [rewrite Hr1; reflexivity|].
    split; [rewrite Hp1, Hp; reflexivity|].
    apply Hf1; [exact Hf|]. unfold awaits_signal. rewrite Haw. reflexivity. }
  destruct E as (w1 & -> & Hr1 & Hp1 & Hf1).
  assert (Hlt : c_fire c < length (fires w1)) by (eapply lookup_lt_Some; eauto).
  split; [|split].
  - match goal with |- context [resumeFire ?a ?b ?w2] =>
      pose proof (resumeFire_core a b w2) as Hcore end.
    apply core_inv in Hcore. destruct Hcore as (Hd & _).
    unfold requestOf in *. rewrite Hd. exact Hr1.
  - rewrite resumeFire_promises. cbn. rewrite Hp1.
    apply list_lookup_insert_eq. eapply lookup_lt_Some; eauto.
  - unfold resumeFire. cbn. rewrite Hf1, Hst. cbn.
    rewrite list_lookup_insert_eq by exact Hlt. reflexivity.
Qed.

Lemma C2_no_response_rejects_fireActionResult_witness :
  let w' := run [NewApiRequest LOGIN; Dispatch "LOGIN" 0;
                 ApiSettles 0 (Throws networkError)] (init false) in
  requestOf 0 w' ≫= error = Some (ErrorMessage "Network Error")
  /\ promises w' !! 0 = Some (Some (TRError networkError))
  /\ f_state <$> fires w' !! 0 = Some (FireThrew (TypeError "status")).
Proof.
  refine (C2_no_response_rejects_fireActionResult 0
            (default (mkCall 0 LOGIN 0 None "" 0 Delaying)
               (calls (run [NewApiRequest LOGIN; Dispatch "LOGIN" 0] (init false)) !! 0))
            (default (pending 0 None LOGIN 0)
               (requestOf 0 (run [NewApiRequest LOGIN; Dispatch "LOGIN" 0] (init false))))
            (mkFire 0 (Some (AwaitCall 0)) FirePending)
            networkError
            (run [NewApiRequest LOGIN; Dispatch "LOGIN" 0] (init false))
            _ _ _ _ _ _ _ _ _ _);
    try (vm_compute; reflexivity).
  intros e. vm_compute. discriminate.
Defined.

(** ** The rollback of an optimistic update *)

(** C4, as the code has it: the rollback that the optimistic update of a
    call has returned is called without arguments; it has been called
    exactly once when the promise of [api] or of an awaited hook of the call
    was rejected, and not at all when none was. *)
Theorem C4_rollback_once_iff_a_promise_rejected delayed acts cid c rb :
  let w := run acts (init delayed) in
  calls w !! cid = Some c ->
  optimistic (c_spec c) = Some (Returns (Some rb)) ->
  Forall no_arguments (trace w)
  /\ (forall e, In (EvApiSettled cid (Throws e)) (trace w) -> rollbacks cid (trace w) = 1)
  /\ (forall e, In (EvHookSettled cid (Throws e)) (trace w) -> rollbacks cid (trace w) = 1)
  /\ (threw cid (trace w) = false -> rollbacks cid (trace w) = 0).
Proof.
  intros w Hc Hopt. destruct (rollback_inv_run delayed acts) as [Hna Hinv].
  destruct (Hinv cid c Hc) as (Hrb & _).
  pose proof (rollback_held_run delayed acts cid c Hc) as Hheld.
  unfold rollback_of in Hheld. rewrite Hopt in Hheld.
  unfold rollback_events in Hrb. rewrite Hheld in Hrb. fold w in Hrb, Hna. cbn in Hrb.
  assert (Hthrew : forall e, In e (trace w) -> thrown cid e = true -> threw cid (trace w) = true).
  { intros e Hin He. apply existsb_exists. eauto. }
  split; [exact Hna|]. split; [|split].
  - intros e Hin. rewrite Hrb, (Hthrew _ Hin); [reflexivity|]. cbn. apply Nat.eqb_refl.
  - intros e Hin. rewrite Hrb, (Hthrew _ Hin); [reflexivity|]. cbn. apply Nat.eqb_refl.
  - intros Hno. rewrite Hrb, Hno. reflexivity.
Qed.

Lemma C4_rollback_once_iff_a_promise_rejected_witness :
  let w := run [NewApiRequest LOGIN; Dispatch "LOGIN" 0;
                ApiSettles 0 (Throws (httpError 500))] (init false) in
  Forall no_arguments (trace w)
  /\ (forall e, In (EvApiSettled 0 (Throws e)) (trace w) -> rollbacks 0 (trace w) = 1)
  /\ (forall e, In (EvHookSettled 0 (Throws e)) (trace w) -> rollbacks 0 (trace w) = 1)
  /\ (threw 0 (trace w) = false -> rollbacks 0 (trace w) = 0).
Proof.
  refine (C4_rollback_once_iff_a_promise_rejected false
            [NewApiRequest LOGIN; Dispatch "LOGIN" 0; ApiSettles 0 (Throws (httpError 500))]
            0
            (default (mkCall 0 LOGIN 0 None "" 0 Delaying)
               (calls (run [NewApiRequest LOGIN; Dispatch "LOGIN" 0;
                            ApiSettles 0 (Throws (httpError 500))] (init false)) !! 0))
            (Returns tt) _ _);
    vm_compute; reflexivity.
Defined.

(** C4, against the claim: the api call of LOGIN succeeds and [onSuccess]
    then throws; the rollback of the optimistic update is called. *)
Lemma C4_rollback_after_successful_api_call :
  let w := run [NewApiRequest LOGIN; Dispatch "LOGIN" 0;
                ApiSettles 0 (Returns ok200);
                HookSettles 0 (Throws hookError)] (init false) in
  (c_optimisticRollbackFn <$> calls w !! 0) = Some (Some (Returns tt))
  /\ In (EvApiSettled 0 (Returns ok200)) (trace w)
  /\ (forall e, ~ In (EvApiSettled 0 (Throws e)) (trace w))
  /\ rollbacks 0 (trace w) = 1.
Proof.
  vm_compute. split; [reflexivity|]. split; [tauto|]. split; [|reflexivity].
  intros e H. repeat (destruct H as [H|H]; [discriminate|]). exact H.
Qed.

(** ** The first load of a key *)




(** ** The forced change set *)

(** C6, as the code has it: once the api call of a dispatch with an
    [onNewChangeSet] hook is fulfilled with a response whose
    [force_change_set_id] header is [id], and [id] is not empty, the hook
    has been called with [id] and the body of the response; and wherever
    [onSuccess] is called for that dispatch, the call of the hook and its
    return come before, in that order. *)
Theorem C6_onNewChangeSet_awaited_before_onSuccess delayed acts cid c request id :
  let w := run acts (init delayed) in
  calls w !! cid = Some c ->
  onNewChangeSet (c_spec c) = true ->
  force_change_set_id (headers request) = Some id -> id <> "" ->
  In (EvApiSettled cid (Returns request)) (trace w) ->
  In (EvNewChangeSet cid id (data request)) (trace w)
  /\ forall i body, trace w !! i = Some (EvOnSuccess cid body) ->
       exists j k, j < k /\ k < i
         /\ trace w !! j = Some (EvNewChangeSet cid id (data request))
         /\ trace w !! k = Some (EvHookSettled cid (Returns tt)).
Proof.
  intros w Hc Hhook Hid Hne Hin.
  destruct (hook_inv_run delayed acts cid c Hc) as [H1 H2 _ _]. fold w in H1, H2.
  assert (Hsw : needs_switch c request = true).
  { unfold needs_switch, header_truthy. rewrite Hid, Hhook.
    destruct (String.eqb_spec id ""); [contradiction|reflexivity]. }
  assert (Hev : switch_event cid request = EvNewChangeSet cid id (data request))
    by (unfold switch_event; rewrite Hid; reflexivity).
  rewrite <- Hev. split; [apply H1; assumption|].
  intros i body Hi. exact (H2 i body request Hi Hin Hsw).
Qed.

Lemma C6_onNewChangeSet_awaited_before_onSuccess_witness :
  let w := run [NewApiRequest LOGIN; Dispatch "LOGIN" 0;
                ApiSettles 0 (Returns forced200);
                HookSettles 0 (Returns tt)] (init false) in
  (trace w !! 8 = Some (EvOnSuccess 0 (JStr "welcome")))
  /\ In (EvNewChangeSet 0 "cs-123" (JStr "welcome")) (trace w)
  /\ forall i body, trace w !! i = Some (EvOnSuccess 0 body) ->
       exists j k, j < k /\ k < i
         /\ trace w !! j = Some (EvNewChangeSet 0 "cs-123" (JStr "welcome"))
         /\ trace w !! k = Some (EvHookSettled 0 (Returns tt)).
Proof.
  split; [vm_compute; reflexivity|].
  refine (C6_onNewChangeSet_awaited_before_onSuccess false
            [NewApiRequest LOGIN; Dispatch "LOGIN" 0; ApiSettles 0 (Returns forced200);
             HookSettles 0 (Returns tt)]
            0
            (default (mkCall 0 LOGIN 0 None "" 0 Delaying)
               (calls (run [NewApiRequest LOGIN; Dispatch "LOGIN" 0;
                            ApiSettles 0 (Returns forced200);
                            HookSettles 0 (Returns tt)] (init false)) !! 0))
            forced200 "cs-123" _ _ _ _ _).
  - vm_compute; reflexivity.
  - vm_compute; reflexivity.
  - reflexivity.
  - discriminate.
  - vm_compute. tauto.
Defined.

(** C6, against the claim: the api call of LOGIN, which has the hook, is
    rejected with the error of a response that carries the header; the
    [catch] block does not look at the headers, the hook is not called and
    the call is over. *)
Lemma C6_error_response_with_the_header_calls_no_hook :
  let w := run [NewApiRequest LOGIN; Dispatch "LOGIN" 0;
                ApiSettles 0 (Throws forced409)] (init false) in
  (onNewChangeSet <$> (c_spec <$> calls w !! 0)) = Some true
  /\ (response forced409 ≫= (fun r => force_change_set_id (headers r))) = Some "cs-123"
  /\ In (EvApiSettled 0 (Throws forced409)) (trace w)
  /\ (forall id body, ~ In (EvNewChangeSet 0 id body) (trace w))
  /\ (c_phase <$> calls w !! 0) = Some (Settled (Returns (TRError forced409))).
Proof.
  vm_compute. split; [reflexivity|]. split; [reflexivity|]. split; [tauto|].
  split; [|reflexivity].
  intros id body H. repeat (destruct H as [H|H]; [discriminate|]). exact H.
Qed.

(** ** Cleared statuses *)

(** C8, as the code has it: after [clearRequestStatus] the key reads as not
    requested, and it goes on to do so through whatever happens in the
    store, the reads of the key and the events of the calls that were
    pending included, until a request with that tracking key is dispatched;
    and the events of the calls do to the cleared store what they do to
    the store that was not cleared. *)
Theorem C8_cleared_key_stays_idle delayed before requestKey keyedByArgs acts :
  let w := run before (init delayed) in
  let cleared := clearRequestStatus requestKey keyedByArgs w in
  never_dispatched (getKey requestKey keyedByArgs) acts cleared = true ->
  isRequested (statusOf requestKey keyedByArgs (run acts cleared)) = false
  /\ (forall events, Forall (fun a => is_Some (action_call a)) events ->
      run events cleared = clearRequestStatus requestKey keyedByArgs (run events w)
      /\ apiRequestDebouncers (run events cleared) !! getKey requestKey keyedByArgs = None).
Proof.
  intros w cleared Hnever. split.
  - assert (E : cleared = run (before ++ [ClearStatus requestKey keyedByArgs]) (init delayed))
      by (rewrite run_snoc; reflexivity).
    rewrite E in *. apply idle_run; [|exact Hnever].
    rewrite <- E. apply eq_trans with (isRequested (mkApiRequestDebouncer None)); [|reflexivity].
    f_equal. apply statusOf_absent. subst cleared. unfold clearRequestStatus.
    cbn [apiRequestDebouncers set_apiRequestDebouncers]. apply lookup_delete_eq.
  - intros events Hevents.
    assert (E : run events cleared = clearRequestStatus requestKey keyedByArgs (run events w)).
    { subst cleared. unfold clearRequestStatus. rewrite run_calls_table by exact Hevents.
      rewrite (run_calls_keep_table events w Hevents). reflexivity. }
    split; [exact E|]. rewrite E. unfold clearRequestStatus.
    cbn [apiRequestDebouncers set_apiRequestDebouncers]. apply lookup_delete_eq.
Qed.

Lemma C8_cleared_key_stays_idle_witness :
  let w := run [NewApiRequest PLAIN; Dispatch "LOGIN" 0; NewApiRequest THING] (init false) in
  let cleared := clearRequestStatus "LOGIN" [] w in
  let acts := [ReadStatus "LOGIN" []; ApiSettles 0 (Returns ok200);
               Dispatch "GET_THING" 1; ClearStatus "GET_THING" []] in
  isRequested (statusOf "LOGIN" [] w) = true
  /\ isRequested (statusOf "LOGIN" [] (run acts cleared)) = false
  /\ (forall events, Forall (fun a => is_Some (action_call a)) events ->
      run events cleared = clearRequestStatus "LOGIN" [] (run events w)
      /\ apiRequestDebouncers (run events cleared) !! getKey "LOGIN" [] = None).
Proof.
  split; [vm_compute; reflexivity|].
  apply (C8_cleared_key_stays_idle false
           [NewApiRequest PLAIN; Dispatch "LOGIN" 0; NewApiRequest THING] "LOGIN" []
           [ReadStatus "LOGIN" []; ApiSettles 0 (Returns ok200);
            Dispatch "GET_THING" 1; ClearStatus "GET_THING" []]).
  vm_compute. reflexivity.
Defined.

(** C8, against the claim: LOGIN is dispatched, its status is cleared while
    the call is pending, and the call succeeds.  The caller has its result,
    but no request status is made for the key: it still reads as not
    requested. *)
Lemma C8_pending_call_recreates_nothing :
  let w := run [NewApiRequest PLAIN; Dispatch "LOGIN" 0;
                ClearStatus "LOGIN" [];
                ApiSettles 0 (Returns ok200)] (init false) in
  result <$> apiRequests w !! 0 = Some (Returns (Success (JStr "welcome")))
  /\ apiRequestDebouncers w !! "LOGIN" = None
  /\ isRequested (statusOf "LOGIN" [] w) = false.
Proof. vm_compute. repeat split. Qed.

(** ** The result of a request *)

(** C10: the [result] of a request throws as long as no [fireActionResult]
    for it has returned; once one has, it is a success with the data of the
    request or a failure with its error, and with [errBody] and
    [statusCode] if that is an [AxiosError]; and it is the success or the
    failure that the trigger result is, when [fireActionResult] goes on with
    one. *)
Theorem C10_result_throws_until_fireActionResult_returns delayed acts rid req :
  let w := run acts (init delayed) in
  apiRequests w !! rid = Some req ->
  (~ returned_for rid (fires w) ->
     result req = Throws (Error "You must await the request to access the result"))
  /\ (returned_for rid (fires w) ->
        (rawSuccess req = Some true /\ result req = Returns (Success (rawResponseData req)))
        \/ exists err, rawSuccess req = Some false /\ rawResponseError req = Some err
             /\ result req
                = Returns (Failure (Some err)
                    (if isAxiosError err
                     then Some (from_option data JUndefined (response err),
                                response err ≫= status)
                     else None)))
  /\ (forall fid f v, fires w !! fid = Some f -> f_state f = FirePending ->
        f_request f = rid ->
        result <$> apiRequests (resumeFire fid (Returns (Some v)) w) !! rid
        = Some (Returns
            match v with
            | TRData d => Success d
            | TRError err =>
                Failure (Some err)
                  (if isAxiosError err
                   then Some (from_option data JUndefined (response err),
                              response err ≫= status)
                   else None)
            end)).
Proof.
  intros w Hreq. destruct (awaited_inv_run delayed acts) as [_ H2 H3]. fold w in H2, H3.
  specialize (H2 rid req Hreq). specialize (H3 rid req Hreq).
  split; [|split].
  - intros Hno. unfold result. destruct (rawSuccess req) as [b|]; [|reflexivity].
    exfalso. apply Hno. apply H2. eauto.
  - intros Hret. apply H2 in Hret. destruct Hret as [b Hb]. unfold result. rewrite Hb.
    destruct b; [left; auto|]. right. destruct (H3 Hb) as [err Herr].
    exists err. rewrite Herr. auto.
  - intros fid f v Hf Hst Hrid. unfold resumeFire. rewrite Hf, Hst.
    destruct v as [d|err]; cbn; rewrite Hrid, list_lookup_alter_eq, Hreq; reflexivity.
Qed.

Lemma C10_result_throws_until_fireActionResult_returns_witness :
  let w := run [NewApiRequest PLAIN; Dispatch "LOGIN" 0;
                ApiSettles 0 (Returns ok200)] (init false) in
  let req := setSuccessfulResult (JStr "welcome") (newApiRequest (stamped 0 PLAIN)) in
  apiRequests w !! 0 = Some req
  /\ result req = Returns (Success (JStr "welcome"))
  /\ (~ returned_for 0 (fires w) ->
        result req = Throws (Error "You must await the request to access the result"))
  /\ (returned_for 0 (fires w) ->
        (rawSuccess req = Some true /\ result req = Returns (Success (rawResponseData req)))
        \/ exists err, rawSuccess req = Some false /\ rawResponseError req = Some err
             /\ result req
                = Returns (Failure (Some err)
                    (if isAxiosError err
                     then Some (from_option data JUndefined (response err),
                                response err ≫= status)
                     else None)))
  /\ (forall fid f v, fires w !! fid = Some f -> f_state f = FirePending ->
        f_request f = 0 ->
        result <$> apiRequests (resumeFire fid (Returns (Some v)) w) !! 0
        = Some (Returns
            match v with
            | TRData d => Success d
            | TRError err =>
                Failure (Some err)
                  (if isAxiosError err
                   then Some (from_option data JUndefined (response err),
                              response err ≫= status)
                   else None)
            end)).
Proof.
  split; [vm_compute; reflexivity|]. split; [reflexivity|].
  apply (C10_result_throws_until_fireActionResult_returns false
           [NewApiRequest PLAIN; Dispatch "LOGIN" 0; ApiSettles 0 (Returns ok200)] 0
           (setSuccessfulResult (JStr "welcome") (newApiRequest (stamped 0 PLAIN)))).
  vm_compute. reflexivity.
Defined.


(** * Further properties of the code *)

(** ** The request statuses of a run *)

Section Requests.

Variable Q : RawApiRequestStatus -> Prop.

Hypothesis Q_receivedAt : forall t r, Q r -> Q (set_receivedAt t r).
Hypothesis Q_lastSuccessAt : forall t r, Q r -> Q (set_lastSuccessAt t r).
Hypothesis Q_error : forall e r, Q r -> Q (set_error e r).

Lemma all_requests_core w w' :
  debouncers w' = debouncers w -> all_requests Q w -> all_requests Q w'.
Proof. intros Hd H this r Hr. apply (H this). unfold requestOf in *. congruence. Qed.

Lemma kr_ret {A} (a : A) : keeps_requests Q (mret a).
Proof. intros w H. exact H. Qed.

Lemma kr_throw {A} e : keeps_requests Q (@throw A e).
Proof. intros w H. exact H. Qed.

Lemma kr_lift {A} (o : Thrown A) : keeps_requests Q (lift o).
Proof. intros w H. exact H. Qed.

Lemma kr_bind {A B} (m : M A) (f : A -> M B) :
  keeps_requests Q m -> (forall a, keeps_requests Q (f a)) -> keeps_requests Q (m ≫= f).
Proof.
  intros Hm Hf w H. unfold mbind, M_bind. specialize (Hm w H).
  destruct (m w) as [[a|e] w1]; cbn in *; [apply Hf; exact Hm|exact Hm].
Qed.

Lemma kr_try_catch {A} (m : M A) (h : JsError -> M A) :
  keeps_requests Q m -> (forall e, keeps_requests Q (h e)) -> keeps_requests Q (try_catch m h).
Proof.
  intros Hm Hh w H. unfold try_catch. specialize (Hm w H).
  destruct (m w) as [[a|e] w1]; cbn in *; [exact Hm|apply Hh; exact Hm].
Qed.

Lemma kr_emit e : keeps_requests Q (emit e).
Proof. intros w H. exact H. Qed.

Lemma kr_newDate : keeps_requests Q newDate.
Proof. intros w H. exact H. Qed.

Lemma kr_update_request this field f :
  (forall r, Q r -> Q (f r)) -> keeps_requests Q (update_request this field f).
Proof.
  intros Hf w H. unfold update_request, this_request, assign_request, modify, gets, throw.
  unfold mbind, M_bind. cbn.
  destruct (debouncers w !! this) as [[[r0|]]|] eqn:Hd; cbn; try exact H.
  intros this' r Hr. unfold requestOf in Hr. cbn in Hr.
  destruct (decide (this' = this)) as [->|Hne].
  - rewrite list_lookup_insert_eq in Hr by (eapply lookup_lt_Some; eauto).
    injection Hr as <-. apply Hf. apply (H this). unfold requestOf. rewrite Hd. reflexivity.
  - rewrite list_lookup_insert_ne in Hr by congruence. apply (H this'). exact Hr.
Qed.

Lemma kr_resolve p v : keeps_requests Q (resolve p v).
Proof.
  intros w H. destruct (resolve_spec p v w) as (w' & E & Hcore & _). rewrite E. cbn.
  apply core_inv in Hcore. destruct Hcore as (Hd & _).
  eapply all_requests_core; [exact Hd|exact H].
Qed.

Lemma kr_return_await p : keeps_requests Q (return_await p).
Proof.
  intros w H. unfold return_await, gets, mbind, M_bind. cbn.
  destruct (promises w !! p) as [[?|]|]; exact H.
Qed.

Ltac keeping_requests :=
  repeat match goal with
    | |- keeps_requests _ (mbind _ _) => apply kr_bind; [|intros ?]
    | |- keeps_requests _ (mret _) => apply kr_ret
    | |- keeps_requests _ (throw _) => apply kr_throw
    | |- keeps_requests _ (lift _) => apply kr_lift
    | |- keeps_requests _ (emit _) => apply kr_emit
    | |- keeps_requests _ newDate => apply kr_newDate
    | |- keeps_requests _ (update_request _ _ (set_receivedAt _)) =>
        apply kr_update_request; apply Q_receivedAt
    | |- keeps_requests _ (update_request _ _ (set_lastSuccessAt _)) =>
        apply kr_update_request; apply Q_lastSuccessAt
    | |- keeps_requests _ (update_request _ _ (set_error _)) =>
        apply kr_update_request; apply Q_error
    | |- keeps_requests _ (resolve _ _) => apply kr_resolve
    | |- keeps_requests _ (return_await _) => apply kr_return_await
    | |- keeps_requests _ (try_catch _ _) => apply kr_try_catch; [|intros ?]
    | |- keeps_requests _ (match ?x with _ => _ end) => destruct x
    | |- keeps_requests _ (if ?x then _ else _) => destruct x
    end.

Lemma kr_succeed cid c request : keeps_requests Q (succeed cid c request).
Proof. unfold succeed. keeping_requests. Qed.

Lemma kr_received cid c request : keeps_requests Q (received cid c request).
Proof. unfold received. keeping_requests. apply kr_succeed. Qed.

Lemma kr_responded cid c request : keeps_requests Q (responded cid c request).
Proof. unfold responded. keeping_requests. apply kr_received. Qed.

Lemma kr_catchBlock cid c err : keeps_requests Q (catchBlock cid c err).
Proof. unfold catchBlock, rollBack, callOnFail, storeError. keeping_requests. Qed.

Lemma kr_run_async cid body w :
  keeps_requests Q body -> all_requests Q w -> all_requests Q (run_async cid body w).
Proof.
  intros Hb H. unfold run_async. specialize (Hb w H). destruct (body w) as [o w1]. cbn in Hb.
  destruct (calls w1 !! cid) as [c|]; [|exact Hb].
  destruct o as [[ph|v]|e]; [exact Hb| |];
    (eapply all_requests_core; [|exact Hb]);
    match goal with |- context [resumeFire ?f ?o ?w0] =>
      pose proof (resumeFire_core f o w0) as Hcore end;
    apply core_inv in Hcore; destruct Hcore as (Hd & _); exact Hd.
Qed.

Lemma kr_step_call a cid w :
  action_call a = Some cid -> all_requests Q w -> all_requests Q (step a w).
Proof.
  intros Ha H. destruct a as [| |cid'|cid' o|cid' o| |]; try discriminate; cbn [step];
    destruct (calls w !! cid') as [c0|]; try exact H;
    destruct (c_phase c0); try exact H;
    (apply kr_run_async; [|exact H]); unfold in_try, issue; keeping_requests;
    first [apply kr_responded | apply kr_received | apply kr_succeed | apply kr_catchBlock].
Qed.

(** The request status that a call starts with. *)
Hypothesis Q_pending : forall t prior spec cid p, Q (pending t prior (stamped cid spec) p).

Lemma kr_fireActionResult this rid w :
  all_requests Q w -> all_requests Q (fireActionResult this rid w).
Proof.
  intros H. destruct (apiRequests w !! rid) as [req|] eqn:Hreq;
    [|unfold fireActionResult; rewrite Hreq; exact H].
  pose proof (fireActionResult_core this rid req w Hreq) as Hf.
  destruct (is_pending_equal (requestOf this w) (requestSpec req)).
  - apply core_inv in Hf. destruct Hf as (Hd & _). eapply all_requests_core; eauto.
  - destruct Hf as (c' & evs & Hcore & _). apply core_inv in Hcore. destruct Hcore as (Hd & _).
    intros this' r Hr. unfold requestOf in Hr. rewrite Hd in Hr.
    destruct (decide (this' = this)) as [->|Hne].
    + destruct (decide (this < length (debouncers w))) as [Hlt|Hge].
      * rewrite list_lookup_insert_eq in Hr by exact Hlt. injection Hr as <-. apply Q_pending.
      * rewrite list_insert_ge in Hr by lia. apply (H this). exact Hr.
    + rewrite list_lookup_insert_ne in Hr by congruence. apply (H this'). exact Hr.
Qed.

Lemma kr_ensureDebouncer key w :
  all_requests Q w -> all_requests Q (ensureDebouncer key w).1.
Proof.
  intros H. destruct (ensureDebouncer_spec key w) as [(this & _ & ->)|[_ ->]]; [exact H|].
  intros this r Hr. apply (H this). rewrite requestOf_requestIn in *. cbn in Hr.
  rewrite requestIn_app_None in Hr. exact Hr.
Qed.

Lemma kr_step a w : all_requests Q w -> all_requests Q (step a w).
Proof.
  intros H. destruct (action_call a) as [cid|] eqn:Ha; [eapply kr_step_call; eauto|].
  destruct a as [spec|actionName rid| | | |requestKey keyedByArgs|requestKey keyedByArgs];
    try discriminate; cbn [step].
  - exact H.
  - unfold wrappedActionFn. destruct (apiRequests w !! rid) as [req|]; [|exact H].
    pose proof (kr_ensureDebouncer
                  (getTrackingKey actionName (keyRequestStatusBy (requestSpec req))) w H) as He.
    destruct (ensureDebouncer _ w) as [w1 this]. apply kr_fireActionResult. exact He.
  - apply kr_ensureDebouncer. exact H.
  - exact H.
Qed.

Theorem requests_ind delayed acts : all_requests Q (run acts (init delayed)).
Proof.
  induction acts as [|a acts IH] using rev_ind.
  - intros this r Hr. unfold requestOf in Hr. cbn in Hr. rewrite lookup_nil in Hr. discriminate.
  - rewrite run_snoc. apply kr_step. exact IH.
Qed.

End Requests.

Lemma stamped_request_run delayed acts : all_requests stamped_request (run acts (init delayed)).
Proof.
  apply requests_ind.
  - intros t r H. exact H.
  - intros t r H. exact H.
  - intros e r H. exact H.
  - intros t prior spec cid p. split; [|eauto].
    exists (ulid cid). cbn. apply lookup_insert_eq.
Qed.

(** ** Deduplication and the request ulid *)




(** X2: A dispatch that is deduplicated is always handed a promise: no store
    that a run reaches has a request status without one. *)
Theorem deduplicated_dispatch_has_a_promise delayed acts this rid fid spec :
  (triggerApiRequest this rid fid spec (run acts (init delayed))).1
  <> Returns (Deduplicated None).
Proof.
  set (w := run acts (init delayed)).
  destruct (is_pending_equal (requestOf this w) spec) eqn:Hdup.
  - rewrite (triggerApiRequest_deduplicated _ _ _ _ _ Hdup). cbn.
    destruct (requestOf this w) as [r|] eqn:Hr; [|discriminate].
    destruct (stamped_request_run delayed acts this r Hr) as [_ [p Hp]].
    cbn. rewrite Hp. discriminate.
  - destruct (triggerApiRequest_started this rid fid spec w Hdup)
      as (o & w' & c' & evs & -> & _ & _ & _ & _ & _ & _ & _ & _ & Ho).
    cbn. destruct Ho as [[-> _]|(e & -> & _)]; discriminate.
Qed.

(** ** The status of a key *)

Lemma error_inv_run delayed acts : error_inv (debouncers (run acts (init delayed))).
Proof.
  apply (run_ind (fun D _ _ _ => error_inv D)).
  - intros this r Hr. unfold requestIn in Hr. rewrite lookup_nil in Hr. discriminate.
  - intros D T Cs Tr key _ H _ this r Hr. rewrite requestIn_app_None in Hr. eauto.
  - intros D T Cs Tr key _ H. exact H.
  - intros D T Cs Tr this fid p spec c' evs t _ H Hthis _ _ this' r Hr.
    destruct (decide (this = this')) as [<-|Hne].
    + rewrite requestIn_insert_eq in Hr by assumption. injection Hr as <-.
      intros [e He]. discriminate.
    + rewrite requestIn_insert_ne in Hr by assumption. eauto.
  - intros D T Cs Tr cid c r0 t a evs r1 ph _ H Hc Hr0 Hs this r Hr.
    assert (Hthis : c_this c < length D) by (apply requestIn_lt; rewrite Hr0; eauto).
    destruct (decide (c_this c = this)) as [<-|Hne].
    + rewrite requestIn_insert_eq in Hr by assumption. injection Hr as <-.
      pose proof (H _ _ Hr0) as H0.
      destruct Hs as [ | resp Hsw | resp ph Hsw Haft | err evs r1 ph Hcaught | resp ph Haft
                     | resp err evs r1 ph Hcaught | resp ph Hret | resp err evs r1 ph Hcaught ];
        try exact H0;
        intros _; try (unfold marked; cbn; eauto);
        destruct Hcaught as (_ & _ & Hrec & _); rewrite Hrec; eauto.
    + rewrite requestIn_insert_ne in Hr by assumption. eauto.
Qed.

Lemma decide_is_Some_Some {A} (x : A) : bool_decide (is_Some (Some x)) = true.
Proof. apply bool_decide_eq_true_2. eauto. Qed.

Lemma decide_is_Some_None {A} : bool_decide (is_Some (@None A)) = false.
Proof. apply bool_decide_eq_false_2. intros [? ?]. discriminate. Qed.

(** What a read of a key returns: a debouncer of the store, or a new one. *)
Lemma statusOf_cases requestKey keyedByArgs w :
  WF w ->
  statusOf requestKey keyedByArgs w = mkApiRequestDebouncer None
  \/ exists this, debouncers w !! this = Some (statusOf requestKey keyedByArgs w).
Proof.
  intros Hwf. unfold statusOf, getRequestStatus.
  destruct (ensureDebouncer_spec (getKey requestKey keyedByArgs) w)
    as [(this & Hk & ->)|[_ ->]]; cbn.
  - destruct (debouncers w !! this) as [d|] eqn:Hd; [right; eauto|left; reflexivity].
  - left. rewrite lookup_app_r by lia. rewrite Nat.sub_diag. reflexivity.
Qed.

(** X3: The status of a key is in exactly one of four states, which
    [getLoadStatus] names: not requested, pending, failed or successful.
    In particular a status with an error is never pending. *)
Theorem load_status_of_a_key delayed acts requestKey keyedByArgs :
  let d := statusOf requestKey keyedByArgs (run acts (init delayed)) in
  let s := getLoadStatus {| requestStatus := Some (asStatus d); asyncState := None |} in
  (s = uninitialized <-> isRequested d = false)
  /\ (s = loading <-> isPending d = true)
  /\ (s = load_error <-> isError d = true)
  /\ (s = load_success <-> isSuccess d = true).
Proof.
  intros d s.
  assert (Herr : forall r, request d = Some r -> is_Some (error r) -> is_Some (receivedAt r)).
  { destruct (statusOf_cases requestKey keyedByArgs _ (WF_run delayed acts)) as [E|[this Hd]];
      fold d in E || fold d in Hd.
    - rewrite E. discriminate.
    - intros r Hr. apply (error_inv_run delayed acts this). unfold requestIn.
      rewrite Hd. exact Hr. }
  subst s. unfold getLoadStatus, asStatus. cbn.
  unfold isRequested, isPending, isError, isSuccess.
  destruct (request d) as [r|]; cbn.
  - specialize (Herr r eq_refl).
    destruct (receivedAt r) as [t|]; destruct (error r) as [e|]; cbn in *;
      rewrite ?decide_is_Some_Some, ?decide_is_Some_None; cbn;
      try (assert (Hbad : is_Some (@None nat)) by (apply Herr; eauto);
           destruct Hbad as [x Hx]; discriminate Hx);
      repeat split; intros; try discriminate; reflexivity.
  - rewrite ?decide_is_Some_None. cbn. repeat split; intros; try discriminate; reflexivity.
Qed.

(** ** A dispatch and the reads of its key *)




(** X5: The read of a status, which makes the debouncer of a key that has none,
    changes what no read returns. *)
Theorem reading_a_status_changes_no_status delayed acts requestKey keyedByArgs
    requestKey' keyedByArgs' :
  let w := run acts (init delayed) in
  statusOf requestKey' keyedByArgs' (getRequestStatus requestKey keyedByArgs w).1
  = statusOf requestKey' keyedByArgs' w.
Proof.
  intros w. pose proof (WF_run delayed acts) as Hwf. fold w in Hwf.
  apply read_keeps_status. exact Hwf.
Qed.

(** ** apiData *)

(** X6: Once the wrapped action has returned, [apiData] returns the data of a
    successful request and throws the error of a failed one: it throws
    neither [undefined] nor the error of a [result] read too early. *)
Theorem apiData_of_a_returned_action delayed acts fid f :
  let w := run acts (init delayed) in
  fires w !! fid = Some f -> f_state f = FireReturned ->
  exists request, apiRequests w !! f_request f = Some request
    /\ ((rawSuccess request = Some true
         /\ apiData fid w = Some (Returns (rawResponseData request)))
        \/ exists err, rawSuccess request = Some false
             /\ rawResponseError request = Some err
             /\ apiData fid w = Some (Throws (Some err))).
Proof.
  intros w Hf Hst. destruct (awaited_inv_run delayed acts) as [H1 H2 H3].
  fold w in H1, H2, H3.
  destruct (lookup_lt_is_Some_2 (apiRequests w) (f_request f) (H1 _ _ Hf)) as [request Hreq].
  exists request. split; [exact Hreq|].
  assert (Hret : returned_for (f_request f) (fires w)) by (exists fid, f; auto).
  apply (H2 _ _ Hreq) in Hret. destruct Hret as [b Hb].
  unfold apiData. rewrite Hf. cbn. rewrite Hst, Hreq. cbn. unfold result. rewrite Hb.
  destruct b.
  - left. split; reflexivity.
  - right. destruct (H3 _ _ Hreq Hb) as [err Herr]. exists err. rewrite Herr. auto.
Qed.

Lemma apiData_of_a_returned_action_witness :
  let w := run [NewApiRequest PLAIN; Dispatch "LOGIN" 0;
                ApiSettles 0 (Throws (httpError 500))] (init false) in
  exists request, apiRequests w !! 0 = Some request
    /\ ((rawSuccess request = Some true
         /\ apiData 0 w = Some (Returns (rawResponseData request)))
        \/ exists err, rawSuccess request = Some false
             /\ rawResponseError request = Some err
             /\ apiData 0 w = Some (Throws (Some err))).
Proof.
  apply (apiData_of_a_returned_action false
           [NewApiRequest PLAIN; Dispatch "LOGIN" 0; ApiSettles 0 (Throws (httpError 500))]
           0 (mkFire 0 (Some (AwaitCall 0)) FireReturned)); vm_compute; reflexivity.
Defined.

(** ** Url patterns *)

Lemma describePattern_go_bad whole pattern p _url _urlName :
  List.find bad_segment pattern = Some p ->
  describePattern_go whole pattern _url _urlName = Throws (BadURLPattern whole p).
Proof.
  revert _url _urlName. induction pattern as [|q pattern IH]; intros _url _urlName; [discriminate|].
  cbn [List.find]. unfold bad_segment at 1.
  destruct q as [s|[|[key [v|]] entries]]; cbn [segment_parts describePattern_go].
  - apply IH.
  - intros [= <-]. reflexivity.
  - destruct (String.eqb v ""); [intros [= <-]; reflexivity|apply IH].
  - intros [= <-]. reflexivity.
Qed.

Lemma describePattern_go_parts whole pattern _url _urlName :
  List.find bad_segment pattern = None ->
  exists parts, mapM segment_parts pattern = Some parts
    /\ describePattern_go whole pattern _url _urlName
       = Returns (_url ++ parts.*1, _urlName ++ parts.*2).
Proof.
  revert _url _urlName. induction pattern as [|q pattern IH]; intros _url _urlName.
  - intros _. exists []. cbn. rewrite !app_nil_r. auto.
  - cbn [List.find]. unfold bad_segment at 1.
    destruct q as [s|[|[key [v|]] entries]]; cbn [segment_parts describePattern_go mapM];
      try discriminate.
    + intros Hfind. destruct (IH (_url ++ [s]) (_urlName ++ [s]) Hfind) as (parts & -> & ->).
      eexists. split; [reflexivity|]. cbn. rewrite <- !app_assoc. reflexivity.
    + destruct (String.eqb v ""); [discriminate|]. intros Hfind.
      destruct (IH (_url ++ [v]) (_urlName ++ [":" +:+ key]) Hfind) as (parts & -> & ->).
      eexists. split; [reflexivity|]. cbn. rewrite <- !app_assoc. reflexivity.
Qed.

Lemma pattern_texts_printable pattern :
  forallb printable pattern = true -> pattern_texts pattern = Returns (plain_text <$> pattern).
Proof.
  induction pattern as [|q pattern IH]; [reflexivity|].
  cbn [forallb]. intros [Hq Hrest]%andb_prop. cbn [pattern_texts]. rewrite (IH Hrest).
  destruct q as [s|entries]; [reflexivity|]. cbn in *.
  destruct (bool_decide ("toString" ∈ entries.*1)); [discriminate|reflexivity].
Qed.

(** X7: [describePattern] throws exactly when an element of the pattern is an
    object without a first value, or with an empty one.  For the first such
    element it throws the error with the message "Bad URLPattern", the
    pattern and the element, both converted to strings; that conversion
    throws itself when an object of the pattern has an entry named
    [toString].  Otherwise the url and its name have one segment for each
    element, in order, joined with slashes: the element itself for a string,
    and for an object its first value in the url and its first key after a
    colon in the name. *)
Theorem describePattern_by_segments pattern :
  match List.find bad_segment pattern with
  | None =>
      exists parts, mapM segment_parts pattern = Some parts
        /\ describePattern pattern
           = Returns (String.concat "/" parts.*1, String.concat "/" parts.*2)
  | Some p =>
      describePattern pattern = Throws (BadURLPattern pattern p)
      /\ BadURLPattern pattern p
         = (if forallb printable pattern
            then Error ("Bad URLPattern " +:+ String.concat "," (plain_text <$> pattern)
                        +:+ " with: [object Object]")
            else ConversionError)
  end.
Proof.
  destruct (List.find bad_segment pattern) as [p|] eqn:Hfind.
  - split.
    + unfold describePattern. rewrite (describePattern_go_bad pattern pattern p [] [] Hfind).
      reflexivity.
    + destruct (List.find_some _ _ Hfind) as [Hin Hbad].
      assert (Hobj : exists entries, p = SegObj entries).
      { destruct p as [s|entries]; [discriminate|eauto]. }
      destruct Hobj as [entries ->].
      unfold BadURLPattern.
      destruct (forallb printable pattern) eqn:Hall.
      * rewrite (pattern_texts_printable pattern Hall).
        rewrite forallb_forall in Hall. specialize (Hall _ Hin). cbn in Hall |- *.
        destruct (bool_decide ("toString" ∈ entries.*1)); [discriminate|reflexivity].
      * assert (Hthrows : pattern_texts pattern = Throws ConversionError).
        { clear Hfind Hin Hbad. induction pattern as [|q pattern IH]; [discriminate|].
          cbn [forallb] in Hall. cbn [pattern_texts].
          destruct q as [s|entries']; cbn [segment_text printable] in *.
          - rewrite IH by exact Hall. reflexivity.
          - destruct (bool_decide ("toString" ∈ entries'.*1)); [reflexivity|].
            rewrite IH by exact Hall. reflexivity. }
        rewrite Hthrows. reflexivity.
  - destruct (describePattern_go_parts pattern pattern [] [] Hfind) as (parts & Hparts & Hgo).
    exists parts. split; [exact Hparts|]. unfold describePattern. rewrite Hgo. reflexivity.
Qed.

(** ** A descriptor without url *)

(** X8: A request without url is dispatched: the request status is made and
    the optimistic update is done before [triggerApiRequest] throws, outside
    its [try] block.  The caller gets the error; the api is not called, the
    rollback is not called, the promise of the request is not resolved and
    the status stays pending, whatever the event loop brings for the call. *)
Theorem dispatch_without_url this rid req w :
  apiRequests w !! rid = Some req -> url (requestSpec req) = None ->
  is_pending_equal (requestOf this w) (requestSpec req) = false ->
  (forall e, optimistic (requestSpec req) <> Some (Throws e)) ->
  this < length (debouncers w) ->
  let w' := fireActionResult this rid w in
  let cid := length (calls w) in
  f_state <$> fires w' !! length (fires w) = Some (FireThrew (Error "URL is required"))
  /\ isPending <$> debouncers w' !! this = Some true
  /\ trace w' = trace w ++ EvStatus this cid Requested
                  :: match optimistic (requestSpec req) with
                     | Some _ => [EvOptimistic cid]
                     | None => []
                     end
  /\ promises w' = promises w ++ [None]
  /\ forall a, action_call a = Some cid -> step a w' = w'.
Proof.
  intros Hreq Hurl Hdup Hopt Hthis w' cid.
  set (w0 := set_fires (fires w ++ [mkFire rid None FirePending]) w).
  assert (E : exists wt c',
    triggerApiRequest this rid (length (fires w)) (requestSpec req) w0
    = (Throws (Error "URL is required"), wt)
    /\ debouncers wt
       = <[this := mkApiRequestDebouncer
             (Some (pending (clock w) (requestOf this w) (stamped cid (requestSpec req))
                      (length (promises w))))]> (debouncers w)
    /\ calls wt = calls w ++ [c']
    /\ trace wt = trace w ++ EvStatus this cid Requested
                     :: match optimistic (requestSpec req) with
                        | Some _ => [EvOptimistic cid]
                        | None => []
                        end
    /\ promises wt = promises w ++ [None]
    /\ fires wt = fires w ++ [mkFire rid None FirePending]).
  { change (requestOf this w) with (requestOf this w0) in Hdup.
    unfold triggerApiRequest, this_request. unfold mbind at 1.
    unfold M_bind at 1, gets. cbv beta iota. fold (requestOf this w0). rewrite Hdup.
    munfold. cbn. rewrite Hurl.
    destruct (optimistic (requestSpec req)) as [[rb|e]|] eqn:Ho; cbn;
      [|exfalso; eapply Hopt; reflexivity|];
      rewrite ?insert_last; (eexists _, _; split; [reflexivity|]); cbn;
      rewrite <- ?app_assoc; repeat split; reflexivity. }
  destruct E as (wt & c' & Et & Hd & Hcs & Htr & Hp & Hf).
  assert (Ew : w' = resumeFire (length (fires w)) (Throws (Error "URL is required"))
                 (set_calls (alter (set_phase (Settled (Throws (Error "URL is required"))))
                               cid (calls wt)) wt)).
  { subst w'. unfold fireActionResult. rewrite Hreq. fold w0. rewrite Et. reflexivity. }
  pose proof (resumeFire_core (length (fires w)) (Throws (Error "URL is required"))
                (set_calls (alter (set_phase (Settled (Throws (Error "URL is required"))))
                              cid (calls wt)) wt)) as Hcore.
  rewrite <- Ew in Hcore. apply core_inv in Hcore. cbn in Hcore.
  destruct Hcore as (Hd' & _ & Hcs' & _ & Htr' & _).
  split; [|split; [|split; [|split]]].
  - rewrite Ew. unfold resumeFire. cbn. rewrite Hf, lookup_last. cbn.
    rewrite insert_last, lookup_last. reflexivity.
  - rewrite Hd', Hd, list_lookup_insert_eq by exact Hthis. cbn.
    reflexivity.
  - rewrite Htr', Htr. reflexivity.
  - rewrite Ew, resumeFire_promises. cbn. exact Hp.
  - intros a Ha.
    assert (Hc : exists c, calls w' !! cid = Some c /\ exists o, c_phase c = Settled o).
    { rewrite Hcs', Hcs. subst cid. rewrite alter_last, lookup_last. eexists. split; [reflexivity|].
      cbn. eauto. }
    destruct Hc as (c & Hc & o & Hph).
    destruct a as [| |c0|c0 o0|c0 o0| |]; try discriminate; injection Ha as ->;
      cbn [step]; rewrite Hc, Hph; reflexivity.
Qed.

Lemma dispatch_without_url_witness :
  let w := (ensureDebouncer "LOGIN" (run [NewApiRequest NO_URL] (init false))).1 in
  let w' := fireActionResult 0 0 w in
  w' = step (Dispatch "LOGIN" 0) (run [NewApiRequest NO_URL] (init false))
  /\ f_state <$> fires w' !! 0 = Some (FireThrew (Error "URL is required"))
  /\ isPending <$> debouncers w' !! 0 = Some true
  /\ trace w' = [EvStatus 0 0 Requested; EvOptimistic 0]
  /\ promises w' = [None]
  /\ forall a, action_call a = Some 0 -> step a w' = w'.
Proof.
  split; [vm_compute; reflexivity|].
  apply (dispatch_without_url 0 0 (newApiRequest NO_URL)
           (ensureDebouncer "LOGIN" (run [NewApiRequest NO_URL] (init false))).1);
    first [ vm_compute; reflexivity
          | intros e; vm_compute; discriminate
          | vm_compute; lia ].
Defined.

(** ** The calls of onSuccess *)

Lemma onSuccessCalls_app cid tr evs :
  onSuccessCalls cid (tr ++ evs) = onSuccessCalls cid tr + onSuccessCalls cid evs.
Proof. unfold onSuccessCalls. rewrite List.filter_app, length_app. reflexivity. Qed.

Lemma api_rejected_app cid tr evs :
  api_rejected cid (tr ++ evs) = api_rejected cid tr || api_rejected cid evs.
Proof. apply existsb_app. Qed.

Lemma other_call_onSuccess cid cid' tr :
  Forall (fun e => event_call e = cid') tr -> cid' <> cid ->
  onSuccessCalls cid tr = 0 /\ api_rejected cid tr = false.
Proof.
  intros H Hne. induction H as [|e tr He _ IH]; [split; reflexivity|].
  destruct IH as (IH1 & IH2).
  assert (Hneq : Nat.eqb cid' cid = false) by (apply Nat.eqb_neq; exact Hne).
  unfold onSuccessCalls, api_rejected in *. cbn.
  destruct e as [| | | |? [|]| | | | | |]; cbn in *; subst; rewrite ?Hneq; cbn; auto.
Qed.

Lemma unborn_call_onSuccess cid (Cs : list Call) tr :
  Forall (fun e => event_call e < length Cs) tr -> length Cs <= cid ->
  onSuccessCalls cid tr = 0 /\ api_rejected cid tr = false.
Proof.
  intros H Hle. induction H as [|e tr He _ IH]; [split; reflexivity|].
  destruct IH as (IH1 & IH2).
  assert (Hneq : Nat.eqb (event_call e) cid = false) by (apply Nat.eqb_neq; lia).
  unfold onSuccessCalls, api_rejected in *. cbn.
  destruct e as [| | | |? [|]| | | | | |]; cbn in *; rewrite ?Hneq; cbn; auto.
Qed.

Lemma quiet_onSuccess cid cid' evs :
  forallb (quiet cid') evs = true ->
  onSuccessCalls cid evs = 0 /\ api_rejected cid evs = false.
Proof.
  induction evs as [|e evs IH]; [split; reflexivity|].
  cbn. intros [He H]%andb_prop. destruct (IH H) as (IH1 & IH2).
  unfold onSuccessCalls, api_rejected in *.
  destruct e; cbn in *; try discriminate; auto.
Qed.

Lemma starting_onSuccess cid cid' evs :
  forallb (starting cid') evs = true ->
  onSuccessCalls cid evs = 0 /\ api_rejected cid evs = false.
Proof.
  induction evs as [|e evs IH]; [split; reflexivity|].
  cbn. intros [He H]%andb_prop. destruct (IH H) as (IH1 & IH2).
  unfold onSuccessCalls, api_rejected in *.
  destruct e; cbn in *; try discriminate; auto.
Qed.

Lemma catch_events_onSuccess cid c evs :
  forallb (quiet cid) evs = true ->
  onSuccessCalls cid (catch_events cid c evs) = 0
  /\ api_rejected cid (catch_events cid c evs) = false.
Proof.
  intros H. destruct (quiet_onSuccess cid cid evs H) as (Q1 & Q2).
  unfold catch_events.
  change (EvStatus (c_this c) cid (Received false) :: rollback_events cid c ++ evs)
    with ([EvStatus (c_this c) cid (Received false)] ++ rollback_events cid c ++ evs).
  rewrite !onSuccessCalls_app, !api_rejected_app, Q1, Q2.
  unfold rollback_events. destruct (c_optimisticRollbackFn c); split; reflexivity.
Qed.

Lemma received_events_onSuccess cid c resp :
  onSuccessCalls cid (received_events cid c resp) = (if onSuccess (c_spec c) then 1 else 0)
  /\ api_rejected cid (received_events cid c resp) = false.
Proof.
  unfold received_events, onSuccessCalls, api_rejected.
  destruct (onSuccess (c_spec c)); cbn; rewrite ?Nat.eqb_refl; split; reflexivity.
Qed.

(** A step of a call calls [onSuccess] once, when it marks the request as
    received and the hook is there, or not at all; and a step with a
    rejection of [api] ends the call before its request is marked. *)
Lemma CallStep_onSuccess cid c t r0 a ph evs r1 ph' :
  CallStep cid c t r0 a ph evs r1 ph' ->
  suspended ph = true
  /\ ((onSuccessCalls cid evs = 0 /\ (awaits_response ph' = true -> awaits_response ph = true))
      \/ (onSuccessCalls cid evs = 1 /\ awaits_response ph = true
          /\ awaits_response ph' = false /\ onSuccess (c_spec c) = true))
  /\ ((api_rejected cid evs = false)
      \/ (api_rejected cid evs = true /\ onSuccessCalls cid evs = 0
          /\ awaits_response ph = true /\ suspended ph' = false)).
Proof.
  intros Hs.
  destruct Hs as [ | resp Hsw | resp ph' Hsw Haft | err evs r1 ph' Hcaught | resp ph' Haft
                 | resp err evs r1 ph' Hcaught | resp ph' Hret
                 | resp err evs r1 ph' Hcaught ].
  - repeat split; [left; split; [reflexivity|auto]|left; reflexivity].
  - repeat split; [left; split; [reflexivity|auto]|left; reflexivity].
  - destruct (received_events_onSuccess cid c resp) as (R1 & R2).
    change (EvApiSettled cid (Returns resp) :: received_events cid c resp)
      with ([EvApiSettled cid (Returns resp)] ++ received_events cid c resp).
    rewrite onSuccessCalls_app, api_rejected_app, R1, R2.
    split; [reflexivity|]. split; [|left; reflexivity].
    unfold after_received, returned in Haft. destruct (onSuccess (c_spec c)).
    + right. subst ph'. repeat split.
    + left. split; [reflexivity|auto].
  - destruct Hcaught as (Hq & _ & _ & Hover).
    destruct (catch_events_onSuccess cid c evs Hq) as (K1 & K2).
    change (EvApiSettled cid (Throws err) :: catch_events cid c evs)
      with ([EvApiSettled cid (Throws err)] ++ catch_events cid c evs).
    rewrite onSuccessCalls_app, api_rejected_app, K1, K2.
    assert (Hsus : suspended ph' = false /\ awaits_response ph' = false)
      by (destruct Hover as [->|[o ->]]; split; reflexivity).
    destruct Hsus as [Hsus Haw].
    split; [reflexivity|]. split.
    + left. split; [reflexivity|]. rewrite Haw. discriminate.
    + right. cbn. rewrite Nat.eqb_refl. repeat split; assumption.
  - destruct (received_events_onSuccess cid c resp) as (R1 & R2).
    change (EvHookSettled cid (Returns tt) :: received_events cid c resp)
      with ([EvHookSettled cid (Returns tt)] ++ received_events cid c resp).
    rewrite onSuccessCalls_app, api_rejected_app, R1, R2.
    split; [reflexivity|]. split; [|left; reflexivity].
    unfold after_received, returned in Haft. destruct (onSuccess (c_spec c)).
    + right. subst ph'. repeat split.
    + left. split; [reflexivity|auto].
  - destruct Hcaught as (Hq & _ & _ & Hover).
    destruct (catch_events_onSuccess cid c evs Hq) as (K1 & K2).
    change (EvHookSettled cid (Throws err) :: catch_events cid c evs)
      with ([EvHookSettled cid (Throws err)] ++ catch_events cid c evs).
    rewrite onSuccessCalls_app, api_rejected_app, K1, K2.
    split; [reflexivity|]. split; [left; split; [reflexivity|auto]|left; reflexivity].
  - split; [reflexivity|]. split; [|left; reflexivity].
    left. split; [reflexivity|]. destruct Hret as [->|[v ->]]; discriminate.
  - destruct Hcaught as (Hq & _ & _ & Hover).
    destruct (catch_events_onSuccess cid c evs Hq) as (K1 & K2).
    change (EvHookSettled cid (Throws err) :: catch_events cid c evs)
      with ([EvHookSettled cid (Throws err)] ++ catch_events cid c evs).
    rewrite onSuccessCalls_app, api_rejected_app, K1, K2.
    split; [reflexivity|]. split; [|left; reflexivity].
    left. split; [reflexivity|]. destruct Hover as [->|[o ->]]; discriminate.
Qed.

Lemma onSuccess_inv_run delayed acts :
  onSuccess_inv (calls (run acts (init delayed))) (trace (run acts (init delayed))).
Proof.
  apply (run_ind (fun _ _ Cs Tr => onSuccess_inv Cs Tr)).
  - intros cid c Hc. rewrite lookup_nil in Hc. discriminate.
  - intros D T Cs Tr key _ Hinv _. exact Hinv.
  - intros D T Cs Tr key _ Hinv. exact Hinv.
  - (* a call starts *)
    intros D T Cs Tr this fid p spec c' evs t Hwf Hinv Hthis Hst Hev cid c Hc.
    destruct (starting_onSuccess cid (length Cs) evs Hev) as (S1 & S2).
    change (EvStatus this (length Cs) Requested :: evs)
      with ([EvStatus this (length Cs) Requested] ++ evs).
    rewrite !onSuccessCalls_app, !api_rejected_app, S1, S2. cbn.
    rewrite !Nat.add_0_r, !orb_false_r.
    apply lookup_app_Some in Hc. destruct Hc as [Hc|[Hle Hc]]; [apply Hinv; exact Hc|].
    destruct (cid - length Cs) as [|n] eqn:E; [|destruct n; discriminate]. injection Hc as <-.
    destruct (unborn_call_onSuccess cid Cs Tr (wf_trace _ _ _ _ Hwf) Hle) as (U1 & U2).
    rewrite U1, U2. repeat split; auto; discriminate.
  - (* a call takes a step *)
    intros D T Cs Tr cid c r0 t a evs r1 ph Hwf Hinv Hc Hr Hs cid' c' Hc'.
    destruct (CallStep_onSuccess _ _ _ _ _ _ _ _ _ Hs) as (Hsusp & Hcount & Hrej).
    pose proof (CallStep_events _ _ _ _ _ _ _ _ _ Hs) as Hevs.
    assert (Hlt : cid < length Cs) by (eapply lookup_lt_Some; eauto).
    rewrite !onSuccessCalls_app, !api_rejected_app.
    destruct (decide (cid = cid')) as [<-|Hne].
    + rewrite list_lookup_insert_eq in Hc' by assumption. injection Hc' as <-.
      destruct (Hinv cid c Hc) as (I1 & I2 & I3 & I4). cbn [c_phase c_spec set_phase].
      assert (Hnot : api_rejected cid Tr = false).
      { destruct (api_rejected cid Tr); [|reflexivity].
        destruct (I4 eq_refl) as [_ Hsus]. congruence. }
      rewrite Hnot. cbn [orb].
      destruct Hcount as [(Hz & Himp)|(Hone & Haw & Haw' & Hhook)].
      * rewrite Hz, Nat.add_0_r. split; [exact I1|]. split; [auto|]. split; [exact I3|].
        intros Hr'. destruct Hrej as [Hrej|(_ & _ & Haw & Hsus)]; [congruence|].
        split; [apply I2; exact Haw|exact Hsus].
      * rewrite Hone, (I2 Haw). cbn. split; [lia|]. split; [congruence|].
        split; [congruence|]. intros Hr'.
        destruct Hrej as [Hrej|(_ & Hz & _)]; [congruence|]. rewrite Hz in Hone. discriminate.
    + rewrite list_lookup_insert_ne in Hc' by assumption.
      destruct (other_call_onSuccess cid' cid evs) as (O1 & O2);
        [eapply Forall_impl; [exact Hevs|]; intros e [He _]; exact He|exact Hne|].
      rewrite O1, O2, !Nat.add_0_r, !orb_false_r. apply Hinv. exact Hc'.
Qed.

(** X9: [onSuccess] is called at most once for a dispatch; it is not called
    before the request is marked as received, not when the descriptor has no
    such hook, and not when the promise of the api call was rejected. *)
Theorem onSuccess_at_most_once delayed acts cid c :
  let w := run acts (init delayed) in
  calls w !! cid = Some c ->
  onSuccessCalls cid (trace w) <= 1
  /\ (awaits_response (c_phase c) = true -> onSuccessCalls cid (trace w) = 0)
  /\ (onSuccess (c_spec c) = false -> onSuccessCalls cid (trace w) = 0)
  /\ (forall e, In (EvApiSettled cid (Throws e)) (trace w) -> onSuccessCalls cid (trace w) = 0).
Proof.
  intros w Hc. destruct (onSuccess_inv_run delayed acts cid c Hc) as (I1 & I2 & I3 & I4).
  fold w in I1, I2, I3, I4. repeat split; auto.
  intros e Hin. apply I4. apply existsb_exists. exists (EvApiSettled cid (Throws e)).
  split; [exact Hin|]. cbn. apply Nat.eqb_refl.
Qed.

Lemma onSuccess_at_most_once_witness :
  let w := run [NewApiRequest LOGIN; Dispatch "LOGIN" 0;
                ApiSettles 0 (Returns ok200); HookSettles 0 (Returns tt)] (init false) in
  let c := default (mkCall 0 LOGIN 0 None "" 0 Delaying) (calls w !! 0) in
  onSuccessCalls 0 (trace w) = 1
  /\ onSuccessCalls 0 (trace w) <= 1
  /\ (awaits_response (c_phase c) = true -> onSuccessCalls 0 (trace w) = 0)
  /\ (onSuccess (c_spec c) = false -> onSuccessCalls 0 (trace w) = 0)
  /\ (forall e, In (EvApiSettled 0 (Throws e)) (trace w) -> onSuccessCalls 0 (trace w) = 0).
Proof.
  split; [vm_compute; reflexivity|].
  apply (onSuccess_at_most_once false
           [NewApiRequest LOGIN; Dispatch "LOGIN" 0; ApiSettles 0 (Returns ok200);
            HookSettles 0 (Returns tt)] 0).
  vm_compute. reflexivity.
Defined.

(** ** The response interceptors, on a rejected request *)

Section RejectedRequests.

Import Apis.

(** X10: A request that axios rejects stays rejected, with the same error,
    through both registrations of [sdfApiInstance]; it is answered with one
    toast when the status of its response is 500, 502, 503 or 504 and with
    nothing otherwise. *)
Theorem rejected_request_gets_at_most_one_toast (error : JsError) :
  snd (sdfApiInstance_response (Throws error)) = Throws error
  /\ ((exists component options,
         fst (sdfApiInstance_response (Throws error)) = [Toast component options])
      \/ fst (sdfApiInstance_response (Throws error)) = [])
  /\ (fst (sdfApiInstance_response (Throws error)) <> []
      <-> exists st, response error ≫= status = Some st
            /\ (st = 500 \/ st = 502 \/ st = 503 \/ st = 504)%Z).
Proof.
  assert (Htoast : forall (effects : list Effect) component options st,
            response error ≫= status = Some st ->
            (st = 500 \/ st = 502 \/ st = 503 \/ st = 504)%Z ->
            effects = [Toast component options] ->
            ((exists component options, effects = [Toast component options]) \/ effects = [])
            /\ (effects <> [] <-> exists st, response error ≫= status = Some st
                                   /\ (st = 500 \/ st = 502 \/ st = 503 \/ st = 504)%Z)).
  { intros effects component options st Hs Hst ->. split; [left; eauto|].
    split; [intros _; eauto|discriminate]. }
  unfold sdfApiInstance_response, use, handle500, handleOutageModes. cbn.
  split; [reflexivity|].
  destruct (response error ≫= status) as [st|] eqn:Hst.
  - destruct (decide (st = 500%Z)) as [->|H500].
    { eapply Htoast; [reflexivity|lia|reflexivity]. }
    rewrite (bool_decide_eq_false_2 (Some st = Some 500%Z)) by congruence.
    destruct (decide (st = 503%Z)) as [->|H503].
    { eapply Htoast; [reflexivity|lia|reflexivity]. }
    rewrite (bool_decide_eq_false_2 (Some st = Some 503%Z)) by congruence.
    destruct (decide (st = 502%Z)) as [->|H502].
    { eapply Htoast; [reflexivity|lia|reflexivity]. }
    rewrite (bool_decide_eq_false_2 (Some st = Some 502%Z)) by congruence.
    destruct (decide (st = 504%Z)) as [->|H504].
    { eapply Htoast; [reflexivity|lia|reflexivity]. }
    rewrite (bool_decide_eq_false_2 (Some st = Some 504%Z)) by congruence.
    cbn. split; [right; reflexivity|].
    split; [intros H; contradiction|].
    intros (st' & [= <-] & [?|[?|[?|?]]]); contradiction.
  - cbn. split; [right; reflexivity|].
    split; [intros H; contradiction|]. intros (st' & Hs & _). discriminate.
Qed.

End RejectedRequests.

(** ** The bearer token *)

Section BearerToken.

Import AuthStore.

Lemma find_In {A} (f : A -> bool) (l : list A) (x : A) : List.find f l = Some x -> In x l.
Proof. intros H. apply List.find_some in H. tauto. Qed.

Variable prototype : string -> option TokenValue.

Lemma token_of_stored pk state token :
  pk ∈ (tokens state).*1 \/ prototype pk = None ->
  token_of prototype pk state = Some token ->
  exists pk' t, In (pk', t) (tokens state) /\ token = stored t.
Proof.
  intros Hown. unfold token_of.
  destruct (List.find _ (tokens state)) as [[pk' t]|] eqn:Hfind.
  - intros [= <-]. exists pk', t. split; [eapply find_In; exact Hfind|reflexivity].
  - destruct Hown as [Hin| ->]; [|discriminate]. exfalso.
    apply list_elem_of_fmap in Hin. destruct Hin as ([pk' t] & -> & Hin).
    apply list_elem_of_In in Hin.
    pose proof (List.find_none _ _ Hfind _ Hin) as Hno. cbn in Hno.
    rewrite String.eqb_refl in Hno. discriminate.
Qed.

Lemma selectedOrDefaultAuthToken_stored state token :
  selects_no_member prototype state ->
  selectedOrDefaultAuthToken prototype state = Some token ->
  exists pk t, In (pk, t) (tokens state) /\ token = stored t.
Proof.
  intros Hsel.
  assert (Hhead : stored <$> (snd <$> head (tokens state)) = Some token ->
                  exists pk t, In (pk, t) (tokens state) /\ token = stored t).
  { destruct (tokens state) as [|[pk t] rest]; [discriminate|].
    cbn. intros [= <-]. exists pk, t. split; [left|]; reflexivity. }
  unfold selectedOrDefaultAuthToken, selectedWorkspaceToken.
  destruct (selectedWorkspacePk state) as [pk|] eqn:Hpk; [|exact Hhead].
  destruct (nonempty pk); [|exact Hhead].
  destruct (token_of prototype pk state) as [v|] eqn:Hv; [|exact Hhead].
  destruct (token_truthy v); [|exact Hhead].
  intros [= <-]. eapply token_of_stored; [apply Hsel; exact Hpk|exact Hv].
Qed.

(** X11: [injectBearerTokenAuth] touches the authorization header only, and
    it puts there the bearer of what [selectedWorkspaceToken] is when that
    is truthy.  When the selected workspace is a key of the tokens, or a
    name for which [state.tokens] answers nothing, what it puts there is the
    bearer of a token of the store, and it puts nothing when the user is not
    logged in; a selected workspace that is named like a member that
    [state.tokens] inherits, such as [toString], gets the bearer of that
    member instead. *)
Theorem injectBearerTokenAuth_injects_a_stored_token state headers :
  let headers' := injectBearerTokenAuth prototype state headers in
  (forall name, name <> "authorization" -> headers' !! name = default ∅ headers !! name)
  /\ (forall token, selectedWorkspaceToken prototype state = Some token ->
      token_truthy token = true ->
      headers' !! "authorization" = Some ("Bearer " +:+ token_text token))
  /\ (selects_no_member prototype state ->
      (headers' = default ∅ headers
       \/ exists pk token, In (pk, token) (tokens state) /\ token <> ""
            /\ headers' !! "authorization" = Some ("Bearer " +:+ token))
      /\ (userIsLoggedIn state = false -> headers' = default ∅ headers))
  /\ (forall pk member, selectedWorkspacePk state = Some pk -> pk <> "" ->
      pk ∉ (tokens state).*1 -> prototype pk = Some member -> token_truthy member = true ->
      headers' !! "authorization" = Some ("Bearer " +:+ token_text member)).
Proof.
  intros headers'. subst headers'. unfold injectBearerTokenAuth.
  assert (Hgetter : forall token, selectedWorkspaceToken prototype state = Some token ->
            token_truthy token = true ->
            match selectedOrDefaultAuthToken prototype state with
            | Some token0 =>
                if token_truthy token0
                then <["authorization" := "Bearer " +:+ token_text token0]> (default ∅ headers)
                else default ∅ headers
            | None => default ∅ headers
            end !! "authorization" = Some ("Bearer " +:+ token_text token)).
  { intros token Hsel Ht. unfold selectedOrDefaultAuthToken. rewrite Hsel, Ht, Ht.
    apply lookup_insert_eq. }
  split; [|split; [|split]].
  - intros name Hne. destruct (selectedOrDefaultAuthToken prototype state) as [token|];
      [|reflexivity].
    destruct (token_truthy token); [|reflexivity]. apply lookup_insert_ne. congruence.
  - exact Hgetter.
  - intros Hsel. split.
    + destruct (selectedOrDefaultAuthToken prototype state) as [token|] eqn:Htoken;
        [|left; reflexivity].
      destruct (token_truthy token) eqn:Hn; [|left; reflexivity]. right.
      destruct (selectedOrDefaultAuthToken_stored state token Hsel Htoken) as (pk & t & Hin & ->).
      exists pk, t. split; [exact Hin|]. split; [|apply lookup_insert_eq].
      intros ->. discriminate.
    + unfold userIsLoggedIn. intros Hout.
      destruct (selectedOrDefaultAuthToken prototype state) as [token|] eqn:Htoken;
        [|reflexivity].
      destruct (selectedOrDefaultAuthToken_stored state token Hsel Htoken) as (pk & t & Hin & _).
      destruct (tokens state); [destruct Hin|discriminate].
  - intros pk member Hpk Hne Hown Hproto Ht. apply Hgetter; [|exact Ht].
    unfold selectedWorkspaceToken, token_of. rewrite Hpk.
    assert (Hn : nonempty pk = true).
    { unfold nonempty. destruct (String.eqb_spec pk ""); [contradiction|reflexivity]. }
    rewrite Hn.
    destruct (List.find _ (tokens state)) as [[pk' t]|] eqn:Hfind; [|exact Hproto].
    exfalso. apply Hown. destruct (List.find_some _ _ Hfind) as [Hin Heq]. cbn in Heq.
    apply String.eqb_eq in Heq. subst pk'. apply list_elem_of_fmap. exists (pk, t).
    split; [reflexivity|]. apply list_elem_of_In. exact Hin.
Qed.

End BearerToken.

(** ** The keys of the store are independent *)



(** ** Failures that are returned *)

Lemma resumeFire_apiRequests_length fid o w :
  length (apiRequests (resumeFire fid o w)) = length (apiRequests w).
Proof.
  unfold resumeFire. destruct (fires w !! fid) as [f|]; [|reflexivity].
  destruct (f_state f); try reflexivity.
  destruct o as [[[d|err]|]|e]; cbn; rewrite ?length_alter; reflexivity.
Qed.

Lemma resumeAll_apiRequests_length p v fids w :
  length (apiRequests (resumeAll p v fids w)) = length (apiRequests w).
Proof.
  revert w. induction fids as [|fid fids IH]; intros w; [reflexivity|].
  cbn. unfold resumeAll in IH. rewrite IH.
  destruct (fires w !! fid) as [f|]; [|reflexivity].
  destruct (awaits_signal p f); [apply resumeFire_apiRequests_length|reflexivity].
Qed.

Lemma resolve_apiRequests_length p v w :
  length (apiRequests (resolve p v w).2) = length (apiRequests w).
Proof.
  unfold resolve. destruct (promises w !! p) as [[?|]|]; try reflexivity.
  cbn. rewrite resumeAll_apiRequests_length. reflexivity.
Qed.

(** The end of the [catch] block for an error with a response: the
    response is stored, the promise is resolved with the error and the
    async function returns it. *)
Lemma storeError_with_response cid c err resp w r :
  requestOf (c_this c) w = Some r ->
  response err = Some resp ->
  promises w !! c_completed c = Some None ->
  exists w', storeError cid c err w = (Returns (Return (TRError err)), w')
    /\ requestOf (c_this c) w' = Some (set_error (ErrorResponse resp) r)
    /\ promises w' = <[c_completed c := Some (TRError err)]> (promises w)
    /\ calls w' = calls w
    /\ length (apiRequests w') = length (apiRequests w)
    /\ (forall fid f, fires w !! fid = Some f -> awaits_signal (c_completed c) f = false ->
        fires w' !! fid = Some f).
Proof.
  intros Hr Hresp Hp. pose proof (requestOf_lt _ _ _ Hr) as Hlt.
  unfold requestOf in Hr. unfold storeError. rewrite Hresp.
  munfold. cbn. rewrite Hr. cbn.
  match goal with |- context [resolve ?p ?v ?w1] =>
    pose proof (resolve_keeps p v w1) as Hk;
    pose proof (resolve_apiRequests_length p v w1) as Hlen;
    destruct (resolve_spec p v w1) as (w2 & E & Hcore & Hprom) end.
  rewrite E in *. cbn in Hk, Hprom, Hlen. rewrite Hp in Hprom.
  unfold core at 2 in Hcore. cbn in Hcore. apply core_inv in Hcore.
  destruct Hcore as (Hd2 & _ & Hc2 & _).
  cbn. rewrite Hprom. rewrite list_lookup_insert_eq by (eapply lookup_lt_Some; eauto).
  eexists. split; [reflexivity|]. cbn.
  split; [unfold requestOf; cbn; rewrite Hd2, list_lookup_insert_eq by assumption; reflexivity|].
  split; [exact Hprom|]. split; [exact Hc2|]. split; [exact Hlen|exact Hk].
Qed.

(** The whole [catch] block, when neither the rollback nor [onFail] throws
    and the error has a response after [onFail]. *)
Lemma catchBlock_with_response cid c err err' resp w r :
  requestOf (c_this c) w = Some r ->
  (forall e, c_optimisticRollbackFn c <> Some (Throws e)) ->
  afterOnFail (c_spec c) err = Some err' ->
  response err' = Some resp ->
  promises w !! c_completed c = Some None ->
  exists w', catchBlock cid c err w = (Returns (Return (TRError err')), w')
    /\ requestOf (c_this c) w'
       = Some (set_error (ErrorResponse resp) (set_receivedAt (clock w) r))
    /\ promises w' = <[c_completed c := Some (TRError err')]> (promises w)
    /\ calls w' = calls w
    /\ length (apiRequests w') = length (apiRequests w)
    /\ (forall fid f, fires w !! fid = Some f -> awaits_signal (c_completed c) f = false ->
        fires w' !! fid = Some f).
Proof.
  intros Hr Hrb Hfail Hresp Hp. pose proof (requestOf_lt _ _ _ Hr) as Hlt.
  assert (Hstore : forall w0 : World,
    debouncers w0 = <[c_this c := mkApiRequestDebouncer (Some (set_receivedAt (clock w) r))]>
                      (debouncers w) ->
    promises w0 = promises w -> calls w0 = calls w -> fires w0 = fires w ->
    apiRequests w0 = apiRequests w ->
    exists w', storeError cid c err' w0 = (Returns (Return (TRError err')), w')
      /\ requestOf (c_this c) w'
         = Some (set_error (ErrorResponse resp) (set_receivedAt (clock w) r))
      /\ promises w' = <[c_completed c := Some (TRError err')]> (promises w)
      /\ calls w' = calls w
      /\ length (apiRequests w') = length (apiRequests w)
      /\ (forall fid f, fires w !! fid = Some f -> awaits_signal (c_completed c) f = false ->
          fires w' !! fid = Some f)).
  { intros w0 Hd0 Hp0 Hc0 Hf0 Ha0.
    destruct (storeError_with_response cid c err' resp w0 (set_receivedAt (clock w) r))
      as (w' & E & Hr' & Hp' & Hc' & Hlen & Hk);
      [unfold requestOf; rewrite Hd0, list_lookup_insert_eq by exact Hlt; reflexivity
      |exact Hresp|rewrite Hp0; exact Hp|].
    exists w'. split; [exact E|]. split; [exact Hr'|]. split; [rewrite Hp', Hp0; reflexivity|].
    split; [congruence|]. split; [congruence|]. rewrite <- Hf0. exact Hk. }
  unfold requestOf in Hr.
  unfold catchBlock, rollBack, callOnFail.
  unfold mbind at 1 2 3 4. unfold M_bind. unfold newDate at 1. cbn [fst snd].
  unfold update_request, this_request, assign_request, modify, gets.
  unfold mbind at 1. unfold M_bind at 1. cbn. rewrite Hr. cbn.
  unfold afterOnFail in Hfail.
  destruct (onFail (c_spec c)) as [onFail'|].
  - destruct (onFail' err) as [convertedData|e0] eqn:Hcall; [|discriminate].
    injection Hfail as <-. unfold converted in *.
    destruct (c_optimisticRollbackFn c) as [[[]|e]|]; cbn;
      [|exfalso; eapply Hrb; reflexivity|];
      unfold mbind, M_bind, emit, modify, lift; cbn;
      destruct (truthy convertedData); apply Hstore; reflexivity.
  - injection Hfail as <-.
    destruct (c_optimisticRollbackFn c) as [[[]|e]|]; cbn;
      [|exfalso; eapply Hrb; reflexivity|]; apply Hstore; reflexivity.
Qed.

(** The step of a call whose api call is rejected, when neither the
    rollback nor [onFail] throws and the error has a response after
    [onFail]: the [catch] block runs to its end, and then the
    [fireActionResult] of the call goes on with the error. *)
Lemma rejected_call_step cid c r f err err' resp w :
  calls w !! cid = Some c -> c_phase c = Calling ->
  requestOf (c_this c) w = Some r ->
  fires w !! c_fire c = Some f ->
  f_awaits f = Some (AwaitCall cid) ->
  promises w !! c_completed c = Some None ->
  (forall e, c_optimisticRollbackFn c <> Some (Throws e)) ->
  afterOnFail (c_spec c) err = Some err' ->
  response err' = Some resp ->
  exists w1,
    step (ApiSettles cid (Throws err)) w
    = resumeFire (c_fire c) (Returns (Some (TRError err')))
        (set_calls (<[cid := set_phase (Settled (Returns (TRError err'))) c]> (calls w1)) w1)
    /\ requestOf (c_this c) w1
       = Some (set_error (ErrorResponse resp) (set_receivedAt (clock w) r))
    /\ promises w1 = <[c_completed c := Some (TRError err')]> (promises w)
    /\ calls w1 = calls w
    /\ length (apiRequests w1) = length (apiRequests w)
    /\ fires w1 !! c_fire c = Some f.
Proof.
  intros Hc Hph Hr Hf Haw Hp Hrb Hfail Hresp.
  unfold step. rewrite Hc, Hph. unfold run_async, in_try.
  unfold mbind at 1, M_bind at 1, emit at 1, modify at 1. cbv beta iota.
  unfold try_catch, mbind, M_bind, lift. cbv beta iota.
  match goal with |- context [catchBlock cid c err ?w0] =>
    destruct (catchBlock_with_response cid c err err' resp w0 r Hr Hrb Hfail Hresp Hp)
      as (w1 & -> & Hr1 & Hp1 & Hc1 & Hlen & Hf1) end.
  cbn in Hr1, Hp1, Hc1, Hf1, Hlen. rewrite Hc1, Hc. exists w1. rewrite Hc1.
  split; [reflexivity|]. split; [exact Hr1|].
  split; [exact Hp1|]. split; [reflexivity|]. split; [exact Hlen|].
  apply Hf1; [exact Hf|]. unfold awaits_signal. rewrite Haw. reflexivity.
Qed.

(** X13: The api call of a pending request is rejected, neither the rollback
    nor [onFail] throws, and the error that the [catch] block goes on with
    after [onFail] has a response: its own, or the one that carries the
    data into which [onFail] has converted it.  The response is stored as
    the error of the request status, the promise of the request is resolved
    with the error, and the [fireActionResult] that awaits the call returns:
    the [result] of its request is the failure with that error. *)
Theorem failure_with_a_response_is_returned cid c r f err err' resp w :
  calls w !! cid = Some c -> c_phase c = Calling ->
  requestOf (c_this c) w = Some r ->
  fires w !! c_fire c = Some f -> f_state f = FirePending ->
  f_awaits f = Some (AwaitCall cid) ->
  f_request f < length (apiRequests w) ->
  promises w !! c_completed c = Some None ->
  (forall e, c_optimisticRollbackFn c <> Some (Throws e)) ->
  afterOnFail (c_spec c) err = Some err' ->
  response err' = Some resp ->
  let w' := step (ApiSettles cid (Throws err)) w in
  requestOf (c_this c) w' ≫= error = Some (ErrorResponse resp)
  /\ promises w' !! c_completed c = Some (Some (TRError err'))
  /\ f_state <$> fires w' !! c_fire c = Some FireReturned
  /\ result <$> apiRequests w' !! f_request f = Some (Returns (failure_of err')).
Proof.
  intros Hc Hph Hr Hf Hst Haw Hrid Hp Hrb Hfail Hresp w'.
  destruct (rejected_call_step cid c r f err err' resp w Hc Hph Hr Hf Haw Hp Hrb Hfail Hresp)
    as (w1 & E & Hr1 & Hp1 & _ & Hlen & Hf1).
  subst w'. rewrite E. clear E.
  assert (Hr1' : requestOf (c_this c) w1 ≫= error = Some (ErrorResponse resp))
    by (rewrite Hr1; reflexivity).
  clear Hr1. rename Hr1' into Hr1.
  assert (Hlt : c_fire c < length (fires w1)) by (eapply lookup_lt_Some; eauto).
  split; [|split; [|split]].
  - match goal with |- context [resumeFire ?a ?b ?w2] =>
      pose proof (resumeFire_core a b w2) as Hcore end.
    apply core_inv in Hcore. destruct Hcore as (Hd & _).
    unfold requestOf in *. rewrite Hd. exact Hr1.
  - rewrite resumeFire_promises. cbn. rewrite Hp1.
    apply list_lookup_insert_eq. eapply lookup_lt_Some; eauto.
  - unfold resumeFire. cbn. rewrite Hf1, Hst. cbn.
    rewrite list_lookup_insert_eq by exact Hlt. reflexivity.
  - unfold resumeFire. cbn. rewrite Hf1, Hst. cbn.
    rewrite list_lookup_alter_eq.
    destruct (lookup_lt_is_Some_2 (apiRequests w1) (f_request f)) as [req1 Hreq1]; [lia|].
    rewrite Hreq1. reflexivity.
Qed.

Lemma failure_with_a_response_is_returned_witness :
  let w := run [NewApiRequest CONVERTING; Dispatch "LOGIN" 0] (init false) in
  let w' := step (ApiSettles 0 (Throws networkError)) w in
  let resp := {| status := None; headers := mkHeaders None None; data := JStr "offline" |} in
  requestOf 0 w' ≫= error = Some (ErrorResponse resp)
  /\ promises w' !! 0 = Some (Some (TRError (converted networkError (JStr "offline"))))
  /\ f_state <$> fires w' !! 0 = Some FireReturned
  /\ result <$> apiRequests w' !! 0
     = Some (Returns (failure_of (converted networkError (JStr "offline")))).
Proof.
  refine (failure_with_a_response_is_returned 0
            (default (mkCall 0 CONVERTING 0 None "" 0 Delaying)
               (calls (run [NewApiRequest CONVERTING; Dispatch "LOGIN" 0] (init false)) !! 0))
            (default (pending 0 None CONVERTING 0)
               (requestOf 0 (run [NewApiRequest CONVERTING; Dispatch "LOGIN" 0] (init false))))
            (mkFire 0 (Some (AwaitCall 0)) FirePending)
            networkError (converted networkError (JStr "offline")) _
            (run [NewApiRequest CONVERTING; Dispatch "LOGIN" 0] (init false))
            _ _ _ _ _ _ _ _ _ _ _);
    first [ vm_compute; reflexivity
          | intros e; vm_compute; discriminate
          | vm_compute; lia
          | reflexivity ].
Defined.

(** ** Responses that are returned *)

Lemma succeed_resolves cid c resp w :
  promises w !! c_completed c = Some None ->
  exists w', succeed cid c resp w = (Returns (Return (TRData (data resp))), w')
    /\ debouncers w' = debouncers w
    /\ promises w' = <[c_completed c := Some (TRData (data resp))]> (promises w)
    /\ calls w' = calls w
    /\ length (apiRequests w') = length (apiRequests w)
    /\ (forall fid f, fires w !! fid = Some f -> awaits_signal (c_completed c) f = false ->
        fires w' !! fid = Some f).
Proof.
  intros Hp. unfold succeed. munfold.
  pose proof (resolve_keeps (c_completed c) (TRData (data resp)) w) as Hk.
  pose proof (resolve_apiRequests_length (c_completed c) (TRData (data resp)) w) as Hlen.
  destruct (resolve_spec (c_completed c) (TRData (data resp)) w) as (w2 & E & Hcore & Hprom).
  rewrite E in *. cbn in Hk, Hlen. rewrite Hp in Hprom.
  apply core_inv in Hcore. destruct Hcore as (Hd2 & _ & Hc2 & _).
  cbn. rewrite Hprom. rewrite list_lookup_insert_eq by (eapply lookup_lt_Some; eauto).
  eexists. split; [reflexivity|]. cbn.
  split; [exact Hd2|]. split; [exact Hprom|]. split; [exact Hc2|]. split; [exact Hlen|exact Hk].
Qed.

Lemma received_resolves cid c resp w r :
  requestOf (c_this c) w = Some r ->
  onSuccess (c_spec c) = false ->
  promises w !! c_completed c = Some None ->
  exists w', received cid c resp w = (Returns (Return (TRData (data resp))), w')
    /\ requestOf (c_this c) w'
       = Some (set_receivedAt (S (clock w)) (set_lastSuccessAt (clock w) r))
    /\ promises w' = <[c_completed c := Some (TRData (data resp))]> (promises w)
    /\ calls w' = calls w
    /\ length (apiRequests w') = length (apiRequests w)
    /\ (forall fid f, fires w !! fid = Some f -> awaits_signal (c_completed c) f = false ->
        fires w' !! fid = Some f).
Proof.
  intros Hr Hhook Hp. pose proof (requestOf_lt _ _ _ Hr) as Hlt.
  unfold requestOf in Hr. unfold received. rewrite Hhook. munfold. cbn. rewrite Hr. cbn.
  rewrite list_lookup_insert_eq by assumption. cbn. rewrite list_insert_insert_eq.
  match goal with |- context [succeed cid c resp ?w0] =>
    destruct (succeed_resolves cid c resp w0 Hp)
      as (w' & -> & Hd & Hp' & Hc' & Hlen & Hk) end.
  cbn in Hd, Hp', Hc', Hlen, Hk. exists w'. split; [reflexivity|].
  split; [unfold requestOf; rewrite Hd, list_lookup_insert_eq by assumption; reflexivity|].
  split; [exact Hp'|]. split; [exact Hc'|]. split; [exact Hlen|exact Hk].
Qed.

(** X14: A call ends well: with the response of the api when neither hook is
    to be called, with the return of [onNewChangeSet] when there is no
    [onSuccess], or with the return of [onSuccess].  The promise of the
    request is resolved with the data of the response and the
    [fireActionResult] that awaits the call returns: the [result] of its
    request is the success with that data. *)
Theorem response_is_returned_to_the_caller cid c r f a resp w :
  calls w !! cid = Some c ->
  requestOf (c_this c) w = Some r ->
  fires w !! c_fire c = Some f -> f_state f = FirePending ->
  f_awaits f = Some (AwaitCall cid) ->
  f_request f < length (apiRequests w) ->
  promises w !! c_completed c = Some None ->
  (a = ApiSettles cid (Returns resp) /\ c_phase c = Calling
     /\ needs_switch c resp = false /\ onSuccess (c_spec c) = false
   \/ a = HookSettles cid (Returns tt) /\ c_phase c = AwaitingNewChangeSet resp
        /\ onSuccess (c_spec c) = false
   \/ a = HookSettles cid (Returns tt) /\ c_phase c = AwaitingOnSuccess resp) ->
  let w' := step a w in
  promises w' !! c_completed c = Some (Some (TRData (data resp)))
  /\ f_state <$> fires w' !! c_fire c = Some FireReturned
  /\ result <$> apiRequests w' !! f_request f = Some (Returns (Success (data resp))).
Proof.
  intros Hc Hr Hf Hst Haw Hrid Hp Hcase w'.
  assert (E : exists w1,
    w' = resumeFire (c_fire c) (Returns (Some (TRData (data resp))))
           (set_calls (<[cid := set_phase (Settled (Returns (TRData (data resp)))) c]>
                         (calls w1)) w1)
    /\ promises w1 = <[c_completed c := Some (TRData (data resp))]> (promises w)
    /\ length (apiRequests w1) = length (apiRequests w)
    /\ fires w1 !! c_fire c = Some f).
  { assert (Hna : awaits_signal (c_completed c) f = false)
      by (unfold awaits_signal; rewrite Haw; reflexivity).
    subst w'.
    destruct Hcase as [(-> & Hph & Hsw & Hhook)|[(-> & Hph & Hhook)|(-> & Hph)]];
      unfold step; rewrite Hc, Hph; unfold run_async, in_try;
      unfold mbind at 1, M_bind at 1, emit at 1, modify at 1; cbv beta iota;
      unfold try_catch, mbind, M_bind, lift; cbv beta iota.
    - rewrite responded_spec, Hsw.
      match goal with |- context [received cid c resp ?w0] =>
        destruct (received_resolves cid c resp w0 r Hr Hhook Hp)
          as (w1 & -> & _ & Hp1 & Hc1 & Hlen & Hf1) end.
      cbn in Hp1, Hc1, Hf1, Hlen. rewrite Hc1, Hc. exists w1. rewrite Hc1. auto.
    - match goal with |- context [received cid c resp ?w0] =>
        destruct (received_resolves cid c resp w0 r Hr Hhook Hp)
          as (w1 & -> & _ & Hp1 & Hc1 & Hlen & Hf1) end.
      cbn in Hp1, Hc1, Hf1, Hlen. rewrite Hc1, Hc. exists w1. rewrite Hc1. auto.
    - match goal with |- context [succeed cid c resp ?w0] =>
        destruct (succeed_resolves cid c resp w0 Hp)
          as (w1 & -> & _ & Hp1 & Hc1 & Hlen & Hf1) end.
      cbn in Hp1, Hc1, Hf1, Hlen. rewrite Hc1, Hc. exists w1. rewrite Hc1. auto. }
  destruct E as (w1 & -> & Hp1 & Hlen & Hf1).
  assert (Hlt : c_fire c < length (fires w1)) by (eapply lookup_lt_Some; eauto).
  split; [|split].
  - rewrite resumeFire_promises. cbn. rewrite Hp1.
    apply list_lookup_insert_eq. eapply lookup_lt_Some; eauto.
  - unfold resumeFire. cbn. rewrite Hf1, Hst. cbn.
    rewrite list_lookup_insert_eq by exact Hlt. reflexivity.
  - unfold resumeFire. cbn. rewrite Hf1, Hst. cbn.
    rewrite list_lookup_alter_eq.
    destruct (lookup_lt_is_Some_2 (apiRequests w1) (f_request f)) as [req1 Hreq1]; [lia|].
    rewrite Hreq1. reflexivity.
Qed.

Lemma response_is_returned_to_the_caller_witness :
  let w := run [NewApiRequest LOGIN; Dispatch "LOGIN" 0;
                ApiSettles 0 (Returns forced200); HookSettles 0 (Returns tt)] (init false) in
  let w' := step (HookSettles 0 (Returns tt)) w in
  promises w' !! 0 = Some (Some (TRData (JStr "welcome")))
  /\ f_state <$> fires w' !! 0 = Some FireReturned
  /\ result <$> apiRequests w' !! 0 = Some (Returns (Success (JStr "welcome"))).
Proof.
  refine (response_is_returned_to_the_caller 0
            (default (mkCall 0 LOGIN 0 None "" 0 Delaying)
               (calls (run [NewApiRequest LOGIN; Dispatch "LOGIN" 0;
                            ApiSettles 0 (Returns forced200);
                            HookSettles 0 (Returns tt)] (init false)) !! 0))
            (default (pending 0 None LOGIN 0)
               (requestOf 0 (run [NewApiRequest LOGIN; Dispatch "LOGIN" 0;
                                  ApiSettles 0 (Returns forced200);
                                  HookSettles 0 (Returns tt)] (init false))))
            (mkFire 0 (Some (AwaitCall 0)) FirePending)
            (HookSettles 0 (Returns tt)) forced200
            (run [NewApiRequest LOGIN; Dispatch "LOGIN" 0;
                  ApiSettles 0 (Returns forced200); HookSettles 0 (Returns tt)] (init false))
            _ _ _ _ _ _ _ _);
    first [ vm_compute; reflexivity
          | vm_compute; lia
          | right; right; split; vm_compute; reflexivity ].
Defined.

(** ** The calls of the api *)















(** * Conflicts *)




Section Conflicts.

Import ConflictRegistry.

Variable conflictWorthy : ApiRequestDescription -> list Z.



End Conflicts.

